(** * HybridSimulatorImpl: the coordinator of the hybrid (MPI + multi-thread) simulator

    A shallow embedding of [src/mpi/model/hybrid-simulator-impl.cc]:
    the destroy queue ([Destroy], [Remove], [IsExpired], [GetDelayLeft],
    [Cancel], [ScheduleDestroy]), the granted-time-window loop of [Run],
    and the topology partitioner [Partition] with its event migration.

    Conventions.
    - [uint32_t] values are [Z] with the wrap-around written out ([u32]).
    - [Time] is the signed 64-bit tick count of ns-3, modelled as [Z]; the
      one sum of two tick counts the file takes (line 415) wraps around as
      the machine addition does ([i64]).
    - [Ptr<EventImpl>] is an address into a store of event objects, [None]
      being [nullptr]; the store is shared by every copy of an [EventId].
    - Nodes, channels and devices are held in arenas and named by index; a
      node id is its index in the global [NodeList], as in ns-3.
    - Classes whose code lies outside this file (LogicalProcess, Scheduler,
      MtpInterface, the MPI transport) are interfaces here. *)

From Stdlib Require Import ZArith Lia.
From stdpp Require Import base numbers list sorting gmap.

Local Open Scope Z_scope.

(** ** Machine integers and simulated time *)

(** Reduction of an integer to [uint32_t]. *)
Definition u32 (z : Z) : Z := z mod 2 ^ 32.

(** Reduction of an integer to [uint64_t]. *)
Definition u64 (z : Z) : Z := z mod 2 ^ 64.

(** Reduction of an integer to [int64_t], in two's complement. *)
Definition i64 (z : Z) : Z := (z + 2 ^ 63) mod 2 ^ 64 - 2 ^ 63.

(** Simulated time in ticks ([ns3::Time], an [int64_t]). *)
Definition Time : Type := Z.

Definition TimeStep (ts : Z) : Time := ts.

(** Modelled from the spec: the distinguished context [NO_CONTEXT]
    ([Simulator::NO_CONTEXT], declared outside the sources at hand; the
    value is the one of ns-3). *)
Definition NO_CONTEXT : Z := 0xffffffff.

(** ** Events and event ids *)

(** Modelled from the spec: an event has a cancelled flag and a payload
    that is invoked once (class EventImpl is declared outside the sources
    at hand).  The flag is what this file reads; the payload is run by the
    [Invoke] function the drain is given. *)
Record EventImpl := { m_cancel : bool }.

Definition IsCancelled (ev : EventImpl) : bool := m_cancel ev.

(** Modelled from the spec: an event id names the event and carries its
    timestamp, context and uid (class EventId is declared outside the
    sources at hand).  The event is held by a counted pointer, and
    [operator==] compares the four members. *)
Record EventId := mkEventId {
  PeekEventImpl : option nat;
  GetTs : Z;
  GetContext : Z;
  GetUid : Z
}.

#[global] Instance EventImpl_eq_dec : EqDecision EventImpl.
Proof. solve_decision. Defined.

#[global] Instance EventId_eq_dec : EqDecision EventId.
Proof. solve_decision. Defined.

(** Modelled from the spec: the sentinel uid [EventId::DESTROY] that marks
    teardown events (declared in event-id.h, which is not part of the
    sources at hand); the value is the one of ns-3's [EventId::UID]. *)
Definition DESTROY : Z := 2.

(** ** The logical process of the calling thread *)
Module LogicalProcess.

(** Modelled from the spec: a logical process removes an event by id, tells
    whether an id has expired and how long is left before it runs (class
    LogicalProcess is defined outside the sources at hand, so it is an
    interface).  [MtpInterface::GetSystem()] returns the one the calling
    thread runs on. *)
Class Ops (LP : Type) := {
  Remove : EventId → LP → LP;
  IsExpired : EventId → LP → bool;
  GetDelayLeft : EventId → LP → Time
}.

End LogicalProcess.

(** ** Simulator state touched by the destroy-queue operations *)

Inductive ExternalCall :=
| MtpInterface_Disable
| MpiInterface_Destroy.

Record SimulatorState (LP : Type) := mkSimulatorState {
  m_destroyEvents : list EventId;        (* std::list<EventId> *)
  eventImpls : gmap nat EventImpl;       (* the EventImpl objects, by address *)
  currentLP : LP;                        (* MtpInterface::GetSystem() *)
  externalCalls : list ExternalCall      (* teardown calls issued so far *)
}.

Arguments mkSimulatorState {LP}.
Arguments m_destroyEvents {LP}.
Arguments eventImpls {LP}.
Arguments currentLP {LP}.
Arguments externalCalls {LP}.

Definition set_destroyEvents {LP} (q : list EventId) (st : SimulatorState LP) : SimulatorState LP :=
  mkSimulatorState q (eventImpls st) (currentLP st) (externalCalls st).

Definition set_eventImpls {LP} (h : gmap nat EventImpl) (st : SimulatorState LP) : SimulatorState LP :=
  mkSimulatorState (m_destroyEvents st) h (currentLP st) (externalCalls st).

Definition set_currentLP {LP} (lp : LP) (st : SimulatorState LP) : SimulatorState LP :=
  mkSimulatorState (m_destroyEvents st) (eventImpls st) lp (externalCalls st).

Definition call_external {LP} (c : ExternalCall) (st : SimulatorState LP) : SimulatorState LP :=
  mkSimulatorState (m_destroyEvents st) (eventImpls st) (currentLP st) (externalCalls st ++ [c]).

(** The object behind a non-null [Ptr<EventImpl>].  The pointer is counted,
    so the object of a live id exists; an address with no object reads as a
    fresh, uncancelled event. *)
Definition implAt {LP} (st : SimulatorState LP) (a : nat) : EventImpl :=
  default {| m_cancel := false |} (eventImpls st !! a).

(** The result of a run that may exhaust its fuel or dereference [nullptr]. *)
Inductive Outcome (A : Type) :=
| Returned (a : A)
| OutOfFuel
| NullPointer.

Arguments Returned {A}.
Arguments OutOfFuel {A}.
Arguments NullPointer {A}.

(** One pass of the loop of [Destroy]: the id popped, the state just after
    [pop_front] (in which [IsCancelled] is read), and whether the event was
    invoked. *)
Record DestroyStep (LP : Type) := mkDestroyStep {
  stepId : EventId;
  stepState : SimulatorState LP;
  stepInvoked : bool
}.

Arguments mkDestroyStep {LP}.
Arguments stepId {LP}.
Arguments stepState {LP}.
Arguments stepInvoked {LP}.


(** ** The granted-time-window loop of Run *)

(** Modelled from the spec: the LBTS record [{smallestTime, rxCount,
    txCount, rank, finished}] (class LbtsMessage is declared in the header,
    which is not part of the sources at hand).  The counters are
    [uint32_t]. *)
Module LbtsMessage.

Record t := mk {
  GetRxCount : Z;
  GetTxCount : Z;
  GetMyId : Z;
  IsFinished : bool;
  GetSmallestTime : Time
}.

End LbtsMessage.

(** Modelled from the spec: the collaborators the loop calls, over an
    abstract world [W] that holds the logical processes, the transport and
    the peers: the dispatcher (MtpInterface), the transport shim
    (GrantedTimeWindowMpiInterface) and the collective; none of them is
    part of the sources at hand.  [MPI_Allgather] blocks until every rank has joined
    and yields the filled buffer [m_pLBTS], which has [m_systemCount >= 1]
    entries: the record of rank 0 and those of ranks 1 .. m_systemCount-1. *)
Class Collaborators (W : Type) := {
  MtpInterface_RunBefore : W → W;
  MtpInterface_RunAfter : W → W;
  MtpInterface_CalculateSmallestTime : W → W;
  MtpInterface_GetSmallestTime : W → Time;
  MtpInterface_SetSmallestTime : Time → W → W;
  MtpInterface_isFinished : W → bool;
  MtpInterface_ProcessOneRound : W → W;
  Mpi_ReceiveMessages : W → W;
  Mpi_TestSendComplete : W → W;
  Mpi_GetRxCount : W → Z;
  Mpi_GetTxCount : W → Z;
  MPI_Allgather : LbtsMessage.t → W → (LbtsMessage.t * list LbtsMessage.t) * W
}.

(** The locals and members the reduction of lines 264-283 updates. *)
Record Reduction := mkReduction {
  m_smallestTime : Time;
  totRx : Z;
  totTx : Z;
  allFinished : bool
}.

(** What one pass of the loop did: the gathered buffer, the reduction, the
    value of [m_globalFinished] after line 288, the answer of
    [IsLocalFinished()] at line 292, whether [ProcessOneRound] was called,
    and the world after the collective, after [SetSmallestTime] and after
    the pass. *)
Record Iteration (W : Type) := mkIteration {
  itLbts : LbtsMessage.t * list LbtsMessage.t;
  itReduction : Reduction;
  itGlobalFinished : bool;
  itLocalFinished : bool;
  itProcessedRound : bool;
  itGathered : W;
  itGranted : W;
  itWorld : W
}.

Arguments mkIteration {W}.
Arguments itLbts {W}.
Arguments itReduction {W}.
Arguments itGlobalFinished {W}.
Arguments itLocalFinished {W}.
Arguments itProcessedRound {W}.
Arguments itGathered {W}.
Arguments itGranted {W}.
Arguments itWorld {W}.


(** ** The topology read by the partitioner

    Classes Node, NetDevice and Channel are declared outside the sources at
    hand; the records follow the node API the spec expects from the
    collaborators. *)

(** Modelled from the spec: a device has a channel and tells whether it is
    point-to-point.  [GetChannel] is the handle of the channel it is
    attached to ([None]: no channel). *)
Record NetDevice := mkNetDevice {
  IsPointToPoint : bool;
  GetChannel : option nat
}.

(** Modelled from the spec: a channel has devices and a [Delay] attribute.
    [endpoints] gives, for each of its devices in order, the id of the node
    that device sits on ([GetDevice(j)->GetNode()->GetId()]). *)
Record Channel := mkChannel {
  Delay : Time;
  endpoints : list nat
}.

(** Modelled from the spec: a node has an id, a system id (a [uint32_t])
    that can be set, and devices.  Its id is its index in the node list. *)
Record Node := mkNode {
  GetSystemId : Z;
  devices : list NetDevice
}.

Definition SetSystemId (systemId : Z) (node : Node) : Node :=
  mkNode systemId (devices node).

(** Line 435: the system id [localSystemId << 16 | m_myId], in [uint32_t]. *)
Definition compositeSystemId (localSystemId myId : Z) : Z :=
  Z.lor (u32 (localSystemId ≪ 16)) myId.

(** The LP index carried by a system id, and the rank it carries. *)
Definition localIdOf (systemId : Z) : Z := systemId ≫ 16.

Definition rankOf (systemId : Z) : Z := Z.land systemId 0xffff.

(** [NodeList::GetNode (context)]: the node with that id.  The result is
    [None] when the list has no node with that id, where the call is an
    access out of range. *)
Definition GetNode (nodes : list Node) (context : Z) : option Node :=
  if decide (0 ≤ context) then nodes !! Z.to_nat context else None.

(** [NodeList::GetNode (context)->GetSystemId ()]. *)
Definition systemIdOfContext (nodes : list Node) (context : Z) : option Z :=
  GetSystemId <$> GetNode nodes context.

(** ** Schedulers *)
Module Scheduler.

(** Modelled from the spec: an event carries a timestamp, a sequence number
    (uid) and a context, and a payload ([Scheduler::EventKey] and
    [Scheduler::Event] are declared outside the sources at hand). *)
Record EventKey := mkEventKey {
  m_ts : Z;
  m_uid : Z;
  m_context : Z
}.

Record Event := mkEvent {
  impl : nat;
  key : EventKey
}.

(** Modelled from the spec: events of one LP are ordered by timestamp, then
    by sequence number (the uid of the key). *)
Definition key_le (a b : EventKey) : Prop :=
  m_ts a < m_ts b ∨ (m_ts a = m_ts b ∧ m_uid a ≤ m_uid b).

Definition event_le (a b : Event) : Prop := key_le (key a) (key b).

(** Modelled from the spec: [ns3::Scheduler] is an abstract priority queue
    on the event key, with insert, remove-min and is-empty; the
    implementation is chosen by a factory (the class is declared outside
    the sources at hand).  [contents] is the queue's content, used to state
    the contract and to bound the drain loops. *)
Class Ops (S : Type) := {
  Create : S;
  Insert : Event → S → S;
  IsEmpty : S → bool;
  RemoveNext : S → option (Event * S);
  contents : S → list Event
}.

(** Modelled from the spec: the contract of a scheduler, a priority queue
    sorted by (timestamp, sequence): removal yields a least event. *)
Record Lawful (S : Type) `{Ops S} : Prop := {
  contents_Create : contents Create = [];
  contents_Insert : ∀ ev s, contents (Insert ev s) ≡ₚ ev :: contents s;
  IsEmpty_contents : ∀ s, IsEmpty s = true ↔ contents s = [];
  RemoveNext_contents : ∀ s, contents s ≠ [] →
    ∃ ev s', RemoveNext s = Some (ev, s') ∧ contents s ≡ₚ ev :: contents s'
             ∧ Forall (event_le ev) (contents s')
}.

(** A scheduler that keeps its events in a list, sorted by key. *)
Definition event_leb (a b : Event) : bool :=
  (m_ts (key a) <? m_ts (key b))
  || ((m_ts (key a) =? m_ts (key b)) && (m_uid (key a) <=? m_uid (key b))).

Fixpoint list_Insert (ev : Event) (s : list Event) : list Event :=
  match s with
  | [] => [ev]
  | x :: s' => if event_leb x ev then x :: list_Insert ev s' else ev :: x :: s'
  end.

(** Removal of a least event; the list need not be sorted. *)
Fixpoint list_least (x : Event) (s : list Event) : Event * list Event :=
  match s with
  | [] => (x, [])
  | y :: s' =>
      let '(m, rest) := list_least y s' in
      if event_leb x m then (x, y :: s') else (m, x :: rest)
  end.

Definition list_RemoveNext (s : list Event) : option (Event * list Event) :=
  match s with
  | [] => None
  | x :: s' => Some (list_least x s')
  end.

Definition ListScheduler : Ops (list Event) :=
  {| Create := [];
     Insert := list_Insert;
     IsEmpty := λ s, match s with [] => true | _ => false end;
     RemoveNext := list_RemoveNext;
     contents := λ s, s |}.

End Scheduler.

(** ** The registry of logical processes *)
Module MtpInterface.

(** Modelled from the spec: [Enable]/[EnableNew (threadCount, systemCount)]
    allocate the LPs 1 .. systemCount beside LP 0, the public LP used
    before partitioning, so that [GetSize] counts [systemCount + 1] LPs
    (class MtpInterface is not part of the sources at hand). *)
Record State := mkState {
  threadCount : Z;
  systemCount : Z
}.

Definition Enable (threads systems : Z) : State := mkState threads systems.

Definition EnableNew (threads systems : Z) (_ : State) : State := mkState threads systems.

Definition GetSize (mtp : State) : Z := u32 (systemCount mtp + 1).

(** The LP a call is made on: [GetSystem()], the LP of the calling thread,
    or [GetSystem(i)]. *)
Inductive LpRef :=
| GetSystem
| GetSystemAt (i : Z).

(** The calls the migration makes on logical processes. *)
Inductive LpCall :=
| InvokeNow (lp : LpRef) (ev : Scheduler.Event)
| LpSchedule (lp : LpRef) (delay : Time) (event : nat)
| LpScheduleWithContext (lp remote : LpRef) (context : Z) (delay : Time) (event : nat).

End MtpInterface.

(** ** The logical processes of the rank, as the simulator drives them *)
Module Systems.

(** Modelled from the spec: a logical process can be told to stop, be given
    a scheduler (named here by the type id of the factory) and be asked for
    the number of events it has executed, a [uint64_t] (class
    LogicalProcess is defined outside the sources at hand, so these are an
    interface).  [MtpInterface::GetSystem(i)] is the [i]-th of them and
    [MtpInterface::GetSize()] their number. *)
Class Ops (LP : Type) := {
  Stop : LP → LP;
  SetScheduler : Z → LP → LP;
  GetEventCount : LP → Z
}.

End Systems.

(** ** The functions of hybrid-simulator-impl.cc *)
Module HybridSimulatorImpl.

(** *** Destroy (lines 91-107)

    [Invoke a st] is the effect of running the payload of the event at
    address [a]; it may do anything to the simulator state. *)
Fixpoint DestroyLoop {LP} (Invoke : nat → SimulatorState LP → SimulatorState LP)
    (fuel : nat) (st : SimulatorState LP) (log : list (DestroyStep LP))
    : Outcome (SimulatorState LP * list (DestroyStep LP)) :=
  match m_destroyEvents st with
  | [] => Returned (st, log)
  | front :: rest =>
      match fuel with
      | O => OutOfFuel
      | S fuel' =>
          let st1 := set_destroyEvents rest st in
          match PeekEventImpl front with
          | None => NullPointer
          | Some a =>
              if IsCancelled (implAt st1 a)
              then DestroyLoop Invoke fuel' st1 (log ++ [mkDestroyStep front st1 false])
              else DestroyLoop Invoke fuel' (Invoke a st1) (log ++ [mkDestroyStep front st1 true])
          end
      end
  end.

Definition Destroy {LP} (Invoke : nat → SimulatorState LP → SimulatorState LP)
    (fuel : nat) (st : SimulatorState LP)
    : Outcome (SimulatorState LP * list (DestroyStep LP)) :=
  match DestroyLoop Invoke fuel st [] with
  | Returned (st', log) =>
      Returned (call_external MpiInterface_Destroy (call_external MtpInterface_Disable st'), log)
  | OutOfFuel => OutOfFuel
  | NullPointer => NullPointer
  end.

(** [GetMaximumSimulationTime] (lines 321-325): [Time::Max() / 2]. *)
Definition GetMaximumSimulationTime : Time := (2 ^ 63 - 1) `quot` 2.

(** *** ScheduleDestroy (lines 170-180)

    The critical section guards the queue against other threads; the model
    is of one thread. *)
Definition ScheduleDestroy {LP} (event : nat) (st : SimulatorState LP)
    : EventId * SimulatorState LP :=
  let id := mkEventId (Some event) GetMaximumSimulationTime 0xffffffff DESTROY in
  (id, set_destroyEvents (m_destroyEvents st ++ [id]) st).

(** *** Remove (lines 182-201)

    The loop erases the first entry equal to [id] and breaks. *)
Fixpoint eraseFirst (id : EventId) (q : list EventId) : list EventId :=
  match q with
  | [] => []
  | i :: q' => if bool_decide (i = id) then q' else i :: eraseFirst id q'
  end.

Definition Remove {LP} `{LPO : LogicalProcess.Ops LP} (id : EventId) (st : SimulatorState LP)
    : SimulatorState LP :=
  if GetUid id =? DESTROY
  then set_destroyEvents (eraseFirst id (m_destroyEvents st)) st
  else set_currentLP (LogicalProcess.Remove id (currentLP st)) st.

(** *** IsExpired (lines 212-235) *)
Fixpoint foundInQueue (id : EventId) (q : list EventId) : bool :=
  match q with
  | [] => false
  | i :: q' => if bool_decide (i = id) then true else foundInQueue id q'
  end.

Definition IsExpired {LP} `{LPO : LogicalProcess.Ops LP} (id : EventId) (st : SimulatorState LP) : bool :=
  if GetUid id =? DESTROY
  then
    match PeekEventImpl id with
    | None => true
    | Some a =>
        if IsCancelled (implAt st a) then true
        else if foundInQueue id (m_destroyEvents st) then false
        else true
    end
  else LogicalProcess.IsExpired id (currentLP st).

(** *** Cancel (lines 203-210)

    [EventImpl::Cancel] sets the flag.  Line 208 calls it through the
    pointer of the id without testing it: for an id that has no event and
    that [IsExpired] reports as pending, the call dereferences
    [nullptr]. *)
Definition Cancel {LP} `{LPO : LogicalProcess.Ops LP} (id : EventId) (st : SimulatorState LP)
    : Outcome (SimulatorState LP) :=
  if negb (IsExpired id st)
  then
    match PeekEventImpl id with
    | Some a => Returned (set_eventImpls (<[a := {| m_cancel := true |}]> (eventImpls st)) st)
    | None => NullPointer
    end
  else Returned st.

(** *** GetDelayLeft (lines 308-319) *)
Definition GetDelayLeft {LP} `{LPO : LogicalProcess.Ops LP} (id : EventId) (st : SimulatorState LP) : Time :=
  if IsExpired id st
  then TimeStep 0
  else LogicalProcess.GetDelayLeft id (currentLP st).

(** *** Run (lines 237-299) *)

(** Lines 264-271: the values taken from [m_pLBTS[0]]. *)
Definition reduceInit (m0 : LbtsMessage.t) : Reduction :=
  {| m_smallestTime := LbtsMessage.GetSmallestTime m0;
     totRx := u32 (LbtsMessage.GetRxCount m0);
     totTx := u32 (LbtsMessage.GetTxCount m0);
     allFinished := LbtsMessage.IsFinished m0 |}.

(** Lines 276-282: the body of the loop over ranks 1 .. m_systemCount-1. *)
Definition reduceStep (r : Reduction) (m : LbtsMessage.t) : Reduction :=
  {| m_smallestTime :=
       if LbtsMessage.GetSmallestTime m <? m_smallestTime r
       then LbtsMessage.GetSmallestTime m
       else m_smallestTime r;
     totRx := u32 (totRx r + LbtsMessage.GetRxCount m);
     totTx := u32 (totTx r + LbtsMessage.GetTxCount m);
     allFinished := allFinished r && LbtsMessage.IsFinished m |}.

Definition reduceLbts (m_pLBTS : LbtsMessage.t * list LbtsMessage.t) : Reduction :=
  foldl reduceStep (reduceInit (fst m_pLBTS)) (snd m_pLBTS).

(** Lines 248-295: one pass of the loop. *)
Definition RunIteration {W} `{Collaborators W} (m_myId : Z) (w : W) : Iteration W :=
  let w := Mpi_ReceiveMessages w in
  let w := Mpi_TestSendComplete w in
  let w := MtpInterface_CalculateSmallestTime w in
  let lMsg := LbtsMessage.mk (Mpi_GetRxCount w) (Mpi_GetTxCount w) m_myId
                (MtpInterface_isFinished w) (MtpInterface_GetSmallestTime w) in
  let m_pLBTS := fst (MPI_Allgather lMsg w) in
  let gathered := snd (MPI_Allgather lMsg w) in
  let r := reduceLbts m_pLBTS in
  let w := MtpInterface_SetSmallestTime (m_smallestTime r) gathered in
  let m_globalFinished := allFinished r && (totRx r =? totTx r) in
  let localFinished := MtpInterface_isFinished w in
  let safe := (totRx r =? totTx r) && negb localFinished in
  mkIteration m_pLBTS r m_globalFinished localFinished safe gathered w
    (if safe then MtpInterface_ProcessOneRound w else w).

(** The passes of [while (!m_globalFinished)] made within the first [n]. *)
Fixpoint RunLoop {W} `{Collaborators W} (m_myId : Z) (n : nat) (w : W) : list (Iteration W) :=
  match n with
  | O => []
  | S n' =>
      let it := RunIteration m_myId w in
      it :: (if itGlobalFinished it then [] else RunLoop m_myId n' (itWorld it))
  end.

(** Lines 237-299.  [partition] is the effect of [Partition()] on the world
    (the partitioner itself is modelled on the topology, below); the result
    is [None] when the loop is still running after [fuel] passes. *)
Definition Run {W} `{Collaborators W} (partition : W → W) (m_myId : Z) (fuel : nat) (w : W)
    : option W :=
  let w := MtpInterface_RunBefore (partition w) in
  match last (RunLoop m_myId fuel w) with
  | Some it =>
      if itGlobalFinished it then Some (MtpInterface_RunAfter (itWorld it)) else None
  | None => None
  end.

(** *** Schedule (lines 138-143) and ScheduleWithContext (lines 145-162)

    Each is the call it makes on a logical process.  [ScheduleWithContext]
    looks the context up in the node list when there is more than one
    logical process; the result is [None] when that access is out of
    range. *)
Definition Schedule (delay : Time) (event : nat) : MtpInterface.LpCall :=
  MtpInterface.LpSchedule MtpInterface.GetSystem delay event.

Definition ScheduleWithContext (mtp : MtpInterface.State) (nodes : list Node)
    (context : Z) (delay : Time) (event : nat) : option MtpInterface.LpCall :=
  if MtpInterface.GetSize mtp =? 1
  then
    Some (MtpInterface.LpScheduleWithContext MtpInterface.GetSystem MtpInterface.GetSystem
            context delay event)
  else
    systemId ← systemIdOfContext nodes context;
    Some (MtpInterface.LpScheduleWithContext MtpInterface.GetSystem
            (MtpInterface.GetSystemAt (systemId ≫ 16)) context delay event).

(** *** Partition (lines 368-523) *)

(** The members of the simulator the partitioner reads. *)
Record Members := mkMembers {
  m_myId : Z;
  m_maxThreads : Z;
  m_minLookahead : Time
}.

(** [localNetDevice->GetChannel()]; a handle that names no channel reads as
    no channel. *)
Definition channelOf (channels : list Channel) (dev : NetDevice) : option Channel :=
  GetChannel dev ≫= λ c, channels !! c.

(** Lines 386-401: the delay a device contributes. *)
Definition collectDeviceDelay (channels : list Channel) (delays : list Time) (dev : NetDevice)
    : list Time :=
  match channelOf channels dev with
  | None => delays
  | Some channel => if IsPointToPoint dev then delays ++ [Delay channel] else delays
  end.

(** Lines 381-403. *)
Definition collectNodeDelays (myId : Z) (channels : list Channel) (delays : list Time)
    (node : Node) : list Time :=
  if GetSystemId node =? myId
  then foldl (collectDeviceDelay channels) delays (devices node)
  else delays.

Definition collectDelays (myId : Z) (nodes : list Node) (channels : list Channel) : list Time :=
  foldl (collectNodeDelays myId channels) [] nodes.

(** Lines 404-416; [std::sort] is a sort of the ticks.  The sum of the two
    middle delays is a sum of two [int64_t], and the division by 2 rounds
    towards zero. *)
Definition medianOfDelays (delays : list Time) : Time :=
  let delays := merge_sort Z.le delays in
  let size := length delays in
  if decide (size = 0%nat) then TimeStep 0
  else if decide (size `mod` 2 = 1)%nat then nth (size / 2) delays 0
  else i64 (nth (size / 2 - 1) delays 0 + nth (size / 2) delays 0) `quot` 2.

(** Lines 377-418. *)
Definition autoLookahead (this : Members) (nodes : list Node) (channels : list Channel) : Time :=
  if m_minLookahead this =? TimeStep 0
  then medianOfDelays (collectDelays (m_myId this) nodes channels)
  else m_minLookahead this.

(** [visited[id]]; an id beyond the array reads as visited. *)
Definition isVisited (visited : list bool) (id : nat) : bool :=
  default true (visited !! id).

(** [node->GetSystemId() == sid] for the node with id [id]. *)
Definition hasSystemId (nodes : list Node) (id : nat) (sid : Z) : bool :=
  match nodes !! id with
  | Some node => GetSystemId node =? sid
  | None => false
  end.

(** Lines 461-466: the test reads the system id of [node], the node just
    popped, and pushes [remote]. *)
Definition pushAdjacent (myId : Z) (nodes : list Node) (visited : list bool) (node : nat)
    (q : list nat) (remote : nat) : list nat :=
  if negb (isVisited visited remote) && hasSystemId nodes node myId
  then q ++ [remote]
  else q.

(** Lines 441-467: one device of the popped node. *)
Definition scanDevice (myId : Z) (minLookahead : Time) (channels : list Channel)
    (nodes : list Node) (visited : list bool) (node : nat)
    (q : list nat) (dev : NetDevice) : list nat :=
  match channelOf channels dev with
  | None => q
  | Some channel =>
      if IsPointToPoint dev && (minLookahead <=? Delay channel)
      then q
      else foldl (pushAdjacent myId nodes visited node) q (endpoints channel)
  end.

(** Lines 428-469: the loop [while (!q.empty())]. *)
Fixpoint bfs (fuel : nat) (myId : Z) (minLookahead : Time) (channels : list Channel)
    (localSystemId : Z) (q : list nat) (nodes : list Node) (visited : list bool)
    : option (list Node * list bool) :=
  match q with
  | [] => Some (nodes, visited)
  | node :: q =>
      match fuel with
      | O => None
      | S fuel' =>
          let visited := <[node := true]> visited in
          let nodes := alter (SetSystemId (compositeSystemId localSystemId myId)) node nodes in
          let q := foldl (scanDevice myId minLookahead channels nodes visited node) q
                     (from_option devices [] (nodes !! node)) in
          bfs fuel' myId minLookahead channels localSystemId q nodes visited
      end
  end.

(** Lines 421-471: the loop over the global node list. *)
Fixpoint assignLocalSystemIds (fuel : nat) (myId : Z) (minLookahead : Time)
    (channels : list Channel) (ids : list nat) (localSystemId : Z)
    (nodes : list Node) (visited : list bool) : option (Z * list Node) :=
  match ids with
  | [] => Some (localSystemId, nodes)
  | it :: ids =>
      if negb (isVisited visited it) && hasSystemId nodes it myId
      then
        let localSystemId := u32 (localSystemId + 1) in
        match bfs fuel myId minLookahead channels localSystemId [it] nodes visited with
        | None => None
        | Some (nodes, visited) =>
            assignLocalSystemIds fuel myId minLookahead channels ids localSystemId nodes visited
        end
      else assignLocalSystemIds fuel myId minLookahead channels ids localSystemId nodes visited
  end.

(** Lines 494-498: the events of the public LP are moved to a fresh
    scheduler.  [fuel] bounds the passes of the loop; the number of events
    is enough for a scheduler that keeps its contract, which also hands out
    an event whenever it is not empty ([removeOldEvents_drains]). *)
Fixpoint removeOldEvents {S} `{Scheduler.Ops S} (fuel : nat) (oldEvents eventsToBeTransferred : S)
    : S * S :=
  match fuel with
  | O => (oldEvents, eventsToBeTransferred)
  | S fuel' =>
      if Scheduler.IsEmpty oldEvents then (oldEvents, eventsToBeTransferred)
      else
        match Scheduler.RemoveNext oldEvents with
        | Some (next, oldEvents) =>
            removeOldEvents fuel' oldEvents (Scheduler.Insert next eventsToBeTransferred)
        | None => (oldEvents, eventsToBeTransferred)
        end
  end.

(** Lines 503-521: what is done with one event; [None] when the node list
    is accessed out of range. *)
Definition transferEvent (mtp : MtpInterface.State) (nodes : list Node) (ev : Scheduler.Event)
    : option MtpInterface.LpCall :=
  let ts := Scheduler.m_ts (Scheduler.key ev) in
  let context := Scheduler.m_context (Scheduler.key ev) in
  if ts =? 0
  then
    if context =? NO_CONTEXT
    then Some (MtpInterface.InvokeNow (MtpInterface.GetSystemAt 0) ev)
    else
      systemId ← systemIdOfContext nodes context;
      Some (MtpInterface.InvokeNow (MtpInterface.GetSystemAt (systemId ≫ 16)) ev)
  else if context =? NO_CONTEXT
  then Some (Schedule (TimeStep ts) (Scheduler.impl ev))
  else ScheduleWithContext mtp nodes context (TimeStep ts) (Scheduler.impl ev).

(** Lines 501-522: the events removed, in order, and the call made for
    each.  What the payload of an event does when [InvokeNow] runs it is
    the business of the logical process; it is taken not to relabel nodes
    or to change the number of logical processes.  The result is [None]
    when the call made for an event fails, when the scheduler hands out no
    event although it is not empty, and when it is still not empty after
    [fuel] events. *)
Fixpoint transferEvents {S} `{Scheduler.Ops S} (fuel : nat) (mtp : MtpInterface.State)
    (nodes : list Node) (eventsToBeTransferred : S)
    : option (list (Scheduler.Event * MtpInterface.LpCall)) :=
  if Scheduler.IsEmpty eventsToBeTransferred then Some []
  else
    match fuel with
    | O => None
    | S fuel' =>
        match Scheduler.RemoveNext eventsToBeTransferred with
        | Some (ev, eventsToBeTransferred) =>
            call ← transferEvent mtp nodes ev;
            rest ← transferEvents fuel' mtp nodes eventsToBeTransferred;
            Some ((ev, call) :: rest)
        | None => None
        end
    end.

(** What [Partition] leaves behind. *)
Record Partitioned (S : Type) := mkPartitioned {
  partNodes : list Node;                 (* the node list, relabelled *)
  partMinLookahead : Time;               (* m_minLookahead *)
  partMtp : MtpInterface.State;          (* after EnableNew *)
  partSchedulerSet : list Z;             (* LPs given the scheduler, lines 486-489 *)
  partPublicEvents : S;                  (* the public LP's scheduler, drained *)
  partTransferred : list (Scheduler.Event * MtpInterface.LpCall)
}.

Arguments mkPartitioned {S}.
Arguments partNodes {S}.
Arguments partMinLookahead {S}.
Arguments partMtp {S}.
Arguments partSchedulerSet {S}.
Arguments partPublicEvents {S}.
Arguments partTransferred {S}.

(** Line 374: [new bool[n]{false}].  The initialiser names one element, so
    for [n = 0] it is longer than the array and the expression throws
    [std::bad_array_new_length]: the result is [None]. *)
Definition newVisited (n : nat) : option (list bool) :=
  match n with
  | O => None
  | S _ => Some (replicate n false)
  end.

(** The result is [None] when the call does not return: the allocation of
    line 374 throws, the node list is accessed out of range during the
    migration, or the migration fails on the scheduler; and also, [fuel]
    bounding the passes of each breadth-first search, when a search is
    still running after that many. *)
Definition Partition {S} `{Scheduler.Ops S} (fuel : nat) (this : Members)
    (mtp : MtpInterface.State) (nodes : list Node) (channels : list Channel)
    (oldEvents : S) : option (Partitioned S) :=
  match newVisited (length nodes) with
  | None => None
  | Some visited =>
      let minLookahead := autoLookahead this nodes channels in
      match assignLocalSystemIds fuel (m_myId this) minLookahead channels
              (seq 0 (length nodes)) 0 nodes visited with
      | None => None
      | Some (localSystemId, nodes) =>
          let systemCount := localSystemId in
          let threadCount := Z.min (m_maxThreads this) systemCount in
          let mtp := MtpInterface.EnableNew threadCount systemCount mtp in
          let '(oldEvents, eventsToBeTransferred) :=
            removeOldEvents (length (Scheduler.contents oldEvents)) oldEvents
              Scheduler.Create in
          match transferEvents (length (Scheduler.contents eventsToBeTransferred))
                  mtp nodes eventsToBeTransferred with
          | None => None
          | Some transferred =>
              Some (mkPartitioned nodes minLookahead mtp (seqZ 1 systemCount) oldEvents
                      transferred)
          end
      end
  end.

(** *** ScheduleNow (lines 164-168) *)
Definition ScheduleNow (event : nat) : MtpInterface.LpCall :=
  Schedule (TimeStep 0) event.

(** *** Stop (lines 121-129) and SetScheduler (lines 327-336)

    The loop [for (i = 0; i < GetSize(); i++) GetSystem(i)->f()], with
    [count] passes left and [i] the index of the next one. *)
Fixpoint forEachSystem {LP} (f : LP → LP) (count : nat) (i : nat) (systems : list LP)
    : list LP :=
  match count with
  | O => systems
  | S count' => forEachSystem f count' (S i) (alter f i systems)
  end.

Definition Stop {LP} `{SY : Systems.Ops LP} (systems : list LP) : list LP :=
  forEachSystem Systems.Stop (length systems) 0 systems.

(** The logical processes and [m_schedulerTypeId] after the call. *)
Definition SetScheduler {LP} `{SY : Systems.Ops LP} (schedulerFactory : Z)
    (systems : list LP) : list LP * Z :=
  (forEachSystem (Systems.SetScheduler schedulerFactory) (length systems) 0 systems,
   schedulerFactory).

(** *** GetEventCount (lines 350-359) *)
Fixpoint addEventCounts {LP} `{SY : Systems.Ops LP} (count : nat) (i : nat)
    (eventCount : Z) (systems : list LP) : Z :=
  match count with
  | O => eventCount
  | S count' =>
      addEventCounts count' (S i)
        (u64 (eventCount + from_option Systems.GetEventCount 0 (systems !! i))) systems
  end.

Definition GetEventCount {LP} `{SY : Systems.Ops LP} (systems : list LP) : Z :=
  addEventCounts (length systems) 0 0 systems.

End HybridSimulatorImpl.

Import HybridSimulatorImpl.

(** ** Instances used to run the model on concrete inputs *)

(** A logical process with nothing scheduled on it: every id has expired. *)
Definition IdleLP : LogicalProcess.Ops unit :=
  {| LogicalProcess.Remove := λ _ lp, lp;
     LogicalProcess.IsExpired := λ _ _, true;
     LogicalProcess.GetDelayLeft := λ _ _, TimeStep 0 |}.

(** A logical process on which every id is pending, 7 ticks ahead. *)
Definition BusyLP : LogicalProcess.Ops unit :=
  {| LogicalProcess.Remove := λ _ lp, lp;
     LogicalProcess.IsExpired := λ _ _, false;
     LogicalProcess.GetDelayLeft := λ _ _, TimeStep 7 |}.

(** The id [ScheduleDestroy] makes for the event at address [a]. *)
Definition destroyId (a : nat) : EventId :=
  mkEventId (Some a) HybridSimulatorImpl.GetMaximumSimulationTime 0xffffffff DESTROY.

(** The number of entries of a queue equal to [id]. *)
Definition occurrences (id : EventId) (q : list EventId) : nat :=
  length (filter (λ i, i = id) q).

(** A pass of the drain agrees with the flag it read: the event was invoked
    exactly when it was not cancelled in the state just after the pop. *)
Definition stepFaithful {LP} (s : DestroyStep LP) : Prop :=
  ∃ a, PeekEventImpl (stepId s) = Some a
       ∧ stepInvoked s = negb (IsCancelled (implAt (stepState s) a)).

(** Whether the event of an id is there and not cancelled. *)
Definition notCancelled {LP} (st : SimulatorState LP) (id : EventId) : bool :=
  match PeekEventImpl id with
  | Some a => negb (IsCancelled (implAt st a))
  | None => false
  end.

(** A destroy queue of three events, the second of them cancelled. *)
Definition threeDestroyEvents : SimulatorState unit :=
  mkSimulatorState [destroyId 1; destroyId 2; destroyId 3]
    {[ 1%nat := {| m_cancel := false |}; 2%nat := {| m_cancel := true |};
       3%nat := {| m_cancel := false |} ]} tt [].

(** A destroy queue that holds the same id twice (the same event scheduled
    for destruction twice). *)
Definition sameEventTwice : SimulatorState unit :=
  mkSimulatorState [destroyId 1; destroyId 1]
    {[ 1%nat := {| m_cancel := false |} ]} tt [].

(** The state a call returned, and [st] when it did not return. *)
Definition returnedOr {A : Type} (st : A) (o : Outcome A) : A :=
  match o with
  | Returned st' => st'
  | _ => st
  end.

(** A payload that calls [Cancel] on the destroy id of the event at
    address 3, whichever event runs. *)
Definition cancelThird (_ : nat) (st : SimulatorState unit) : SimulatorState unit :=
  returnedOr st (Cancel (LPO := IdleLP) (destroyId 3) st).

(** The state just after [pop_front] (line 97). *)
Definition popFront {LP} (st : SimulatorState LP) : SimulatorState LP :=
  set_destroyEvents (tail (m_destroyEvents st)) st.

(** The teardown calls of lines 105-106. *)
Definition teardown {LP} (st : SimulatorState LP) : SimulatorState LP :=
  call_external MpiInterface_Destroy (call_external MtpInterface_Disable st).

(** The state a pass of the drain hands to the next one: what the payload
    made of the state just after the pop when the event was invoked, and
    that state itself when it was not. *)
Definition afterStep {LP} (Invoke : nat → SimulatorState LP → SimulatorState LP)
    (s : DestroyStep LP) : SimulatorState LP :=
  match PeekEventImpl (stepId s) with
  | Some a => if stepInvoked s then Invoke a (stepState s) else stepState s
  | None => stepState s
  end.

(** The passes [log] lead from [st] to [st']: each pops the id at the front
    of the queue as the pass before left it, invokes the event exactly when
    its flag is clear just after the pop, and hands on [afterStep]. *)
Fixpoint drainedBy {LP} (Invoke : nat → SimulatorState LP → SimulatorState LP)
    (st : SimulatorState LP) (log : list (DestroyStep LP)) (st' : SimulatorState LP) : Prop :=
  match log with
  | [] => st' = st
  | s :: log =>
      head (m_destroyEvents st) = Some (stepId s)
      ∧ stepState s = popFront st
      ∧ stepFaithful s
      ∧ drainedBy Invoke (afterStep Invoke s) log st'
  end.

(** The state reached from [st] by popping the ids [ids] one after the
    other and running, after its pop, the payload of each event whose flag
    is clear in [st0]. *)
Definition runPayloads {LP} (Invoke : nat → SimulatorState LP → SimulatorState LP)
    (st0 : SimulatorState LP) (ids : list EventId) (st : SimulatorState LP)
    : SimulatorState LP :=
  foldl (λ s id, if notCancelled st0 id
                 then from_option (λ a, Invoke a (popFront s)) (popFront s) (PeekEventImpl id)
                 else popFront s)
    st ids.

(** A logical process that is a journal, and a payload that notes in it the
    address of the event it belongs to. *)
Definition JournalLP : LogicalProcess.Ops (list nat) :=
  {| LogicalProcess.Remove := λ _ lp, lp;
     LogicalProcess.IsExpired := λ _ _, true;
     LogicalProcess.GetDelayLeft := λ _ _, TimeStep 0 |}.

Definition notePayload (a : nat) (st : SimulatorState (list nat)) : SimulatorState (list nat) :=
  set_currentLP (currentLP st ++ [a]) st.

(** A destroy queue of three events, the second of them cancelled, with an
    empty journal. *)
Definition threeJournalled : SimulatorState (list nat) :=
  mkSimulatorState [destroyId 1; destroyId 2; destroyId 3]
    {[ 1%nat := {| m_cancel := false |}; 2%nat := {| m_cancel := true |};
       3%nat := {| m_cancel := false |} ]} [] [].

(** Three live events, no destroy event and an empty journal. *)
Definition noneJournalled : SimulatorState (list nat) :=
  mkSimulatorState []
    {[ 1%nat := {| m_cancel := false |}; 2%nat := {| m_cancel := false |};
       3%nat := {| m_cancel := false |} ]} [] [].

(** A payload that leaves the simulator state alone. *)
Definition quietPayload (_ : nat) (st : SimulatorState unit) : SimulatorState unit := st.

(** The exact sum of a field over the gathered records. *)
Definition sumOver (f : LbtsMessage.t → Z) (lbts : list LbtsMessage.t) : Z :=
  foldr (λ m acc, f m + acc) 0 lbts.

(** The records of all ranks, rank 0 first. *)
Definition allRanks (m_pLBTS : LbtsMessage.t * list LbtsMessage.t) : list LbtsMessage.t :=
  fst m_pLBTS :: snd m_pLBTS.

(** The world just before the collective of a pass that starts in [w]:
    after the calls of lines 250-252. *)
Definition beforeGather {W} `{Collaborators W} (w : W) : W :=
  MtpInterface_CalculateSmallestTime (Mpi_TestSendComplete (Mpi_ReceiveMessages w)).

(** The record this rank hands to the collective in the world [w] (lines
    253-257). *)
Definition localRecord {W} `{Collaborators W} (m_myId : Z) (w : W) : LbtsMessage.t :=
  LbtsMessage.mk (Mpi_GetRxCount w) (Mpi_GetTxCount w) m_myId
    (MtpInterface_isFinished w) (MtpInterface_GetSmallestTime w).

(** [it] is a pass started in the world [w] that runs a round only when it
    is safe: the buffer is the one [MPI_Allgather] filled from the record
    of this rank, the totals are the sums of its counters in [uint32_t],
    the granted world is the gathered world after [SetSmallestTime] of the
    reduced time, and the pass ends in [ProcessOneRound] of the granted
    world exactly when the totals are equal and the dispatcher is not
    finished there, and in the granted world itself otherwise. *)
Definition safePass {W} `{Collaborators W} (m_myId : Z) (w : W) (it : Iteration W) : Prop :=
  let gathered := MPI_Allgather (localRecord m_myId (beforeGather w)) (beforeGather w) in
  let all := allRanks gathered.1 in
  let rx := u32 (sumOver LbtsMessage.GetRxCount all) in
  let tx := u32 (sumOver LbtsMessage.GetTxCount all) in
  itLbts it = gathered.1
  ∧ itReduction it = reduceLbts gathered.1
  ∧ totRx (itReduction it) = rx
  ∧ totTx (itReduction it) = tx
  ∧ itGranted it = MtpInterface_SetSmallestTime (m_smallestTime (itReduction it)) gathered.2
  ∧ (itProcessedRound it = true
     ↔ rx = tx ∧ MtpInterface_isFinished (itGranted it) = false)
  ∧ itWorld it
    = (if itProcessedRound it then MtpInterface_ProcessOneRound (itGranted it)
       else itGranted it)
  ∧ (rx ≠ tx → itProcessedRound it = false ∧ itWorld it = itGranted it).

(** The passes [its] follow one another from the world [w]: each starts in
    the world the one before ended in. *)
Fixpoint passesFrom {W} `{Collaborators W} (m_myId : Z) (w : W) (its : list (Iteration W))
    : Prop :=
  match its with
  | [] => True
  | it :: its => safePass m_myId w it ∧ passesFrom m_myId (itWorld it) its
  end.

(** Two ranks that have each sent and received 2^31 messages. *)
Definition busyRanks : LbtsMessage.t * list LbtsMessage.t :=
  (LbtsMessage.mk (2 ^ 31) (2 ^ 31) 0 true 50, [LbtsMessage.mk (2 ^ 31) (2 ^ 31) 1 true 40]).

(** A scripted world for rank 1 of two: what the collective will deliver
    in the coming passes, and the number of rounds processed so far.  The
    local dispatcher always has work. *)
Record Scripted := mkScripted {
  script : list (LbtsMessage.t * list LbtsMessage.t);
  rounds : nat
}.

Definition ScriptedWorld : Collaborators Scripted :=
  {| MtpInterface_RunBefore := λ w, w;
     MtpInterface_RunAfter := λ w, w;
     MtpInterface_CalculateSmallestTime := λ w, w;
     MtpInterface_GetSmallestTime := λ _, 0;
     MtpInterface_SetSmallestTime := λ _ w, w;
     MtpInterface_isFinished := λ _, false;
     MtpInterface_ProcessOneRound := λ w, mkScripted (script w) (S (rounds w));
     Mpi_ReceiveMessages := λ w, w;
     Mpi_TestSendComplete := λ w, w;
     Mpi_GetRxCount := λ _, 0;
     Mpi_GetTxCount := λ _, 0;
     MPI_Allgather := λ lMsg w,
       (default (lMsg, []) (head (script w)), mkScripted (tail (script w)) (rounds w)) |}.

(** A message sent by rank 0 is in flight during the first pass and has
    been received by rank 1 in the second. *)
Definition transientScript : Scripted :=
  mkScripted
    [ (LbtsMessage.mk 0 1 0 false 10, [LbtsMessage.mk 0 0 1 false 10]);
      (LbtsMessage.mk 0 1 0 false 10, [LbtsMessage.mk 1 0 1 false 10]) ]
    0.

(** ** Descriptions used to state what the partitioner computes *)

(** The number of nodes whose system id is [myId]. *)
Definition localCount (myId : Z) (nodes : list Node) : Z :=
  Z.of_nat (length (filter (λ node, GetSystemId node = myId) nodes)).

(** The labelling in which every node whose system id is [myId] opens a
    logical process of its own, numbered from [k + 1] in list order. *)
Fixpoint labelLocalNodes (myId : Z) (k : Z) (nodes : list Node) : list Node :=
  match nodes with
  | [] => []
  | node :: nodes =>
      if GetSystemId node =? myId
      then SetSystemId (compositeSystemId (k + 1) myId) node
             :: labelLocalNodes myId (k + 1) nodes
      else node :: labelLocalNodes myId k nodes
  end.

(** The context of an event is [NO_CONTEXT] or the id of a node of the
    list. *)
Definition contextKnown (nodes : list Node) (ev : Scheduler.Event) : Prop :=
  Scheduler.m_context (Scheduler.key ev) = NO_CONTEXT
  ∨ 0 ≤ Scheduler.m_context (Scheduler.key ev) < Z.of_nat (length nodes).

(** C5 as the claim states it: every node whose system id carried the rank
    [myId] before has an LP index in 1 .. [numLPs] in [nodes'], and the
    system id of every other node is what it was. *)
Definition coversLocalNodes (myId : Z) (nodes : list Node) (numLPs : Z) (nodes' : list Node)
    : Prop :=
  ∀ i node, nodes !! i = Some node →
    ∃ node',
      nodes' !! i = Some node'
      ∧ (rankOf (GetSystemId node) = myId → 1 ≤ localIdOf (GetSystemId node') ≤ numLPs)
      ∧ (rankOf (GetSystemId node) ≠ myId → GetSystemId node' = GetSystemId node).

(** 65536 nodes of rank 0 without devices. *)
Definition manyLocalNodes : list Node :=
  replicate (Z.to_nat 65535) (mkNode 0 []) ++ [mkNode 0 []].

(** One delay for each point-to-point device, attached to a channel, of a
    node whose system id is [myId]. *)
Definition p2pDeviceDelays (channels : list Channel) (node : Node) : list Time :=
  omap (λ dev, if IsPointToPoint dev then Delay <$> channelOf channels dev else None)
    (devices node).

Definition localDeviceDelays (myId : Z) (nodes : list Node) (channels : list Channel)
    : list Time :=
  filter (λ node, GetSystemId node = myId) nodes ≫= p2pDeviceDelays channels.

(** One delay for each point-to-point link: the links with an end on a node
    whose system id is [myId], and those with every end on such a node. *)
Definition linkTouches (myId : Z) (nodes : list Node) (c : nat) : bool :=
  existsb
    (λ node, (GetSystemId node =? myId)
             && existsb (λ dev, IsPointToPoint dev && bool_decide (GetChannel dev = Some c))
                  (devices node))
    nodes.

Definition linkInside (myId : Z) (nodes : list Node) (channel : Channel) : bool :=
  forallb (λ end_, hasSystemId nodes end_ myId) (endpoints channel).

Definition localLinkDelays (myId : Z) (nodes : list Node) (channels : list Channel)
    : list Time :=
  omap (λ '(c, channel), if linkTouches myId nodes c then Some (Delay channel) else None)
    (imap pair channels).

Definition insideLinkDelays (myId : Z) (nodes : list Node) (channels : list Channel)
    : list Time :=
  omap (λ '(c, channel),
          if linkTouches myId nodes c && linkInside myId nodes channel
          then Some (Delay channel) else None)
    (imap pair channels).

(** The median as the spec words it, on a sorted list. *)
Definition medianOfSorted (sorted : list Time) : Time :=
  match sorted with
  | [] => 0
  | _ =>
      if Nat.odd (length sorted)
      then nth (length sorted / 2) sorted 0
      else (nth (length sorted / 2 - 1) sorted 0 + nth (length sorted / 2) sorted 0) `quot` 2
  end.

(** ** Topologies and events used to run the partitioner *)

(** Milliseconds in ticks, at the default resolution of one nanosecond. *)
Definition ms (n : Z) : Time := n * 1000000.

Definition p2p (channel : nat) : NetDevice := mkNetDevice true (Some channel).

(** A chain A - B - C - D on rank 0, with link delays 1, 10 and 1 ms. *)
Definition chainNodes : list Node :=
  [ mkNode 0 [p2p 0]; mkNode 0 [p2p 0; p2p 1]; mkNode 0 [p2p 1; p2p 2]; mkNode 0 [p2p 2] ].

Definition chainChannels : list Channel :=
  [ mkChannel (ms 1) [0; 1]%nat; mkChannel (ms 10) [1; 2]%nat; mkChannel (ms 1) [2; 3]%nat ].

(** Nodes A and B on rank 0 and C and D on rank 1; links A - B of 1 ms and
    B - C, B - D of 3 ms. *)
Definition borderNodes : list Node :=
  [ mkNode 0 [p2p 0]; mkNode 0 [p2p 0; p2p 1; p2p 2]; mkNode 1 [p2p 1]; mkNode 1 [p2p 2] ].

Definition borderChannels : list Channel :=
  [ mkChannel (ms 1) [0; 1]%nat; mkChannel (ms 3) [1; 2]%nat; mkChannel (ms 3) [1; 3]%nat ].

(** Events pending on the public LP before the run: two at time 0 (one
    without context, one for node 3), one later without context, one later
    for node 2 and one later for the remote node 2 of [borderNodes]. *)
Definition pendingEvents : list Scheduler.Event :=
  [ Scheduler.mkEvent 1 (Scheduler.mkEventKey (ms 5) 7 2);
    Scheduler.mkEvent 2 (Scheduler.mkEventKey 0 8 NO_CONTEXT);
    Scheduler.mkEvent 3 (Scheduler.mkEventKey 0 4 3);
    Scheduler.mkEvent 4 (Scheduler.mkEventKey (ms 9) 1 NO_CONTEXT) ].

(** ** Descriptions and instances for further properties *)

(** [ScheduleDestroy] for each of the events [evs], in order. *)
Definition scheduleDestroyAll {LP} (evs : list nat) (st : SimulatorState LP)
    : SimulatorState LP :=
  foldl (λ st ev, (ScheduleDestroy ev st).2) st evs.

(** A simulator with no destroy event and three live events. *)
Definition noDestroyEvents : SimulatorState unit :=
  mkSimulatorState []
    {[ 1%nat := {| m_cancel := false |}; 2%nat := {| m_cancel := false |};
       3%nat := {| m_cancel := false |} ]} tt [].

(** A logical process reduced to what the simulator asks of it as a whole:
    whether it was stopped, the scheduler it was given, its event count. *)
Record PlainLP := mkPlainLP {
  stopped : bool;
  schedulerType : Z;
  executed : Z
}.

Definition PlainSystems : Systems.Ops PlainLP :=
  {| Systems.Stop := λ lp, mkPlainLP true (schedulerType lp) (executed lp);
     Systems.SetScheduler := λ f lp, mkPlainLP (stopped lp) f (executed lp);
     Systems.GetEventCount := executed |}.

(** The exact sum of the event counts of the logical processes. *)
Definition totalEventCount {LP} `{SY : Systems.Ops LP} (systems : list LP) : Z :=
  foldr (λ lp acc, Systems.GetEventCount lp + acc) 0 systems.

(** Three logical processes: the public one and two made by the
    partitioner, one of them already stopped. *)
Definition threeSystems : list PlainLP :=
  [ mkPlainLP false 0 5; mkPlainLP true 0 (2 ^ 64 - 3); mkPlainLP false 0 11 ].

(** A rank that is alone: the collective returns its own record.  The world
    is the number of rounds of work left and the number of rounds done. *)
Record Lone := mkLone {
  workLeft : nat;
  roundsDone : nat
}.

Definition LoneRank : Collaborators Lone :=
  {| MtpInterface_RunBefore := λ w, w;
     MtpInterface_RunAfter := λ w, w;
     MtpInterface_CalculateSmallestTime := λ w, w;
     MtpInterface_GetSmallestTime := λ w, Z.of_nat (roundsDone w);
     MtpInterface_SetSmallestTime := λ _ w, w;
     MtpInterface_isFinished := λ w, bool_decide (workLeft w = 0%nat);
     MtpInterface_ProcessOneRound := λ w, mkLone (pred (workLeft w)) (S (roundsDone w));
     Mpi_ReceiveMessages := λ w, w;
     Mpi_TestSendComplete := λ w, w;
     Mpi_GetRxCount := λ _, 0;
     Mpi_GetTxCount := λ _, 0;
     MPI_Allgather := λ lMsg w, ((lMsg, []), w) |}.

(** Whether a call made by the migration is an [InvokeNow]. *)
Definition isInvokeNow (call : MtpInterface.LpCall) : bool :=
  match call with
  | MtpInterface.InvokeNow _ _ => true
  | _ => false
  end.

(** The index of the logical process a call of the migration is sent to,
    when it names one by index. *)
Definition targetIndex (call : MtpInterface.LpCall) : option Z :=
  match call with
  | MtpInterface.InvokeNow (MtpInterface.GetSystemAt i) _ => Some i
  | MtpInterface.LpScheduleWithContext _ (MtpInterface.GetSystemAt i) _ _ _ => Some i
  | _ => None
  end.

(** What the partitioner may do to a node: keep its devices, and either
    keep its system id or set it to a composite id of this rank. *)
Definition relabelled (myId : Z) (node node' : Node) : Prop :=
  devices node' = devices node
  ∧ (GetSystemId node' = GetSystemId node
     ∨ ∃ k, GetSystemId node' = compositeSystemId k myId).

(** Closes a goal [id ∉ q] for a concrete queue [q] that does not hold
    [id]. *)
Ltac absent_from_queue :=
  let Hin := fresh "Hin" in
  intros Hin;
  repeat (apply elem_of_cons in Hin as [Hin | Hin]; [discriminate Hin |]);
  inversion Hin.

(** * Properties *)


(** ** The destroy queue *)
Section DestroyQueue.

Context {LP : Type} `{LPO : LogicalProcess.Ops LP}.

Lemma foundInQueue_true (id : EventId) (q : list EventId) :
  foundInQueue id q = true ↔ id ∈ q.
Proof.
  induction q as [|i q IH]; simpl.
  - split; [discriminate | intros Hin; inversion Hin].
  - case_bool_decide as Hi.
    + subst i. split; [intros _; left | reflexivity].
    + rewrite IH. split; [intros Hin; by right |].
      intros Hin. inversion Hin; subst; [congruence | assumption].
Qed.

Lemma foundInQueue_false (id : EventId) (q : list EventId) :
  foundInQueue id q = false ↔ id ∉ q.
Proof.
  rewrite <- foundInQueue_true. destruct (foundInQueue id q); split; congruence.
Qed.

(** C8.  For an id whose uid is DESTROY, [IsExpired] answers true when the
    event pointer is null or the event is cancelled; otherwise it answers
    false when the id is in the destroy queue and true when it is not. *)
Theorem IsExpired_destroy_id (id : EventId) (st : SimulatorState LP) :
  GetUid id = DESTROY →
  (PeekEventImpl id = None → IsExpired id st = true)
  ∧ (∀ a, PeekEventImpl id = Some a → IsCancelled (implAt st a) = true →
        IsExpired id st = true)
  ∧ (∀ a, PeekEventImpl id = Some a → IsCancelled (implAt st a) = false →
        id ∈ m_destroyEvents st → IsExpired id st = false)
  ∧ (∀ a, PeekEventImpl id = Some a → IsCancelled (implAt st a) = false →
        id ∉ m_destroyEvents st → IsExpired id st = true).
Proof.
  intros Huid. unfold IsExpired. rewrite Huid, Z.eqb_refl.
  repeat split.
  - intros ->. reflexivity.
  - intros a -> ->. reflexivity.
  - intros a -> -> Hin. apply foundInQueue_true in Hin. by rewrite Hin.
  - intros a -> -> Hin. apply foundInQueue_false in Hin. by rewrite Hin.
Qed.

(** *** Remove *)

Lemma eraseFirst_not_in (id : EventId) (q : list EventId) :
  id ∉ q → eraseFirst id q = q.
Proof.
  induction q as [|i q IH]; simpl; [reflexivity |].
  intros Hin. apply not_elem_of_cons in Hin as [Hne Hin].
  case_bool_decide; [congruence |]. by rewrite IH.
Qed.

Lemma eraseFirst_first (id : EventId) (l1 l2 : list EventId) :
  id ∉ l1 → eraseFirst id (l1 ++ id :: l2) = l1 ++ l2.
Proof.
  induction l1 as [|i l1 IH]; simpl; intros Hin.
  - by rewrite bool_decide_eq_true_2.
  - apply not_elem_of_cons in Hin as [Hne Hin].
    case_bool_decide; [congruence |]. by rewrite IH.
Qed.

Lemma occurrences_cons (id i : EventId) (q : list EventId) :
  occurrences id (i :: q) = (if bool_decide (i = id) then S (occurrences id q) else occurrences id q).
Proof.
  unfold occurrences. rewrite filter_cons.
  case_bool_decide; case_decide; try congruence; reflexivity.
Qed.

Lemma occurrences_zero (id : EventId) (q : list EventId) :
  occurrences id q = 0%nat ↔ id ∉ q.
Proof.
  induction q as [|i q IH].
  - split; [intros _ Hin; inversion Hin | reflexivity].
  - rewrite occurrences_cons, not_elem_of_cons.
    case_bool_decide as Hi.
    + split; [discriminate | intros [Hne _]; congruence].
    + rewrite IH. split; [intros Hq; split; [congruence | assumption] | intros [_ Hq]; exact Hq].
Qed.

Lemma occurrences_eraseFirst (id : EventId) (q : list EventId) :
  occurrences id (eraseFirst id q) = pred (occurrences id q).
Proof.
  induction q as [|i q IH]; simpl; [reflexivity |].
  rewrite occurrences_cons.
  case_bool_decide as Hi; [reflexivity |].
  rewrite occurrences_cons, bool_decide_eq_false_2 by assumption. exact IH.
Qed.

Lemma eraseFirst_length (id : EventId) (q : list EventId) :
  id ∈ q → S (length (eraseFirst id q)) = length q.
Proof.
  induction q as [|i q IH]; simpl; intros Hin; [inversion Hin |].
  case_bool_decide as Hi; [reflexivity |].
  simpl. f_equal. apply IH. inversion Hin; subst; [congruence | assumption].
Qed.

Lemma eraseFirst_twice (id : EventId) (q : list EventId) :
  eraseFirst id (eraseFirst id q) = eraseFirst id q ↔ (occurrences id q ≤ 1)%nat.
Proof.
  split.
  - intros Heq.
    destruct (decide (id ∈ eraseFirst id q)) as [Hin | Hnin].
    + apply eraseFirst_length in Hin. rewrite Heq in Hin. lia.
    + apply occurrences_zero in Hnin. rewrite occurrences_eraseFirst in Hnin. lia.
  - intros Hle. apply eraseFirst_not_in, occurrences_zero.
    rewrite occurrences_eraseFirst. lia.
Qed.

(** C9, as amended.  For an id whose uid is DESTROY, [Remove] deletes the
    first entry of the destroy queue equal to the id and keeps every other
    entry in place and in order, touching nothing else; when no entry is
    equal to it the state is unchanged; and removing twice leaves the same
    queue as removing once exactly when the id occurs at most once in the
    queue. *)
Theorem Remove_destroy_id (id : EventId) (st : SimulatorState LP) :
  GetUid id = DESTROY →
  (∀ l1 l2, m_destroyEvents st = l1 ++ id :: l2 → id ∉ l1 →
      Remove id st = set_destroyEvents (l1 ++ l2) st)
  ∧ (id ∉ m_destroyEvents st → Remove id st = st)
  ∧ (Remove id (Remove id st) = Remove id st
     ↔ (occurrences id (m_destroyEvents st) ≤ 1)%nat).
Proof.
  intros Huid. unfold Remove. rewrite Huid, Z.eqb_refl.
  split; [| split].
  - intros l1 l2 -> Hin. by rewrite eraseFirst_first.
  - intros Hin. rewrite eraseFirst_not_in by assumption. by destruct st.
  - simpl. rewrite <- eraseFirst_twice. unfold set_destroyEvents; simpl.
    split; [intros Heq; by injection Heq | intros ->; reflexivity].
Qed.

Lemma Cancel_keeps_queue (id : EventId) (st : SimulatorState LP) :
  m_destroyEvents (returnedOr st (Cancel id st)) = m_destroyEvents st.
Proof.
  unfold Cancel. destruct (negb (IsExpired id st)); [| reflexivity].
  by destruct (PeekEventImpl id).
Qed.

(** C10.  [GetDelayLeft] returns [TimeStep 0] for every id that has
    expired, and hands the id to the logical process of the calling thread
    only when it has not: so it is zero for a destroy id that is null,
    cancelled or no longer in the destroy queue, and for any other id the
    logical process reports as expired. *)
Theorem GetDelayLeft_expired (id : EventId) (st : SimulatorState LP) :
  (IsExpired id st = true → GetDelayLeft id st = TimeStep 0)
  ∧ (IsExpired id st = false →
       GetDelayLeft id st = LogicalProcess.GetDelayLeft id (currentLP st))
  ∧ (GetUid id = DESTROY →
       (PeekEventImpl id = None
        ∨ (∃ a, PeekEventImpl id = Some a ∧ IsCancelled (implAt st a) = true)
        ∨ id ∉ m_destroyEvents st) →
       GetDelayLeft id st = TimeStep 0)
  ∧ (GetUid id ≠ DESTROY → LogicalProcess.IsExpired id (currentLP st) = true →
       GetDelayLeft id st = TimeStep 0).
Proof.
  unfold GetDelayLeft.
  split; [intros ->; reflexivity |].
  split; [intros ->; reflexivity |].
  split.
  - intros Huid Hcase.
    assert (IsExpired id st = true) as ->; [| reflexivity].
    unfold IsExpired. rewrite Huid, Z.eqb_refl.
    destruct Hcase as [-> | [(a & -> & ->) | Hnin]]; [reflexivity .. |].
    apply foundInQueue_false in Hnin. rewrite Hnin.
    destruct (PeekEventImpl id); [| reflexivity].
    by destruct (IsCancelled _).
  - intros Huid Hlp.
    assert (IsExpired id st = true) as ->; [| reflexivity].
    unfold IsExpired. apply Z.eqb_neq in Huid. by rewrite Huid.
Qed.

End DestroyQueue.

Section DestroyDrain.

Context {LP : Type}.
Variable Invoke : nat → SimulatorState LP → SimulatorState LP.

Lemma DestroyLoop_returned (fuel : nat) :
  ∀ (st st' : SimulatorState LP) (log log' : list (DestroyStep LP)),
    DestroyLoop Invoke fuel st log = Returned (st', log') →
    m_destroyEvents st' = [] ∧ ∃ steps, log' = log ++ steps ∧ Forall stepFaithful steps.
Proof.
  induction fuel as [|fuel IH]; intros st st' log log'; simpl;
    destruct (m_destroyEvents st) as [|front rest] eqn:Hq; try discriminate.
  - intros [= <- <-]. split; [assumption |]. exists []. by rewrite app_nil_r.
  - intros [= <- <-]. split; [assumption |]. exists []. by rewrite app_nil_r.
  - destruct (PeekEventImpl front) as [a|] eqn:Ha; [| discriminate].
    destruct (IsCancelled (implAt (set_destroyEvents rest st) a)) eqn:Hc; intros Hrun;
      apply IH in Hrun as (Hempty & steps & -> & Hsteps);
      (split; [assumption |]); eexists (_ :: steps);
      (split; [by rewrite <- app_assoc |]); constructor; try assumption;
      exists a; simpl; by rewrite Hc.
Qed.

(** The passes logged by a returning drain lead from its first state to
    its last. *)
Lemma DestroyLoop_drained (fuel : nat) :
  ∀ (st st' : SimulatorState LP) (log log' : list (DestroyStep LP)),
    DestroyLoop Invoke fuel st log = Returned (st', log') →
    ∃ steps, log' = log ++ steps ∧ drainedBy Invoke st steps st'.
Proof.
  induction fuel as [|fuel IH]; intros st st' log log'; cbn [DestroyLoop];
    destruct (m_destroyEvents st) as [|front rest] eqn:Hq; try discriminate.
  - intros [= <- <-]. exists []. by rewrite app_nil_r.
  - intros [= <- <-]. exists []. by rewrite app_nil_r.
  - destruct (PeekEventImpl front) as [a|] eqn:Ha; [| discriminate].
    assert (Hpop : set_destroyEvents rest st = popFront st).
    { unfold popFront. by rewrite Hq. }
    destruct (IsCancelled (implAt (set_destroyEvents rest st) a)) eqn:Hc; intros Hrun;
      apply IH in Hrun as (steps & -> & Hsteps);
      eexists (_ :: steps); (split; [by rewrite <- app_assoc |]);
      cbn [drainedBy stepId stepState];
      (split; [by rewrite Hq |]); (split; [exact Hpop |]);
      (split; [exists a; cbn [stepId stepState stepInvoked]; by rewrite Hc |]);
      unfold afterStep; cbn [stepId stepState stepInvoked]; rewrite Ha; exact Hsteps.
Qed.

Hypothesis Invoke_keeps_queue :
  ∀ a (st : SimulatorState LP), m_destroyEvents (Invoke a st) = m_destroyEvents st.

(** With payloads that leave the queue and the flags alone, the drain ends
    in the state the payloads of the events not cancelled at the start make
    of it, run in queue order. *)
Lemma DestroyLoop_quiet (st0 : SimulatorState LP) (q : list EventId) :
  (∀ a s, eventImpls (Invoke a s) = eventImpls s) →
  ∀ (st : SimulatorState LP) (log : list (DestroyStep LP)),
    m_destroyEvents st = q → eventImpls st = eventImpls st0 →
    Forall (λ id, PeekEventImpl id ≠ None) q →
    ∃ steps,
      DestroyLoop Invoke (length q) st log
      = Returned (runPayloads Invoke st0 q st, log ++ steps)
      ∧ Forall2 (λ id s, stepId s = id ∧ stepInvoked s = notCancelled st0 id) q steps.
Proof.
  intros Himpls. induction q as [|front rest IH]; intros st log Hq Hst Hnn;
    cbn [length DestroyLoop]; rewrite Hq.
  - exists []. rewrite app_nil_r. split; [reflexivity | constructor].
  - apply Forall_cons in Hnn as [Hfront Hrest].
    destruct (PeekEventImpl front) as [a|] eqn:Ha; [| congruence].
    assert (Hpop : set_destroyEvents rest st = popFront st).
    { unfold popFront. by rewrite Hq. }
    assert (Hflag : IsCancelled (implAt (set_destroyEvents rest st) a)
                    = IsCancelled (implAt st0 a)).
    { unfold implAt. cbn [eventImpls set_destroyEvents]. by rewrite Hst. }
    assert (Hnc : notCancelled st0 front = negb (IsCancelled (implAt st0 a))).
    { unfold notCancelled. by rewrite Ha. }
    unfold runPayloads. cbn [foldl]. fold (runPayloads Invoke st0 rest).
    rewrite Hflag, Hnc, Ha, <- Hpop.
    destruct (IsCancelled (implAt st0 a)) eqn:Hc; cbn [negb from_option].
    + destruct (IH (set_destroyEvents rest st)
                  (log ++ [mkDestroyStep front (set_destroyEvents rest st) false])
                  eq_refl Hst Hrest) as (steps & Hrun & Hsteps).
      exists (mkDestroyStep front (set_destroyEvents rest st) false :: steps).
      rewrite Hrun, <- app_assoc. split; [reflexivity |].
      constructor; [| exact Hsteps]. cbn [stepId stepInvoked]. by rewrite Hnc.
    + destruct (IH (Invoke a (set_destroyEvents rest st))
                  (log ++ [mkDestroyStep front (set_destroyEvents rest st) true]))
        as (steps & Hrun & Hsteps);
        [by rewrite Invoke_keeps_queue | by rewrite Himpls | exact Hrest |].
      exists (mkDestroyStep front (set_destroyEvents rest st) true :: steps).
      rewrite Hrun, <- app_assoc. split; [reflexivity |].
      constructor; [| exact Hsteps]. cbn [stepId stepInvoked]. by rewrite Hnc.
Qed.

Lemma DestroyLoop_fifo (q : list EventId) :
  ∀ (st : SimulatorState LP) (log : list (DestroyStep LP)),
    m_destroyEvents st = q →
    Forall (λ id, PeekEventImpl id ≠ None) q →
    ∃ st' steps,
      DestroyLoop Invoke (length q) st log = Returned (st', log ++ steps)
      ∧ stepId <$> steps = q
      ∧ ((∀ a s, eventImpls (Invoke a s) = eventImpls s) →
         eventImpls st' = eventImpls st
         ∧ Forall (λ s, eventImpls (stepState s) = eventImpls st) steps).
Proof.
  induction q as [|front rest IH]; intros st log Hq Hnn; simpl; rewrite Hq.
  - exists st, []. rewrite app_nil_r. repeat split; constructor.
  - apply Forall_cons in Hnn as [Hfront Hrest].
    destruct (PeekEventImpl front) as [a|] eqn:Ha; [| congruence].
    set (st1 := set_destroyEvents rest st).
    destruct (IsCancelled (implAt st1 a)) eqn:Hc.
    + destruct (IH st1 (log ++ [mkDestroyStep front st1 false]) eq_refl Hrest)
        as (st' & steps & Hrun & Hids & Hframe).
      exists st', (mkDestroyStep front st1 false :: steps).
      rewrite Hrun, <- app_assoc. split; [reflexivity |].
      split; [rewrite fmap_cons; simpl; by rewrite Hids |].
      intros Himpls. destruct (Hframe Himpls) as [Hst' Hsteps].
      split; [exact Hst' |]. constructor; [reflexivity | exact Hsteps].
    + destruct (IH (Invoke a st1) (log ++ [mkDestroyStep front st1 true]))
        as (st' & steps & Hrun & Hids & Hframe); [by rewrite Invoke_keeps_queue | exact Hrest |].
      exists st', (mkDestroyStep front st1 true :: steps).
      rewrite Hrun, <- app_assoc. split; [reflexivity |].
      split; [rewrite fmap_cons; simpl; by rewrite Hids |].
      intros Himpls. destruct (Hframe Himpls) as [Hst' Hsteps].
      rewrite Himpls in Hst', Hsteps.
      split; [exact Hst' |]. constructor; [reflexivity | exact Hsteps].
Qed.

End DestroyDrain.

(** C7.  Whatever the payloads do, when [Destroy] returns its passes lead
    from the state it was called in to a state with an empty destroy queue,
    on which the two teardown calls are made: each pass pops the id at the
    front of the queue, runs the payload of its event exactly when the
    cancelled flag is not set at that moment, and hands the resulting state
    to the next pass, or the state it found when the flag is set, so that a
    cancelled event is never invoked.  When the payloads leave the destroy
    queue alone, [Destroy] returns after one pass per entry, having popped
    the entries from the front in queue order; when they also leave the
    flags alone, the state returned is the one made by the payloads of the
    entries not cancelled at the call, run in queue order, and by no
    other. *)
Theorem Destroy_drains_queue {LP : Type}
    (Invoke : nat → SimulatorState LP → SimulatorState LP) :
  (∀ fuel st st' log,
      Destroy Invoke fuel st = Returned (st', log) →
      ∃ st1,
        drainedBy Invoke st log st1
        ∧ m_destroyEvents st1 = []
        ∧ st' = teardown st1)
  ∧ ((∀ a st, m_destroyEvents (Invoke a st) = m_destroyEvents st) →
     ∀ st, Forall (λ id, PeekEventImpl id ≠ None) (m_destroyEvents st) →
       ∃ st' log,
         Destroy Invoke (length (m_destroyEvents st)) st = Returned (st', log)
         ∧ m_destroyEvents st' = []
         ∧ stepId <$> log = m_destroyEvents st
         ∧ ((∀ a s, eventImpls (Invoke a s) = eventImpls s) →
            st' = teardown (runPayloads Invoke st (m_destroyEvents st) st)
            ∧ Forall2 (λ id s, stepId s = id ∧ stepInvoked s = notCancelled st id)
                (m_destroyEvents st) log)).
Proof.
  split.
  - intros fuel st st' log. unfold Destroy.
    destruct (DestroyLoop Invoke fuel st []) as [[st1 log1]| |] eqn:Hrun; try discriminate.
    intros [= <- <-]. exists st1.
    destruct (DestroyLoop_returned _ _ _ _ _ _ Hrun) as (Hempty & _).
    destruct (DestroyLoop_drained _ _ _ _ _ _ Hrun) as (steps & -> & Hsteps).
    split; [exact Hsteps |]. split; [exact Hempty | reflexivity].
  - intros Hqueue st Hnn.
    destruct (DestroyLoop_fifo Invoke Hqueue (m_destroyEvents st) st [] eq_refl Hnn)
      as (st' & steps & Hrun & Hids & _).
    pose proof (DestroyLoop_returned _ _ _ _ _ _ Hrun) as (Hempty & _).
    eexists _, steps. unfold Destroy. rewrite Hrun. cbn [app].
    split; [reflexivity |]. split; [exact Hempty |]. split; [exact Hids |].
    intros Himpls.
    destruct (DestroyLoop_quiet Invoke Hqueue st (m_destroyEvents st) Himpls st []
                eq_refl eq_refl Hnn) as (steps' & Hrun' & Hsteps').
    rewrite Hrun in Hrun'. injection Hrun' as -> <-.
    split; [reflexivity | exact Hsteps'].
Qed.

(** The drain on three events when the first event's payload cancels the
    third: the first is invoked, the second (cancelled before the call) and
    the third (cancelled during it) are popped and not invoked. *)
Example Destroy_cancel_during_drain :
  match Destroy cancelThird 3 threeDestroyEvents with
  | Returned (st', log) =>
      m_destroyEvents st' = []
      ∧ externalCalls st' = [MtpInterface_Disable; MpiInterface_Destroy]
      ∧ (λ s, (stepId s, stepInvoked s)) <$> log
        = [(destroyId 1, true); (destroyId 2, false); (destroyId 3, false)]
  | _ => False
  end.
Proof. vm_compute. repeat split. Qed.

(** With payloads that leave the simulator alone, the events invoked are
    the first and the third: those not cancelled at the call. *)
Example Destroy_quiet_payloads :
  match Destroy quietPayload 3 threeDestroyEvents with
  | Returned (st', log) =>
      m_destroyEvents st' = []
      ∧ (λ s, (stepId s, stepInvoked s)) <$> log
        = (λ id, (id, notCancelled threeDestroyEvents id))
            <$> m_destroyEvents threeDestroyEvents
  | _ => False
  end.
Proof. vm_compute. repeat split. Qed.

(** With payloads that note their event in a journal, the journal after the
    drain of three events, the second of them cancelled, holds the first
    and the third, in this order. *)
Lemma Destroy_drains_queue_witness :
  ∃ st' log,
    Destroy notePayload (length (m_destroyEvents threeJournalled)) threeJournalled
      = Returned (st', log)
    ∧ m_destroyEvents st' = []
    ∧ stepId <$> log = m_destroyEvents threeJournalled
    ∧ st' = teardown (runPayloads notePayload threeJournalled
                        (m_destroyEvents threeJournalled) threeJournalled)
    ∧ currentLP st' = [1; 3]%nat.
Proof.
  destruct (Destroy_drains_queue notePayload) as [_ Hdrain].
  destruct (Hdrain (λ _ _, eq_refl) threeJournalled) as (st' & log & H1 & H2 & H3 & H4).
  - repeat constructor; discriminate.
  - destruct (H4 (λ _ _, eq_refl)) as [H5 _].
    exists st', log. repeat split; try assumption.
    rewrite H5. reflexivity.
Defined.

Lemma IsExpired_destroy_id_witness :
  IsExpired (LPO := BusyLP) (mkEventId None 0 0 DESTROY) threeDestroyEvents = true
  ∧ IsExpired (LPO := BusyLP) (destroyId 2) threeDestroyEvents = true
  ∧ IsExpired (LPO := BusyLP) (destroyId 1) threeDestroyEvents = false
  ∧ IsExpired (LPO := BusyLP) (destroyId 4) threeDestroyEvents = true.
Proof.
  split; [| split; [| split]].
  - destruct (IsExpired_destroy_id (LPO := BusyLP) (mkEventId None 0 0 DESTROY)
                threeDestroyEvents eq_refl) as (Hnull & _).
    apply Hnull. reflexivity.
  - destruct (IsExpired_destroy_id (LPO := BusyLP) (destroyId 2) threeDestroyEvents eq_refl)
      as (_ & Hcancelled & _).
    apply (Hcancelled 2%nat); reflexivity.
  - destruct (IsExpired_destroy_id (LPO := BusyLP) (destroyId 1) threeDestroyEvents eq_refl)
      as (_ & _ & Hqueued & _).
    apply (Hqueued 1%nat); [reflexivity | reflexivity |]. simpl. left.
  - destruct (IsExpired_destroy_id (LPO := BusyLP) (destroyId 4) threeDestroyEvents eq_refl)
      as (_ & _ & _ & Hgone).
    apply (Hgone 4%nat); [reflexivity | reflexivity |].
    simpl. absent_from_queue.
Defined.

(** C9, the claim as stated fails: with the same id twice in the destroy
    queue, one [Remove] leaves one entry and a second one leaves none. *)
Lemma Remove_twice_is_not_once :
  GetUid (destroyId 1) = DESTROY
  ∧ m_destroyEvents (Remove (LPO := IdleLP) (destroyId 1) sameEventTwice) = [destroyId 1]
  ∧ m_destroyEvents
      (Remove (LPO := IdleLP) (destroyId 1) (Remove (LPO := IdleLP) (destroyId 1) sameEventTwice))
    = []
  ∧ Remove (LPO := IdleLP) (destroyId 1) (Remove (LPO := IdleLP) (destroyId 1) sameEventTwice)
    ≠ Remove (LPO := IdleLP) (destroyId 1) sameEventTwice.
Proof.
  repeat split.
  intros Heq. apply (f_equal m_destroyEvents) in Heq. discriminate Heq.
Qed.

Lemma Remove_destroy_id_witness :
  Remove (LPO := IdleLP) (destroyId 2) threeDestroyEvents
    = set_destroyEvents [destroyId 1; destroyId 3] threeDestroyEvents
  ∧ Remove (LPO := IdleLP) (destroyId 4) threeDestroyEvents = threeDestroyEvents.
Proof.
  destruct (Remove_destroy_id (LPO := IdleLP) (destroyId 2) threeDestroyEvents eq_refl)
    as (Hfirst & _ & _).
  destruct (Remove_destroy_id (LPO := IdleLP) (destroyId 4) threeDestroyEvents eq_refl)
    as (_ & Hnone & _).
  split.
  - apply (Hfirst [destroyId 1] [destroyId 3] eq_refl). absent_from_queue.
  - apply Hnone. simpl. absent_from_queue.
Defined.

Lemma GetDelayLeft_expired_witness :
  GetDelayLeft (LPO := BusyLP) (destroyId 2) threeDestroyEvents = TimeStep 0
  ∧ GetDelayLeft (LPO := BusyLP) (destroyId 4) threeDestroyEvents = TimeStep 0
  ∧ GetDelayLeft (LPO := BusyLP) (destroyId 1) threeDestroyEvents = TimeStep 7
  ∧ GetDelayLeft (LPO := IdleLP) (mkEventId (Some 9%nat) 5 0 4) threeDestroyEvents = TimeStep 0.
Proof.
  split; [| split; [| split]].
  - destruct (GetDelayLeft_expired (LPO := BusyLP) (destroyId 2) threeDestroyEvents)
      as (Hexpired & _).
    apply Hexpired. reflexivity.
  - destruct (GetDelayLeft_expired (LPO := BusyLP) (destroyId 4) threeDestroyEvents)
      as (Hexpired & _).
    apply Hexpired. reflexivity.
  - destruct (GetDelayLeft_expired (LPO := BusyLP) (destroyId 1) threeDestroyEvents)
      as (_ & Hpending & _).
    apply Hpending. reflexivity.
  - destruct (GetDelayLeft_expired (LPO := IdleLP) (mkEventId (Some 9%nat) 5 0 4)
                threeDestroyEvents) as (_ & _ & _ & Hlp).
    apply Hlp; [discriminate | reflexivity].
Defined.

(** ** The granted-time-window loop *)
Section RunLoop.

Context {W : Type} `{CW : Collaborators W}.

Lemma reduceStep_smallest (r : Reduction) (m : LbtsMessage.t) :
  m_smallestTime (reduceStep r m) ≤ m_smallestTime r
  ∧ m_smallestTime (reduceStep r m) ≤ LbtsMessage.GetSmallestTime m
  ∧ (m_smallestTime (reduceStep r m) = m_smallestTime r
     ∨ m_smallestTime (reduceStep r m) = LbtsMessage.GetSmallestTime m).
Proof.
  cbn [reduceStep m_smallestTime].
  destruct (Z.ltb_spec (LbtsMessage.GetSmallestTime m) (m_smallestTime r));
    repeat split; auto; lia.
Qed.

Lemma reduce_foldl (r : Reduction) (rest : list LbtsMessage.t) :
  let r' := foldl reduceStep r rest in
  (m_smallestTime r' = m_smallestTime r ∨ m_smallestTime r' ∈ LbtsMessage.GetSmallestTime <$> rest)
  ∧ m_smallestTime r' ≤ m_smallestTime r
  ∧ Forall (λ m, m_smallestTime r' ≤ LbtsMessage.GetSmallestTime m) rest
  ∧ u32 (totRx r') = u32 (totRx r + sumOver LbtsMessage.GetRxCount rest)
  ∧ u32 (totTx r') = u32 (totTx r + sumOver LbtsMessage.GetTxCount rest)
  ∧ (rest ≠ [] → totRx r' = u32 (totRx r') ∧ totTx r' = u32 (totTx r'))
  ∧ allFinished r' = allFinished r && forallb LbtsMessage.IsFinished rest.
Proof.
  revert r. induction rest as [|m rest IH]; intros r; cbn [foldl sumOver foldr forallb].
  - rewrite !Z.add_0_r, andb_true_r.
    split; [by left |]. split; [reflexivity |]. split; [constructor |].
    split; [reflexivity |]. split; [reflexivity |]. split; [congruence | reflexivity].
  - destruct (IH (reduceStep r m)) as (Hmem & Hle & Hall & Hrx & Htx & Hwrap & Hfin).
    destruct (reduceStep_smallest r m) as (Hs1 & Hs2 & Hs3).
    fold (sumOver LbtsMessage.GetRxCount rest). fold (sumOver LbtsMessage.GetTxCount rest).
    split; [| split; [| split; [| split; [| split; [| split]]]]].
    + rewrite fmap_cons.
      destruct Hmem as [Hmem | Hmem]; [| right; by right].
      rewrite Hmem. destruct Hs3 as [-> | ->]; [by left | right; left].
    + lia.
    + constructor; [lia | exact Hall].
    + rewrite Hrx. cbn [reduceStep totRx]. unfold u32. rewrite Zplus_mod_idemp_l. f_equal. lia.
    + rewrite Htx. cbn [reduceStep totTx]. unfold u32. rewrite Zplus_mod_idemp_l. f_equal. lia.
    + intros _. destruct rest as [|m' rest].
      * cbn [foldl reduceStep totRx totTx]. unfold u32. by rewrite !Zmod_mod.
      * apply Hwrap. discriminate.
    + rewrite Hfin. cbn [reduceStep allFinished]. by rewrite andb_assoc.
Qed.

Lemma reduceLbts_totals (m_pLBTS : LbtsMessage.t * list LbtsMessage.t) :
  totRx (reduceLbts m_pLBTS) = u32 (sumOver LbtsMessage.GetRxCount (allRanks m_pLBTS))
  ∧ totTx (reduceLbts m_pLBTS) = u32 (sumOver LbtsMessage.GetTxCount (allRanks m_pLBTS)).
Proof.
  destruct m_pLBTS as [m0 rest]. unfold reduceLbts, allRanks. simpl.
  destruct (reduce_foldl (reduceInit m0) rest) as (_ & _ & _ & Hrx & Htx & Hwrap & _).
  simpl in Hrx, Htx. unfold u32 in Hrx, Htx. rewrite Zplus_mod_idemp_l in Hrx, Htx.
  destruct rest as [|m rest].
  - simpl. by rewrite !Z.add_0_r.
  - destruct Hwrap as [-> ->]; [discriminate |]. split; assumption.
Qed.

(** C3, as amended.  In a pass of the loop the time given to
    [SetSmallestTime] is the minimum of the gathered smallest times (it is
    one of them and none is smaller), [totRx] and [totTx] are the sums of
    the gathered [rxCount] and [txCount] reduced modulo 2^32 (the exact
    sums when these fit in 32 bits), and [m_globalFinished] is set exactly
    when every gathered record is finished and [totRx = totTx]. *)
Theorem Run_reduces_lbts (m_myId : Z) (w : W) :
  let it := RunIteration m_myId w in
  let all := allRanks (itLbts it) in
  let r := itReduction it in
  itGranted it = MtpInterface_SetSmallestTime (m_smallestTime r) (itGathered it)
  ∧ m_smallestTime r ∈ LbtsMessage.GetSmallestTime <$> all
  ∧ Forall (λ m, m_smallestTime r ≤ LbtsMessage.GetSmallestTime m) all
  ∧ totRx r = u32 (sumOver LbtsMessage.GetRxCount all)
  ∧ totTx r = u32 (sumOver LbtsMessage.GetTxCount all)
  ∧ (0 ≤ sumOver LbtsMessage.GetRxCount all < 2 ^ 32 →
     totRx r = sumOver LbtsMessage.GetRxCount all)
  ∧ (0 ≤ sumOver LbtsMessage.GetTxCount all < 2 ^ 32 →
     totTx r = sumOver LbtsMessage.GetTxCount all)
  ∧ (itGlobalFinished it = true
     ↔ Forall (λ m, LbtsMessage.IsFinished m = true) all ∧ totRx r = totTx r).
Proof.
  intros it all r.
  assert (Hgranted : itGranted it
    = MtpInterface_SetSmallestTime (m_smallestTime r) (itGathered it)) by reflexivity.
  assert (Hglobal : itGlobalFinished it = allFinished r && (totRx r =? totTx r))
    by reflexivity.
  assert (Hr : r = reduceLbts (itLbts it)) by reflexivity.
  unfold all. clearbody r it. clear all. subst r.
  destruct (itLbts it) as [m0 rest].
  destruct (reduceLbts_totals (m0, rest)) as [Hrx Htx].
  destruct (reduce_foldl (reduceInit m0) rest) as (Hmem & Hle & Hall & _ & _ & _ & Hfin).
  unfold allRanks, reduceLbts in *. cbn [fst snd] in *.
  cbn [reduceInit m_smallestTime allFinished] in Hmem, Hle, Hfin.
  split; [exact Hgranted |].
  split; [rewrite fmap_cons; destruct Hmem as [-> | Hmem]; [left | by right] |].
  split; [constructor; [exact Hle | exact Hall] |].
  split; [exact Hrx |]. split; [exact Htx |].
  split; [intros Hfit; rewrite Hrx; unfold u32; by apply Z.mod_small |].
  split; [intros Hfit; rewrite Htx; unfold u32; by apply Z.mod_small |].
  rewrite Hglobal, andb_true_iff, Z.eqb_eq, Hfin, andb_true_iff.
  rewrite Forall_cons, forallb_forall, Forall_forall.
  setoid_rewrite <- list_elem_of_In. tauto.
Qed.

Lemma RunIteration_safe (m_myId : Z) (w : W) : safePass m_myId w (RunIteration m_myId w).
Proof.
  unfold safePass. cbv zeta.
  set (gathered := MPI_Allgather (localRecord m_myId (beforeGather w)) (beforeGather w)).
  assert (Hlbts : itLbts (RunIteration m_myId w) = gathered.1) by reflexivity.
  assert (Hred : itReduction (RunIteration m_myId w) = reduceLbts gathered.1) by reflexivity.
  assert (Hgranted : itGranted (RunIteration m_myId w)
            = MtpInterface_SetSmallestTime (m_smallestTime (reduceLbts gathered.1)) gathered.2)
    by reflexivity.
  assert (Hround : itProcessedRound (RunIteration m_myId w)
            = (totRx (reduceLbts gathered.1) =? totTx (reduceLbts gathered.1))
              && negb (MtpInterface_isFinished (itGranted (RunIteration m_myId w))))
    by reflexivity.
  assert (Hworld : itWorld (RunIteration m_myId w)
            = (if itProcessedRound (RunIteration m_myId w)
               then MtpInterface_ProcessOneRound (itGranted (RunIteration m_myId w))
               else itGranted (RunIteration m_myId w))) by reflexivity.
  set (it := RunIteration m_myId w) in *. clearbody it gathered.
  destruct (reduceLbts_totals gathered.1) as [Hrx Htx].
  rewrite Hred, <- Hrx, <- Htx.
  split; [exact Hlbts |]. split; [reflexivity |]. split; [reflexivity |].
  split; [reflexivity |]. split; [exact Hgranted |].
  split; [rewrite Hround, andb_true_iff, Z.eqb_eq, negb_true_iff; tauto |].
  split; [exact Hworld |].
  intros Hne. apply Z.eqb_neq in Hne.
  assert (Hno : itProcessedRound it = false) by (by rewrite Hround, Hne).
  split; [exact Hno | by rewrite Hworld, Hno].
Qed.

(** C2.  The passes of the loop of [Run] follow one another, each starting
    in the world the one before ended in, and in every one of them: the
    record of this rank is handed to [MPI_Allgather], [totRx] and [totTx]
    are the totals of the gathered counters (their sums, in [uint32_t]),
    and [ProcessOneRound] is called, on the world [SetSmallestTime] left,
    if and only if [totRx = totTx] and the local dispatcher is not
    finished; in a pass with [totRx <> totTx] no round is executed and the
    pass ends in the world [SetSmallestTime] left. *)
Theorem Run_round_only_when_safe (m_myId : Z) (n : nat) (w : W) :
  passesFrom m_myId w (RunLoop m_myId n w).
Proof.
  revert w. induction n as [|n IH]; intros w; [exact I |].
  change (RunLoop m_myId (S n) w)
    with (RunIteration m_myId w
            :: (if itGlobalFinished (RunIteration m_myId w) then []
                else RunLoop m_myId n (itWorld (RunIteration m_myId w)))).
  cbn [passesFrom]. split; [apply RunIteration_safe |].
  destruct (itGlobalFinished (RunIteration m_myId w)); [exact I | apply IH].
Qed.

End RunLoop.

(** C3, the claim as stated fails: with two ranks that have each received
    and sent 2^31 messages the sums are 2^32, and the totals of the loop
    are 0. *)
Lemma totRx_is_not_the_sum :
  sumOver LbtsMessage.GetRxCount (allRanks busyRanks) = 2 ^ 32
  ∧ sumOver LbtsMessage.GetTxCount (allRanks busyRanks) = 2 ^ 32
  ∧ totRx (reduceLbts busyRanks) = 0
  ∧ totTx (reduceLbts busyRanks) = 0
  ∧ totRx (reduceLbts busyRanks) ≠ sumOver LbtsMessage.GetRxCount (allRanks busyRanks).
Proof. repeat split. discriminate. Qed.

Lemma Run_reduces_lbts_witness :
  totRx (itReduction (RunIteration (H := ScriptedWorld) 1 transientScript)) = 0
  ∧ totTx (itReduction (RunIteration (H := ScriptedWorld) 1 transientScript)) = 1.
Proof.
  destruct (Run_reduces_lbts (CW := ScriptedWorld) 1 transientScript)
    as (_ & _ & _ & _ & _ & Hrx & Htx & _).
  split; [rewrite Hrx | rewrite Htx]; try reflexivity; vm_compute; split; congruence.
Defined.

(** The scenario of a transient message: in the pass in which the message
    of rank 0 is in flight no round is processed; in the next pass, in
    which rank 1 has received it, one is. *)
Example Run_transient_message :
  (λ it, (totRx (itReduction it), totTx (itReduction it), itProcessedRound it, rounds (itWorld it)))
    <$> RunLoop (H := ScriptedWorld) 1 2 transientScript
  = [(0, 1, false, 0%nat); (1, 1, true, 1%nat)].
Proof. reflexivity. Qed.

(** ** The partitioner *)

(** *** System ids *)

Lemma compositeSystemId_localId (k myId : Z) :
  0 ≤ myId < 2 ^ 16 → 0 ≤ k < 2 ^ 16 →
  localIdOf (compositeSystemId k myId) = k.
Proof.
  intros Hrank Hk. unfold localIdOf, compositeSystemId, u32.
  rewrite Z.shiftr_lor, Z.mod_small.
  - rewrite Z.shiftr_shiftl_l by lia. replace (16 - 16) with 0 by lia.
    rewrite Z.shiftl_0_r, (Z.shiftr_div_pow2 myId) by lia.
    rewrite Z.div_small by lia. apply Z.lor_0_r.
  - rewrite Z.shiftl_mul_pow2 by lia. lia.
Qed.

Lemma compositeSystemId_not_rank (k myId : Z) :
  0 ≤ myId < 2 ^ 16 → 1 ≤ k < 2 ^ 16 →
  compositeSystemId k myId ≠ myId.
Proof.
  intros Hrank Hk Heq.
  pose proof (compositeSystemId_localId k myId Hrank ltac:(lia)) as Hid.
  rewrite Heq in Hid. unfold localIdOf in Hid.
  rewrite Z.shiftr_div_pow2, Z.div_small in Hid by lia. lia.
Qed.

Lemma compositeSystemId_rank (k myId : Z) :
  0 ≤ myId < 2 ^ 16 → 0 ≤ k < 2 ^ 16 →
  rankOf (compositeSystemId k myId) = myId.
Proof.
  intros Hrank Hk. unfold rankOf, compositeSystemId, u32.
  change 0xffff with (Z.ones 16).
  rewrite Z.land_lor_distr_l, !Z.land_ones by lia.
  rewrite (Z.mod_small (k ≪ 16)) by (rewrite Z.shiftl_mul_pow2; lia).
  rewrite Z.shiftl_mul_pow2, Z.mod_mul, (Z.mod_small myId) by lia.
  apply Z.lor_0_l.
Qed.

Lemma rankOf_small (sid : Z) : 0 ≤ sid < 2 ^ 16 → rankOf sid = sid.
Proof.
  intros Hsid. unfold rankOf. change 0xffff with (Z.ones 16).
  rewrite Z.land_ones by lia. by apply Z.mod_small.
Qed.

Section Partitioner.

Variables (myId : Z) (minLookahead : Time) (channels : list Channel).
Hypothesis Hrank : 0 ≤ myId < 2 ^ 16.

(** *** The search never leaves the node it starts from

    The test of line 463 reads the system id of the node just popped, which
    line 435 has just set to a composite id; with a rank below 2^16 and an
    LP index in 1 .. 65535 that id is not the rank, so nothing is pushed. *)

Lemma pushAdjacent_nothing (nodes : list Node) (visited : list bool) (node : nat)
    (q : list nat) (ends : list nat) :
  hasSystemId nodes node myId = false →
  foldl (pushAdjacent myId nodes visited node) q ends = q.
Proof.
  intros Hsid. induction ends as [|remote ends IH]; [reflexivity |].
  cbn [foldl]. unfold pushAdjacent at 2. by rewrite Hsid, andb_false_r.
Qed.

Lemma scanDevice_nothing (nodes : list Node) (visited : list bool) (node : nat)
    (q : list nat) (devs : list NetDevice) :
  hasSystemId nodes node myId = false →
  foldl (scanDevice myId minLookahead channels nodes visited node) q devs = q.
Proof.
  intros Hsid. induction devs as [|dev devs IH]; [reflexivity |].
  cbn [foldl]. unfold scanDevice at 2.
  destruct (channelOf channels dev) as [channel|]; [| exact IH].
  destruct (IsPointToPoint dev && (minLookahead <=? Delay channel)); [exact IH |].
  by rewrite pushAdjacent_nothing.
Qed.

Lemma bfs_single (fuel : nat) (k : Z) (before after : list Node) (node : Node)
    (seen unseen : list bool) (flag : bool) :
  1 ≤ k < 2 ^ 16 →
  length seen = length before →
  bfs (S fuel) myId minLookahead channels k [length before]
    (before ++ node :: after) (seen ++ flag :: unseen)
  = Some ((before ++ [SetSystemId (compositeSystemId k myId) node]) ++ after,
          (seen ++ [true]) ++ unseen).
Proof.
  intros Hk Hlen. cbn [bfs].
  assert (Hnodes : alter (SetSystemId (compositeSystemId k myId)) (length before)
                     (before ++ node :: after)
                   = (before ++ [SetSystemId (compositeSystemId k myId) node]) ++ after).
  { rewrite alter_app_r_alt, Nat.sub_diag by lia. by rewrite <- app_assoc. }
  assert (Hseen : <[length before := true]> (seen ++ flag :: unseen) = (seen ++ [true]) ++ unseen).
  { rewrite <- Hlen, insert_app_r_alt, Nat.sub_diag by lia. by rewrite <- app_assoc. }
  rewrite Hnodes, Hseen, scanDevice_nothing; [by destruct fuel |].
  unfold hasSystemId. rewrite <- app_assoc. cbn [app].
  rewrite list_lookup_middle by reflexivity. cbn [GetSystemId SetSystemId].
  apply Z.eqb_neq. by apply compositeSystemId_not_rank.
Qed.

Lemma localCount_cons (node : Node) (nodes : list Node) :
  localCount myId (node :: nodes)
  = (if GetSystemId node =? myId then 1 else 0) + localCount myId nodes.
Proof.
  unfold localCount. rewrite filter_cons.
  destruct (Z.eqb_spec (GetSystemId node) myId); case_decide; try contradiction;
    cbn [length]; lia.
Qed.

Lemma localCount_nonneg (nodes : list Node) : 0 ≤ localCount myId nodes.
Proof. unfold localCount. lia. Qed.

(** Every node whose system id is the rank opens a logical process of its
    own. *)
Lemma assignLocalSystemIds_labels (fuel : nat) (todo : list Node) :
  ∀ (done : list Node) (seen : list bool) (k : Z),
    length seen = length done →
    0 ≤ k → k + localCount myId todo < 2 ^ 16 →
    assignLocalSystemIds (S fuel) myId minLookahead channels
      (seq (length done) (length todo)) k
      (done ++ todo) (seen ++ replicate (length todo) false)
    = Some (k + localCount myId todo, done ++ labelLocalNodes myId k todo).
Proof.
  induction todo as [|node todo IH]; intros done seen k Hlen Hk Hcount.
  - cbn [length seq assignLocalSystemIds labelLocalNodes]. unfold localCount. cbn.
    by rewrite Z.add_0_r.
  - rewrite localCount_cons in Hcount |- *.
    pose proof (localCount_nonneg todo) as Hnn.
    cbn [length seq replicate assignLocalSystemIds labelLocalNodes].
    assert (Hvis : isVisited (seen ++ false :: replicate (length todo) false) (length done)
                   = false).
    { unfold isVisited. rewrite <- Hlen. by rewrite list_lookup_middle. }
    assert (Hsid : hasSystemId (done ++ node :: todo) (length done) myId
                   = (GetSystemId node =? myId)).
    { unfold hasSystemId. by rewrite list_lookup_middle. }
    rewrite Hvis, Hsid. cbn [negb andb].
    destruct (Z.eqb_spec (GetSystemId node) myId) as [Hlocal | Hremote].
    + assert (Hwrap : u32 (k + 1) = k + 1) by (unfold u32; apply Z.mod_small; lia).
      rewrite Hwrap, bfs_single by lia.
      specialize (IH (done ++ [SetSystemId (compositeSystemId (k + 1) myId) node])
                    (seen ++ [true]) (k + 1)).
      rewrite !length_app in IH. cbn [length] in IH.
      rewrite !Nat.add_1_r in IH. rewrite IH by lia.
      rewrite <- app_assoc. cbn [app]. do 2 f_equal. lia.
    + specialize (IH (done ++ [node]) (seen ++ [false]) k).
      rewrite !length_app in IH. cbn [length] in IH.
      rewrite !Nat.add_1_r, <- !app_assoc in IH. cbn [app] in IH.
      rewrite IH by lia. rewrite Z.add_0_l. reflexivity.
Qed.

(** A node without devices is relabelled and nothing else happens, whatever
    the LP index. *)
Lemma bfs_no_devices (fuel : nat) (k : Z) (before after : list Node) (node : Node)
    (seen unseen : list bool) (flag : bool) :
  devices node = [] →
  length seen = length before →
  bfs (S fuel) myId minLookahead channels k [length before]
    (before ++ node :: after) (seen ++ flag :: unseen)
  = Some ((before ++ [SetSystemId (compositeSystemId k myId) node]) ++ after,
          (seen ++ [true]) ++ unseen).
Proof.
  intros Hdev Hlen. cbn [bfs].
  assert (Hnodes : alter (SetSystemId (compositeSystemId k myId)) (length before)
                     (before ++ node :: after)
                   = (before ++ [SetSystemId (compositeSystemId k myId) node]) ++ after).
  { rewrite alter_app_r_alt, Nat.sub_diag by lia. by rewrite <- app_assoc. }
  assert (Hseen : <[length before := true]> (seen ++ flag :: unseen) = (seen ++ [true]) ++ unseen).
  { rewrite <- Hlen, insert_app_r_alt, Nat.sub_diag by lia. by rewrite <- app_assoc. }
  assert (Hlook : ((before ++ [SetSystemId (compositeSystemId k myId) node]) ++ after)
                    !! length before
                  = Some (SetSystemId (compositeSystemId k myId) node)).
  { rewrite <- app_assoc. cbn [app]. by rewrite list_lookup_middle. }
  rewrite Hnodes, Hseen, Hlook.
  cbn [from_option devices SetSystemId]. rewrite Hdev. cbn [foldl]. by destruct fuel.
Qed.

(** The labelling of a stretch of the node list, with nodes before and
    after it. *)
Lemma assignLocalSystemIds_prefix (fuel : nat) (todo : list Node) :
  ∀ (done rest : list Node) (seen unseen : list bool) (ids : list nat) (k : Z),
    length seen = length done →
    0 ≤ k → k + localCount myId todo < 2 ^ 16 →
    assignLocalSystemIds (S fuel) myId minLookahead channels
      (seq (length done) (length todo) ++ ids) k
      (done ++ todo ++ rest) (seen ++ replicate (length todo) false ++ unseen)
    = assignLocalSystemIds (S fuel) myId minLookahead channels ids
        (k + localCount myId todo)
        (done ++ labelLocalNodes myId k todo ++ rest)
        (seen ++ ((λ node, GetSystemId node =? myId) <$> todo) ++ unseen).
Proof.
  induction todo as [|node todo IH]; intros done rest seen unseen ids k Hlen Hk Hcount.
  - cbn [length seq labelLocalNodes replicate app fmap list_fmap].
    unfold localCount. cbn. by rewrite Z.add_0_r.
  - rewrite localCount_cons in Hcount |- *.
    pose proof (localCount_nonneg todo) as Hnn.
    cbn [length seq replicate app assignLocalSystemIds labelLocalNodes].
    rewrite fmap_cons. cbn [app].
    assert (Hvis : isVisited (seen ++ false :: replicate (length todo) false ++ unseen)
                     (length done) = false).
    { unfold isVisited. rewrite <- Hlen. by rewrite list_lookup_middle. }
    assert (Hsid : hasSystemId (done ++ node :: todo ++ rest) (length done) myId
                   = (GetSystemId node =? myId)).
    { unfold hasSystemId. by rewrite list_lookup_middle. }
    rewrite Hvis, Hsid. cbn [negb andb].
    destruct (Z.eqb_spec (GetSystemId node) myId) as [Hlocal | Hremote].
    + assert (Hwrap : u32 (k + 1) = k + 1) by (unfold u32; apply Z.mod_small; lia).
      rewrite Hwrap, bfs_single by lia.
      specialize (IH (done ++ [SetSystemId (compositeSystemId (k + 1) myId) node]) rest
                    (seen ++ [true]) unseen ids (k + 1)).
      rewrite !length_app in IH. cbn [length] in IH.
      rewrite !Nat.add_1_r in IH. rewrite IH by lia.
      rewrite <- !app_assoc. cbn [app]. f_equal. lia.
    + specialize (IH (done ++ [node]) rest (seen ++ [false]) unseen ids k).
      rewrite !length_app in IH. cbn [length] in IH.
      rewrite !Nat.add_1_r, <- !app_assoc in IH. cbn [app] in IH.
      rewrite IH by lia. rewrite Z.add_0_l. reflexivity.
Qed.

Lemma localCount_replicate (n : nat) (node : Node) :
  GetSystemId node = myId → localCount myId (replicate n node) = Z.of_nat n.
Proof.
  intros Hlocal. induction n as [|n IH]; [reflexivity |].
  cbn [replicate]. rewrite localCount_cons, IH.
  destruct (Z.eqb_spec (GetSystemId node) myId); [lia | contradiction].
Qed.

Lemma labelLocalNodes_lookup (nodes : list Node) :
  ∀ (k : Z) (i : nat) (node : Node),
    0 ≤ k → k + localCount myId nodes < 2 ^ 16 →
    nodes !! i = Some node →
    ∃ node',
      labelLocalNodes myId k nodes !! i = Some node'
      ∧ devices node' = devices node
      ∧ (GetSystemId node = myId →
         k < localIdOf (GetSystemId node') ≤ k + localCount myId nodes
         ∧ rankOf (GetSystemId node') = myId)
      ∧ (GetSystemId node ≠ myId → node' = node).
Proof.
  induction nodes as [|n nodes IH]; intros k i node Hk Hcount Hi; [discriminate |].
  rewrite localCount_cons in Hcount |- *.
  pose proof (localCount_nonneg nodes) as Hnn.
  cbn [labelLocalNodes].
  destruct (Z.eqb_spec (GetSystemId n) myId) as [Hlocal | Hremote].
  - destruct i as [|i]; cbn in Hi.
    + injection Hi as ->. eexists. split; [reflexivity |]. split; [reflexivity |].
      split; [| congruence]. intros _. cbn [GetSystemId SetSystemId].
      rewrite compositeSystemId_localId by lia. split; [lia |].
      apply compositeSystemId_rank; lia.
    + destruct (IH (k + 1) i node ltac:(lia) ltac:(lia) Hi) as (node' & H1 & H2 & H3 & H4).
      exists node'. split; [exact H1 |]. split; [exact H2 |]. split; [| exact H4].
      intros Hl. destruct (H3 Hl). split; [lia | assumption].
  - destruct i as [|i]; cbn in Hi.
    + injection Hi as ->. exists node. repeat split; congruence.
    + destruct (IH k i node Hk ltac:(lia) Hi) as (node' & H1 & H2 & H3 & H4).
      exists node'. split; [exact H1 |]. split; [exact H2 |]. split; [| exact H4].
      intros Hl. destruct (H3 Hl). split; [lia | assumption].
Qed.

Lemma labelLocalNodes_length (nodes : list Node) (k : Z) :
  length (labelLocalNodes myId k nodes) = length nodes.
Proof.
  revert k. induction nodes as [|n nodes IH]; intros k; [reflexivity |].
  cbn [labelLocalNodes]. destruct (GetSystemId n =? myId); cbn [length]; by rewrite IH.
Qed.

Lemma labelLocalNodes_none (nodes : list Node) (k : Z) :
  localCount myId nodes = 0 → labelLocalNodes myId k nodes = nodes.
Proof.
  induction nodes as [|n nodes IH]; [reflexivity |].
  rewrite localCount_cons. pose proof (localCount_nonneg nodes).
  cbn [labelLocalNodes]. destruct (Z.eqb_spec (GetSystemId n) myId); [lia |].
  intros Hc. rewrite IH by lia. reflexivity.
Qed.

Lemma localCount_take_le (nodes : list Node) :
  ∀ a b : nat, (a ≤ b)%nat →
    localCount myId (take a nodes) ≤ localCount myId (take b nodes).
Proof.
  induction nodes as [|n nodes IH]; intros a b Hab.
  - by rewrite !take_nil.
  - destruct a as [|a]; [cbn [take]; apply localCount_nonneg |].
    destruct b as [|b]; [lia |].
    cbn [take]. rewrite !localCount_cons.
    specialize (IH a b ltac:(lia)). lia.
Qed.

Lemma localCount_take_S (nodes : list Node) (i : nat) (node : Node) :
  nodes !! i = Some node → GetSystemId node = myId →
  localCount myId (take (S i) nodes) = localCount myId (take i nodes) + 1.
Proof.
  intros Hi Hlocal. rewrite (take_S_r _ _ _ Hi).
  unfold localCount. rewrite filter_app, length_app, filter_cons, decide_True by assumption.
  cbn [filter list_filter length]. lia.
Qed.

(** The node at index [i], when of this rank, gets the LP index [k] plus
    the number of nodes of this rank up to it. *)
Lemma labelLocalNodes_exact (nodes : list Node) :
  ∀ (k : Z) (i : nat) (node : Node),
    0 ≤ k → k + localCount myId nodes < 2 ^ 16 →
    nodes !! i = Some node → GetSystemId node = myId →
    ∃ node',
      labelLocalNodes myId k nodes !! i = Some node'
      ∧ localIdOf (GetSystemId node') = k + localCount myId (take (S i) nodes).
Proof.
  induction nodes as [|n nodes IH]; intros k i node Hk Hcount Hi Hlocal; [discriminate |].
  rewrite localCount_cons in Hcount.
  pose proof (localCount_nonneg nodes) as Hnn.
  cbn [labelLocalNodes take]. rewrite localCount_cons.
  destruct i as [|i]; cbn in Hi.
  - injection Hi as ->. rewrite take_0.
    destruct (Z.eqb_spec (GetSystemId node) myId); [| contradiction].
    eexists. split; [reflexivity |]. cbn [GetSystemId SetSystemId].
    rewrite compositeSystemId_localId by lia. unfold localCount. cbn. lia.
  - destruct (Z.eqb_spec (GetSystemId n) myId).
    + destruct (IH (k + 1) i node ltac:(lia) ltac:(lia) Hi Hlocal) as (node' & H1 & H2).
      exists node'. split; [exact H1 |]. rewrite H2. lia.
    + destruct (IH k i node Hk ltac:(lia) Hi Hlocal) as (node' & H1 & H2).
      exists node'. split; [exact H1 |]. rewrite H2. lia.
Qed.

End Partitioner.

(** *** Schedulers *)

Lemma event_leb_le (a b : Scheduler.Event) :
  Scheduler.event_leb a b = true ↔ Scheduler.event_le a b.
Proof.
  unfold Scheduler.event_leb, Scheduler.event_le, Scheduler.key_le.
  rewrite orb_true_iff, andb_true_iff, Z.ltb_lt, Z.eqb_eq, Z.leb_le. reflexivity.
Qed.

Lemma event_le_total (a b : Scheduler.Event) :
  Scheduler.event_leb a b = false → Scheduler.event_le b a.
Proof.
  intros Hleb. destruct (Scheduler.event_leb b a) eqn:Hba; [by apply event_leb_le |].
  unfold Scheduler.event_leb in *.
  apply orb_false_iff in Hleb as [H1 H2]. apply orb_false_iff in Hba as [H3 H4].
  apply andb_false_iff in H2, H4. rewrite Z.ltb_ge in H1, H3.
  rewrite Z.eqb_neq, Z.leb_gt in H2, H4.
  unfold Scheduler.event_le, Scheduler.key_le. lia.
Qed.

Lemma event_le_trans (a b c : Scheduler.Event) :
  Scheduler.event_le a b → Scheduler.event_le b c → Scheduler.event_le a c.
Proof. unfold Scheduler.event_le, Scheduler.key_le. lia. Qed.

Lemma list_Insert_Permutation (ev : Scheduler.Event) (s : list Scheduler.Event) :
  Scheduler.list_Insert ev s ≡ₚ ev :: s.
Proof.
  induction s as [|x s IH]; cbn [Scheduler.list_Insert]; [reflexivity |].
  destruct (Scheduler.event_leb x ev); [| reflexivity].
  rewrite IH. apply Permutation_swap.
Qed.

Lemma list_least_spec (s : list Scheduler.Event) :
  ∀ x, x :: s ≡ₚ (Scheduler.list_least x s).1 :: (Scheduler.list_least x s).2
       ∧ Scheduler.event_le (Scheduler.list_least x s).1 x
       ∧ Forall (Scheduler.event_le (Scheduler.list_least x s).1) (Scheduler.list_least x s).2.
Proof.
  induction s as [|y s IH]; intros x; cbn [Scheduler.list_least].
  - cbn [fst snd]. split; [reflexivity |].
    split; [unfold Scheduler.event_le, Scheduler.key_le; lia | constructor].
  - destruct (IH y) as (Hperm & Hy & Hrest).
    destruct (Scheduler.list_least y s) as [m rest]. cbn [fst snd] in *.
    destruct (Scheduler.event_leb x m) eqn:Hxm; cbn [fst snd].
    + apply event_leb_le in Hxm. split; [reflexivity |].
      split; [unfold Scheduler.event_le, Scheduler.key_le; lia |].
      rewrite Hperm. constructor; [exact Hxm |].
      eapply Forall_impl; [exact Hrest |]. intros z Hz. by eapply event_le_trans.
    + apply event_le_total in Hxm.
      split; [rewrite Hperm; apply Permutation_swap |].
      split; [exact Hxm |]. constructor; [exact Hxm | exact Hrest].
Qed.

(** The list scheduler keeps the contract. *)
Lemma ListScheduler_lawful : @Scheduler.Lawful (list Scheduler.Event) Scheduler.ListScheduler.
Proof.
  split.
  - reflexivity.
  - intros ev s. apply list_Insert_Permutation.
  - intros [|x s]; cbn; split; intros Heq; (reflexivity || discriminate Heq).
  - intros [|x s] Hne; [exfalso; by apply Hne |].
    destruct (list_least_spec s x) as (Hperm & _ & Hrest).
    exists (Scheduler.list_least x s).1, (Scheduler.list_least x s).2.
    split; [cbn; by destruct (Scheduler.list_least x s) |].
    split; [exact Hperm | exact Hrest].
Qed.

(** *** What the search may change *)
Section PartitionerFrame.

Variables (myId : Z) (minLookahead : Time) (channels : list Channel).

Lemma relabelled_refl (nodes : list Node) : Forall2 (relabelled myId) nodes nodes.
Proof. apply Forall2_same_length_lookup_2; [reflexivity |]. intros i x y Hx Hy.
  assert (x = y) as -> by congruence. split; [reflexivity | by left]. Qed.

Lemma relabelled_trans (a b c : list Node) :
  Forall2 (relabelled myId) a b → Forall2 (relabelled myId) b c →
  Forall2 (relabelled myId) a c.
Proof.
  intros Hab. revert c. induction Hab as [|x y a b [Hd Hs] Hab IH]; intros c Hbc.
  - inversion Hbc. constructor.
  - inversion Hbc as [|y' z b' c' [Hd' Hs'] Hbc']; subst. constructor; [| by apply IH].
    split; [congruence |].
    destruct Hs' as [Hs' | [k Hk]]; [| right; by exists k].
    rewrite Hs'. exact Hs.
Qed.

Lemma relabelled_alter (k : Z) (i : nat) (nodes : list Node) :
  Forall2 (relabelled myId) nodes (alter (SetSystemId (compositeSystemId k myId)) i nodes).
Proof.
  revert i. induction nodes as [|n nodes IH]; intros i; [constructor |].
  destruct i as [|i]; cbn.
  - constructor; [| apply relabelled_refl]. split; [reflexivity |]. right. by exists k.
  - constructor; [| apply IH]. split; [reflexivity | by left].
Qed.

Lemma bfs_relabels (fuel : nat) (k : Z) :
  ∀ (q : list nat) (nodes : list Node) (visited : list bool) nodes' visited',
    bfs fuel myId minLookahead channels k q nodes visited = Some (nodes', visited') →
    Forall2 (relabelled myId) nodes nodes'.
Proof.
  induction fuel as [|fuel IH]; intros q nodes visited nodes' visited'; cbn [bfs];
    destruct q as [|node q]; try discriminate.
  - intros [= <- <-]. apply relabelled_refl.
  - intros [= <- <-]. apply relabelled_refl.
  - intros Hrun. apply IH in Hrun.
    eapply relabelled_trans; [apply relabelled_alter | exact Hrun].
Qed.

Lemma assignLocalSystemIds_relabels (fuel : nat) (ids : list nat) :
  ∀ (k : Z) (nodes : list Node) (visited : list bool) k' nodes',
    assignLocalSystemIds fuel myId minLookahead channels ids k nodes visited
      = Some (k', nodes') →
    Forall2 (relabelled myId) nodes nodes'.
Proof.
  induction ids as [|it ids IH]; intros k nodes visited k' nodes'; cbn [assignLocalSystemIds].
  - intros [= <- <-]. apply relabelled_refl.
  - destruct (negb (isVisited visited it) && hasSystemId nodes it myId).
    + destruct (bfs fuel myId minLookahead channels (u32 (k + 1)) [it] nodes visited)
        as [[nodes1 visited1]|] eqn:Hbfs; [| discriminate].
      intros Hrun. apply IH in Hrun. apply bfs_relabels in Hbfs.
      by eapply relabelled_trans.
    + apply IH.
Qed.

Lemma assignLocalSystemIds_none_local (fuel : nat) (nodes : list Node) (ids : list nat) :
  (∀ i, hasSystemId nodes i myId = false) →
  ∀ (k : Z) (visited : list bool),
    assignLocalSystemIds fuel myId minLookahead channels ids k nodes visited
    = Some (k, nodes).
Proof.
  intros Hnone. induction ids as [|it ids IH]; intros k visited; cbn [assignLocalSystemIds];
    [reflexivity |].
  by rewrite Hnone, andb_false_r.
Qed.

Lemma localCount_zero (nodes : list Node) :
  localCount myId nodes = 0 → ∀ i, hasSystemId nodes i myId = false.
Proof.
  induction nodes as [|n nodes IH]; intros Hc i; [reflexivity |].
  rewrite localCount_cons in Hc. pose proof (localCount_nonneg myId nodes).
  destruct (Z.eqb_spec (GetSystemId n) myId) as [| Hne]; [lia |].
  destruct i as [|i]; cbn.
  - by apply Z.eqb_neq.
  - apply IH. lia.
Qed.

End PartitionerFrame.

Section Migration.

Context {S : Type} `{SO : Scheduler.Ops S}.
Hypothesis Hlawful : Scheduler.Lawful S.

Lemma IsEmpty_false (s : S) :
  Scheduler.contents s ≠ [] → Scheduler.IsEmpty s = false.
Proof.
  intros Hne. destruct (Scheduler.IsEmpty s) eqn:Hempty; [| reflexivity].
  apply (Scheduler.IsEmpty_contents S Hlawful) in Hempty. contradiction.
Qed.

Lemma removeOldEvents_drains (n : nat) :
  ∀ (oldEvents eventsToBeTransferred : S),
    length (Scheduler.contents oldEvents) = n →
    Scheduler.contents (removeOldEvents n oldEvents eventsToBeTransferred).1 = []
    ∧ Scheduler.contents (removeOldEvents n oldEvents eventsToBeTransferred).2
      ≡ₚ Scheduler.contents oldEvents ++ Scheduler.contents eventsToBeTransferred.
Proof.
  induction n as [|n IH]; intros old new Hlen; cbn [removeOldEvents].
  - apply nil_length_inv in Hlen. cbn [fst snd]. by rewrite Hlen.
  - assert (Hne : Scheduler.contents old ≠ []) by (intros Heq; by rewrite Heq in Hlen).
    rewrite (IsEmpty_false _ Hne).
    destruct (Scheduler.RemoveNext_contents S Hlawful old Hne) as (ev & old' & -> & Hperm & _).
    assert (Hlen' : length (Scheduler.contents old') = n).
    { rewrite Hperm in Hlen. cbn in Hlen. lia. }
    destruct (IH old' (Scheduler.Insert ev new) Hlen') as [Hempty Hnew].
    split; [exact Hempty |].
    rewrite Hnew, (Scheduler.contents_Insert S Hlawful), Hperm.
    cbn [app]. by rewrite Permutation_middle.
Qed.

Lemma IsEmpty_true (s : S) :
  Scheduler.contents s = [] → Scheduler.IsEmpty s = true.
Proof. apply (Scheduler.IsEmpty_contents S Hlawful). Qed.

Lemma transferEvents_ordered (mtp : MtpInterface.State) (nodes : list Node) (n : nat) :
  ∀ (s : S) (calls : list (Scheduler.Event * MtpInterface.LpCall)),
    length (Scheduler.contents s) = n →
    transferEvents n mtp nodes s = Some calls →
    calls.*1 ≡ₚ Scheduler.contents s
    ∧ StronglySorted Scheduler.event_le calls.*1
    ∧ Forall (λ p, transferEvent mtp nodes p.1 = Some p.2) calls.
Proof.
  induction n as [|n IH]; intros s calls Hlen; cbn [transferEvents].
  - apply nil_length_inv in Hlen. rewrite (IsEmpty_true _ Hlen), Hlen.
    intros [= <-]. repeat split; constructor.
  - assert (Hne : Scheduler.contents s ≠ []) by (intros Heq; by rewrite Heq in Hlen).
    rewrite (IsEmpty_false _ Hne).
    destruct (Scheduler.RemoveNext_contents S Hlawful s Hne) as (ev & s' & -> & Hperm & Hleast).
    assert (Hlen' : length (Scheduler.contents s') = n).
    { rewrite Hperm in Hlen. cbn in Hlen. lia. }
    destruct (transferEvent mtp nodes ev) as [call|] eqn:Hcall; [| discriminate].
    destruct (transferEvents n mtp nodes s') as [rest|] eqn:Hrest; [| discriminate].
    cbn. intros [= <-].
    destruct (IH s' rest Hlen' Hrest) as (Hevents & Hsorted & Hcalls).
    rewrite fmap_cons. cbn [fst].
    split; [by rewrite Hevents, Hperm |].
    split; [constructor; [exact Hsorted | by rewrite Hevents] |].
    constructor; [exact Hcall | exact Hcalls].
Qed.

Lemma transferEvents_returns (mtp : MtpInterface.State) (nodes : list Node) (n : nat) :
  ∀ s : S,
    length (Scheduler.contents s) = n →
    Forall (λ ev, is_Some (transferEvent mtp nodes ev)) (Scheduler.contents s) →
    is_Some (transferEvents n mtp nodes s).
Proof.
  induction n as [|n IH]; intros s Hlen Hok; cbn [transferEvents].
  - apply nil_length_inv in Hlen. by rewrite (IsEmpty_true _ Hlen).
  - assert (Hne : Scheduler.contents s ≠ []) by (intros Heq; by rewrite Heq in Hlen).
    rewrite (IsEmpty_false _ Hne).
    destruct (Scheduler.RemoveNext_contents S Hlawful s Hne) as (ev & s' & -> & Hperm & _).
    assert (Hlen' : length (Scheduler.contents s') = n).
    { rewrite Hperm in Hlen. cbn in Hlen. lia. }
    rewrite Hperm in Hok. apply Forall_cons in Hok as [[call Hcall] Hok].
    destruct (IH s' Hlen' Hok) as [rest Hrest].
    rewrite Hcall, Hrest. by eexists.
Qed.


End Migration.

(** *** What Partition returns *)

Lemma newVisited_length (nodes : list Node) :
  nodes ≠ [] → newVisited (length nodes) = Some (replicate (length nodes) false).
Proof. by destruct nodes. Qed.

(** A returning [Partition], taken apart. *)
Lemma Partition_inv {S : Type} `{SO : Scheduler.Ops S} (fuel : nat) (this : Members)
    (mtp : MtpInterface.State) (nodes : list Node) (channels : list Channel) (oldEvents : S)
    (r : Partitioned S) :
  Partition fuel this mtp nodes channels oldEvents = Some r →
  nodes ≠ []
  ∧ ∃ count,
      assignLocalSystemIds fuel (m_myId this) (autoLookahead this nodes channels) channels
        (seq 0 (length nodes)) 0 nodes (replicate (length nodes) false)
      = Some (count, partNodes r)
      ∧ partMinLookahead r = autoLookahead this nodes channels
      ∧ partMtp r = MtpInterface.EnableNew (Z.min (m_maxThreads this) count) count mtp
      ∧ partSchedulerSet r = seqZ 1 count
      ∧ partPublicEvents r
        = (removeOldEvents (length (Scheduler.contents oldEvents)) oldEvents
             Scheduler.Create).1
      ∧ transferEvents
          (length (Scheduler.contents
             (removeOldEvents (length (Scheduler.contents oldEvents)) oldEvents
                Scheduler.Create).2))
          (partMtp r) (partNodes r)
          (removeOldEvents (length (Scheduler.contents oldEvents)) oldEvents Scheduler.Create).2
        = Some (partTransferred r).
Proof.
  intros Hr.
  assert (Hne : nodes ≠ []).
  { intros ->. unfold Partition in Hr. cbn [length newVisited] in Hr. discriminate Hr. }
  split; [exact Hne |]. revert Hr. unfold Partition.
  rewrite (newVisited_length nodes Hne).
  destruct (assignLocalSystemIds _ _ _ _ _ _ _ _) as [[count nodes']|]; [| discriminate].
  destruct (removeOldEvents _ _ _) as [old' new']. cbn [fst snd].
  destruct (transferEvents _ _ _ _) as [calls|] eqn:Hcalls; [| discriminate].
  intros [= <-]. cbn [partNodes partMinLookahead partMtp partSchedulerSet partPublicEvents
                       partTransferred].
  exists count. by repeat split.
Qed.

(** [Partition] returns when its parts do. *)
Lemma Partition_intro {S : Type} `{SO : Scheduler.Ops S} (fuel : nat) (this : Members)
    (mtp : MtpInterface.State) (nodes nodes' : list Node) (channels : list Channel)
    (oldEvents : S) (count : Z) (calls : list (Scheduler.Event * MtpInterface.LpCall)) :
  nodes ≠ [] →
  assignLocalSystemIds fuel (m_myId this) (autoLookahead this nodes channels) channels
    (seq 0 (length nodes)) 0 nodes (replicate (length nodes) false)
  = Some (count, nodes') →
  transferEvents
    (length (Scheduler.contents
       (removeOldEvents (length (Scheduler.contents oldEvents)) oldEvents Scheduler.Create).2))
    (MtpInterface.EnableNew (Z.min (m_maxThreads this) count) count mtp) nodes'
    (removeOldEvents (length (Scheduler.contents oldEvents)) oldEvents Scheduler.Create).2
  = Some calls →
  Partition fuel this mtp nodes channels oldEvents
  = Some (mkPartitioned nodes' (autoLookahead this nodes channels)
            (MtpInterface.EnableNew (Z.min (m_maxThreads this) count) count mtp)
            (seqZ 1 count)
            (removeOldEvents (length (Scheduler.contents oldEvents)) oldEvents
               Scheduler.Create).1
            calls).
Proof.
  intros Hne Hassign Hcalls. unfold Partition.
  rewrite (newVisited_length nodes Hne), Hassign.
  destruct (removeOldEvents _ _ _) as [old' new']. cbn [fst snd] in *.
  by rewrite Hcalls.
Qed.

(** On an empty node list the allocation of line 374 throws, before any
    node is labelled and any event moved. *)
Lemma Partition_empty {S : Type} `{SO : Scheduler.Ops S} (fuel : nat) (this : Members)
    (mtp : MtpInterface.State) (channels : list Channel) (oldEvents : S) :
  Partition fuel this mtp [] channels oldEvents = None.
Proof. reflexivity. Qed.

(** The labels and the number of logical processes, on a rank below 2^16
    with fewer than 65536 nodes of the rank. *)
Lemma Partition_result {S : Type} `{SO : Scheduler.Ops S} (fuel : nat) (this : Members)
    (mtp : MtpInterface.State) (nodes : list Node) (channels : list Channel) (oldEvents : S)
    (r : Partitioned S) :
  0 ≤ m_myId this < 2 ^ 16 →
  localCount (m_myId this) nodes < 2 ^ 16 →
  Partition (Datatypes.S fuel) this mtp nodes channels oldEvents = Some r →
  partNodes r = labelLocalNodes (m_myId this) 0 nodes
  ∧ partMinLookahead r = autoLookahead this nodes channels
  ∧ partMtp r
    = MtpInterface.EnableNew
        (Z.min (m_maxThreads this) (localCount (m_myId this) nodes))
        (localCount (m_myId this) nodes) mtp
  ∧ partSchedulerSet r = seqZ 1 (localCount (m_myId this) nodes).
Proof.
  intros Hrank Hcount Hr.
  destruct (Partition_inv _ _ _ _ _ _ _ Hr) as (_ & count & Hassign & Hlook & Hmtp & Hset & _).
  pose proof (assignLocalSystemIds_labels (m_myId this) (autoLookahead this nodes channels)
                channels Hrank fuel nodes [] [] 0 eq_refl ltac:(lia) ltac:(lia)) as Hlabels.
  cbn [length app] in Hlabels. rewrite Hlabels, Z.add_0_l in Hassign.
  injection Hassign as <- <-. by repeat split.
Qed.

Lemma GetNode_known (nodes : list Node) (context : Z) :
  0 ≤ context < Z.of_nat (length nodes) → is_Some (GetNode nodes context).
Proof.
  intros Hctx. unfold GetNode. rewrite decide_True by lia.
  apply lookup_lt_is_Some_2. lia.
Qed.

Lemma GetNode_unknown (nodes : list Node) (context : Z) :
  ¬ (0 ≤ context < Z.of_nat (length nodes)) → GetNode nodes context = None.
Proof.
  intros Hctx. unfold GetNode. case_decide; [| reflexivity].
  apply lookup_ge_None_2. lia.
Qed.

Lemma transferEvent_known (mtp : MtpInterface.State) (nodes nodes' : list Node)
    (ev : Scheduler.Event) :
  length nodes' = length nodes →
  contextKnown nodes ev → is_Some (transferEvent mtp nodes' ev).
Proof.
  intros Hlen Hctx. unfold transferEvent, ScheduleWithContext, systemIdOfContext.
  destruct (Z.eqb_spec (Scheduler.m_context (Scheduler.key ev)) NO_CONTEXT) as [| Hne].
  - by destruct (_ =? 0).
  - destruct Hctx as [| Hctx]; [contradiction |]. rewrite <- Hlen in Hctx.
    destruct (GetNode_known nodes' _ Hctx) as [node ->].
    destruct (_ =? 0); [by eexists |]. destruct (_ =? 1); by eexists.
Qed.

(** [Partition] returns on a node list that is not empty, on a rank below
    2^16 with fewer than 65536 nodes of the rank, when the scheduler keeps
    its contract and every pending event has a context that is
    [NO_CONTEXT] or names a node. *)
Lemma Partition_returns {S : Type} `{SO : Scheduler.Ops S} (fuel : nat) (this : Members)
    (mtp : MtpInterface.State) (nodes : list Node) (channels : list Channel) (oldEvents : S) :
  Scheduler.Lawful S →
  0 ≤ m_myId this < 2 ^ 16 →
  localCount (m_myId this) nodes < 2 ^ 16 →
  nodes ≠ [] →
  Forall (contextKnown nodes) (Scheduler.contents oldEvents) →
  ∃ r, Partition (Datatypes.S fuel) this mtp nodes channels oldEvents = Some r.
Proof.
  intros Hlawful Hrank Hcount Hne Hctx.
  pose proof (assignLocalSystemIds_labels (m_myId this) (autoLookahead this nodes channels)
                channels Hrank fuel nodes [] [] 0 eq_refl ltac:(lia) ltac:(lia)) as Hlabels.
  cbn [length app] in Hlabels.
  destruct (removeOldEvents_drains Hlawful _ oldEvents Scheduler.Create eq_refl)
    as [_ Hmoved].
  rewrite (Scheduler.contents_Create S Hlawful), app_nil_r in Hmoved.
  set (moved := (removeOldEvents (length (Scheduler.contents oldEvents)) oldEvents
                   Scheduler.Create).2) in *.
  destruct (transferEvents_returns Hlawful
              (MtpInterface.EnableNew
                 (Z.min (m_maxThreads this) (0 + localCount (m_myId this) nodes))
                 (0 + localCount (m_myId this) nodes) mtp)
              (labelLocalNodes (m_myId this) 0 nodes)
              (length (Scheduler.contents moved)) moved eq_refl) as [calls Hcalls].
  { rewrite Hmoved. eapply Forall_impl; [exact Hctx |].
    intros ev Hev. apply (transferEvent_known _ nodes); [| exact Hev].
    apply labelLocalNodes_length. }
  eexists. by apply (Partition_intro _ _ _ _ _ _ _ _ _ Hne Hlabels Hcalls).
Qed.

(** On a rank that owns no node, a returning [Partition] has relabelled
    nothing and made no logical process. *)
Lemma Partition_without_local_nodes {S : Type} `{SO : Scheduler.Ops S} (fuel : nat)
    (this : Members) (mtp : MtpInterface.State) (nodes : list Node)
    (channels : list Channel) (oldEvents : S) (r : Partitioned S) :
  localCount (m_myId this) nodes = 0 →
  Partition fuel this mtp nodes channels oldEvents = Some r →
  partNodes r = nodes
  ∧ partMtp r = MtpInterface.EnableNew (Z.min (m_maxThreads this) 0) 0 mtp
  ∧ partSchedulerSet r = [].
Proof.
  intros Hnone Hr.
  destruct (Partition_inv _ _ _ _ _ _ _ Hr) as (_ & count & Hassign & _ & Hmtp & Hset & _).
  rewrite assignLocalSystemIds_none_local in Hassign by (by apply localCount_zero).
  injection Hassign as <- <-. by repeat split.
Qed.

Lemma Partition_returns_without_local_nodes {S : Type} `{SO : Scheduler.Ops S} (fuel : nat)
    (this : Members) (mtp : MtpInterface.State) (nodes : list Node)
    (channels : list Channel) (oldEvents : S) :
  Scheduler.Lawful S →
  localCount (m_myId this) nodes = 0 →
  nodes ≠ [] →
  Forall (contextKnown nodes) (Scheduler.contents oldEvents) →
  ∃ r, Partition fuel this mtp nodes channels oldEvents = Some r.
Proof.
  intros Hlawful Hnone Hne Hctx.
  destruct (removeOldEvents_drains Hlawful _ oldEvents Scheduler.Create eq_refl)
    as [_ Hmoved].
  rewrite (Scheduler.contents_Create S Hlawful), app_nil_r in Hmoved.
  set (moved := (removeOldEvents (length (Scheduler.contents oldEvents)) oldEvents
                   Scheduler.Create).2) in *.
  destruct (transferEvents_returns Hlawful
              (MtpInterface.EnableNew (Z.min (m_maxThreads this) 0) 0 mtp) nodes
              (length (Scheduler.contents moved)) moved eq_refl) as [calls Hcalls].
  { rewrite Hmoved. eapply Forall_impl; [exact Hctx |].
    intros ev Hev. by apply (transferEvent_known _ nodes). }
  eexists. apply (Partition_intro fuel this mtp nodes nodes channels oldEvents 0 calls Hne);
    [| exact Hcalls].
  apply assignLocalSystemIds_none_local. by apply localCount_zero.
Qed.

Lemma localCount_foreign (myId : Z) (nodes : list Node) :
  Forall (λ node, 0 ≤ GetSystemId node < 2 ^ 16) nodes →
  ¬ (0 ≤ myId < 2 ^ 16) →
  localCount myId nodes = 0.
Proof.
  intros Hfresh Hrank. induction Hfresh as [|node nodes Hnode _ IH]; [reflexivity |].
  rewrite localCount_cons, IH.
  destruct (Z.eqb_spec (GetSystemId node) myId); [lia | reflexivity].
Qed.

(** C5, as amended.  With fewer than 65536 nodes whose system id is the
    rank of this process: when all nodes enter with a bare rank as system
    id (a value below 2^16, LP index 0, as they are created), after
    [Partition] returns the node list has its length, the nodes of this
    rank have an LP index in 1 .. numLPs, numLPs being the count given to
    [EnableNew], and the system ids of the nodes of other ranks are
    unchanged; and [Partition] does return, on a node list that is not
    empty, when the scheduler keeps its contract and the contexts of the
    pending events name nodes.  Without the assumption on the system ids
    entering, on a rank below 2^16: every node that entered with the rank
    as its system id has an LP index in 1 .. numLPs and still carries the
    rank, and every other node is as it was, devices included. *)
Theorem Partition_covers_local_nodes {S : Type} `{SO : Scheduler.Ops S} (fuel : nat)
    (this : Members) (mtp : MtpInterface.State) (nodes : list Node)
    (channels : list Channel) (oldEvents : S) :
  localCount (m_myId this) nodes < 2 ^ 16 →
  (Forall (λ node, 0 ≤ GetSystemId node < 2 ^ 16) nodes →
   (∀ r, Partition (Datatypes.S fuel) this mtp nodes channels oldEvents = Some r →
      length (partNodes r) = length nodes
      ∧ MtpInterface.systemCount (partMtp r) = localCount (m_myId this) nodes
      ∧ coversLocalNodes (m_myId this) nodes (MtpInterface.systemCount (partMtp r))
          (partNodes r))
   ∧ (Scheduler.Lawful S → nodes ≠ [] →
      Forall (contextKnown nodes) (Scheduler.contents oldEvents) →
      ∃ r, Partition (Datatypes.S fuel) this mtp nodes channels oldEvents = Some r))
  ∧ (0 ≤ m_myId this < 2 ^ 16 →
     ∀ r, Partition (Datatypes.S fuel) this mtp nodes channels oldEvents = Some r →
       ∀ i node, nodes !! i = Some node →
         ∃ node',
           partNodes r !! i = Some node'
           ∧ devices node' = devices node
           ∧ (GetSystemId node = m_myId this →
              1 ≤ localIdOf (GetSystemId node') ≤ MtpInterface.systemCount (partMtp r)
              ∧ rankOf (GetSystemId node') = m_myId this)
           ∧ (GetSystemId node ≠ m_myId this → node' = node)).
Proof.
  intros Hcount.
  assert (Hlookup : 0 ≤ m_myId this < 2 ^ 16 →
            ∀ r, Partition (Datatypes.S fuel) this mtp nodes channels oldEvents = Some r →
              ∀ i node, nodes !! i = Some node →
                ∃ node', partNodes r !! i = Some node'
                  ∧ devices node' = devices node
                  ∧ (GetSystemId node = m_myId this →
                     1 ≤ localIdOf (GetSystemId node') ≤ MtpInterface.systemCount (partMtp r)
                     ∧ rankOf (GetSystemId node') = m_myId this)
                  ∧ (GetSystemId node ≠ m_myId this → node' = node)).
  { intros Hrank r Hr i node Hi.
    destruct (Partition_result fuel this mtp nodes channels oldEvents r Hrank Hcount Hr)
      as (Hnodes & _ & Hmtp & _).
    destruct (labelLocalNodes_lookup (m_myId this) Hrank nodes 0 i node
                ltac:(lia) ltac:(lia) Hi) as (node' & H1 & H2 & H3 & H4).
    exists node'. rewrite Hnodes, Hmtp.
    cbn [MtpInterface.EnableNew MtpInterface.systemCount].
    split; [exact H1 |]. split; [exact H2 |]. split; [| exact H4].
    intros Hlocal. destruct (H3 Hlocal) as [Hid Hrk]. split; [lia | exact Hrk]. }
  split; [| exact Hlookup].
  intros Hfresh.
  destruct (decide (0 ≤ m_myId this < 2 ^ 16)) as [Hrank | Hrank].
  - split.
    + intros r Hr.
      destruct (Partition_result fuel this mtp nodes channels oldEvents r Hrank Hcount Hr)
        as (Hnodes & _ & Hmtp & _).
      split; [rewrite Hnodes; apply labelLocalNodes_length |].
      split; [by rewrite Hmtp |].
      intros i node Hi.
      destruct (Hlookup Hrank r Hr i node Hi) as (node' & H1 & _ & Hlocal & Hremote).
      exists node'. split; [exact H1 |].
      pose proof (Forall_lookup_1 _ _ _ _ Hfresh Hi) as Hsmall. cbn beta in Hsmall.
      rewrite (rankOf_small _ Hsmall). split.
      * intros Heq. by destruct (Hlocal Heq).
      * intros Hneq. by rewrite (Hremote Hneq).
    + intros Hlawful Hne Hctx. by apply Partition_returns.
  - pose proof (localCount_foreign (m_myId this) nodes Hfresh Hrank) as Hnone.
    split.
    + intros r Hr.
      destruct (Partition_without_local_nodes _ this mtp nodes channels oldEvents r Hnone Hr)
        as (Hnodes & Hmtp & _).
      split; [by rewrite Hnodes |]. split; [by rewrite Hmtp, Hnone |].
      intros i node Hi. exists node. rewrite Hnodes. split; [exact Hi |].
      pose proof (Forall_lookup_1 _ _ _ _ Hfresh Hi) as Hsmall. cbn beta in Hsmall.
      rewrite (rankOf_small _ Hsmall). split; [| reflexivity].
      intros Heq. exfalso. apply Hrank. by rewrite <- Heq.
    + intros Hlawful Hne Hctx. by apply Partition_returns_without_local_nodes.
Qed.

(** *** Event migration *)

Lemma GetSize_one (threads systems : Z) (mtp : MtpInterface.State) :
  0 ≤ systems < 2 ^ 16 →
  (MtpInterface.GetSize (MtpInterface.EnableNew threads systems mtp) =? 1) = (systems =? 0).
Proof.
  intros Hs. unfold MtpInterface.GetSize, MtpInterface.EnableNew, u32.
  cbn [MtpInterface.systemCount]. rewrite Z.mod_small by lia.
  destruct (Z.eqb_spec (systems + 1) 1), (Z.eqb_spec systems 0); lia || reflexivity.
Qed.



(** With 65535 nodes of rank 0 before it, a node of rank 0 without devices
    opens the logical process 65536 and is given the system id
    [65536 << 16 | 0], which is 0 in [uint32_t]: it keeps the system id it
    had. *)
Lemma assignLocalSystemIds_overflow (minLookahead : Time) (channels : list Channel) (n : nat) :
  Z.of_nat n = 65535 →
  assignLocalSystemIds 1 0 minLookahead channels
    (seq 0 (length (replicate n (mkNode 0 []) ++ [mkNode 0 []]))) 0
    (replicate n (mkNode 0 []) ++ [mkNode 0 []])
    (replicate (length (replicate n (mkNode 0 []) ++ [mkNode 0 []])) false)
  = Some (65536, labelLocalNodes 0 0 (replicate n (mkNode 0 [])) ++ [mkNode 0 []]).
Proof.
  intros Hn. set (node := mkNode 0 []). set (todo := replicate n node).
  assert (Hlen : length todo = n) by apply length_replicate.
  assert (Hcount : localCount 0 todo = 65535).
  { unfold todo. rewrite localCount_replicate by reflexivity. exact Hn. }
  rewrite length_app, Hlen. cbn [length].
  rewrite seq_app, replicate_add. cbn [seq replicate Nat.add].
  pose proof (assignLocalSystemIds_prefix 0 minLookahead channels ltac:(lia) 0 todo
                [] [node] [] [false] [n] 0 eq_refl ltac:(lia) ltac:(lia)) as Hprefix.
  rewrite Hlen in Hprefix. cbn [length app] in Hprefix.
  rewrite Hprefix, Hcount. clear Hprefix.
  set (labelled := labelLocalNodes 0 0 todo).
  set (flags := (λ node0 : Node, GetSystemId node0 =? 0) <$> todo).
  assert (Hlabelled : length labelled = n).
  { unfold labelled. by rewrite labelLocalNodes_length. }
  assert (Hflags : length flags = n) by (unfold flags; by rewrite length_fmap).
  cbn [assignLocalSystemIds].
  assert (Hvis : isVisited (flags ++ [false]) n = false).
  { unfold isVisited. rewrite <- Hflags. by rewrite list_lookup_middle. }
  assert (Hsid : hasSystemId (labelled ++ [node]) n 0 = true).
  { unfold hasSystemId. rewrite <- Hlabelled. by rewrite list_lookup_middle. }
  rewrite Hvis, Hsid. cbn [negb andb].
  change (u32 (0 + 65535 + 1)) with 65536.
  rewrite <- Hlabelled at 1.
  rewrite (bfs_no_devices 0 minLookahead channels 0 65536 labelled [] node flags [] false
             eq_refl ltac:(lia)).
  by rewrite app_nil_r.
Qed.

Lemma Partition_covers_local_nodes_witness :
  ∃ r,
    Partition (H := Scheduler.ListScheduler) 1 (mkMembers 0 8 (ms 2)) (MtpInterface.Enable 1 0)
      borderNodes borderChannels pendingEvents = Some r
    ∧ length (partNodes r) = length borderNodes
    ∧ MtpInterface.systemCount (partMtp r) = 2
    ∧ coversLocalNodes 0 borderNodes (MtpInterface.systemCount (partMtp r)) (partNodes r).
Proof.
  destruct (Partition_covers_local_nodes (SO := Scheduler.ListScheduler) 0
              (mkMembers 0 8 (ms 2)) (MtpInterface.Enable 1 0) borderNodes borderChannels
              pendingEvents) as [Hfresh _].
  - vm_compute. reflexivity.
  - destruct Hfresh as [Hcover Hreturns].
    + repeat constructor; cbn; lia.
    + destruct Hreturns as [r Hr].
      * exact ListScheduler_lawful.
      * discriminate.
      * cbn. unfold pendingEvents, contextKnown.
        repeat (apply List.Forall_cons; [first [left; reflexivity | right; cbn; lia] |]).
        apply List.Forall_nil.
      * destruct (Hcover r Hr) as (Hlen & Hcount & Hcovers).
        exists r. split; [exact Hr |]. split; [exact Hlen |].
        split; [rewrite Hcount; reflexivity | exact Hcovers].
Defined.

(** C5, the claim as stated fails.  With 65536 nodes of rank 0 the last one
    ends with the system id 0, that is, with the LP index 0, which is not
    in 1 .. 65536: the LP index [65536] does not fit the upper 16 bits and
    nothing checks for it.  And a node that enters with an LP index
    already in its system id (here 1, on rank 0, as a first run of
    [Partition] leaves it) is not relabelled, while the number of logical
    processes is counted anew, here as 0. *)
Lemma Partition_does_not_cover :
  (∃ r,
     Partition (H := Scheduler.ListScheduler) 1 (mkMembers 0 8 (ms 1))
       (MtpInterface.Enable 1 0) manyLocalNodes [] [] = Some r
     ∧ MtpInterface.systemCount (partMtp r) = 65536
     ∧ (GetSystemId <$> partNodes r) !! Z.to_nat 65535 = Some 0
     ∧ ¬ coversLocalNodes 0 manyLocalNodes (MtpInterface.systemCount (partMtp r))
           (partNodes r))
  ∧ (∃ r,
       Partition (H := Scheduler.ListScheduler) 1 (mkMembers 0 8 (ms 1))
         (MtpInterface.Enable 1 0) [mkNode 0x10000 []] [] [] = Some r
       ∧ MtpInterface.systemCount (partMtp r) = 0
       ∧ partNodes r = [mkNode 0x10000 []]
       ∧ ¬ coversLocalNodes 0 [mkNode 0x10000 []] (MtpInterface.systemCount (partMtp r))
             (partNodes r)).
Proof.
  split.
  - pose proof (assignLocalSystemIds_overflow
                  (autoLookahead (mkMembers 0 8 (ms 1)) manyLocalNodes []) []
                  (Z.to_nat 65535) ltac:(lia)) as Hassign.
    fold manyLocalNodes in Hassign.
    eexists. split.
    { eapply (Partition_intro (SO := Scheduler.ListScheduler) 1 (mkMembers 0 8 (ms 1))
                (MtpInterface.Enable 1 0) manyLocalNodes).
      - unfold manyLocalNodes. intros Heq. by apply app_eq_nil in Heq as [_ Heq].
      - exact Hassign.
      - reflexivity. }
    cbn [partMtp partNodes MtpInterface.EnableNew MtpInterface.systemCount].
    assert (Hlast : (labelLocalNodes 0 0 (replicate (Z.to_nat 65535) (mkNode 0 []))
                       ++ [mkNode 0 []]) !! Z.to_nat 65535 = Some (mkNode 0 [])).
    { rewrite lookup_app_r; rewrite labelLocalNodes_length, length_replicate; [| lia].
      by rewrite Nat.sub_diag. }
    split; [reflexivity |]. split; [by rewrite list_lookup_fmap, Hlast |].
    intros Hcover.
    destruct (Hcover (Z.to_nat 65535) (mkNode 0 [])) as (node' & Hnode' & Hlocal & _).
    { unfold manyLocalNodes. rewrite lookup_app_r; rewrite length_replicate; [| lia].
      by rewrite Nat.sub_diag. }
    rewrite Hlast in Hnode'. injection Hnode' as <-.
    specialize (Hlocal eq_refl). cbn [GetSystemId] in Hlocal.
    change (localIdOf 0) with 0 in Hlocal. lia.
  - eexists. split; [vm_compute; reflexivity |].
    cbn [partMtp partNodes MtpInterface.systemCount].
    split; [reflexivity |]. split; [reflexivity |].
    intros Hcover.
    destruct (Hcover 0%nat (mkNode 0x10000 []) eq_refl) as (node' & Hnode' & Hlocal & _).
    injection Hnode' as <-. specialize (Hlocal eq_refl). cbn in Hlocal. lia.
Qed.


(** The migration on the chain: the two events at time 0 are invoked in uid
    order, on LP 4 (the LP of node 3) and on LP 0; the event for node 2 goes
    to LP 3 and the event without context to the LP of the caller. *)
Example Partition_migration_on_chain :
  partTransferred
    <$> Partition (H := Scheduler.ListScheduler) 1 (mkMembers 0 8 (ms 5))
          (MtpInterface.Enable 1 0) chainNodes chainChannels pendingEvents
  = Some
      [ (Scheduler.mkEvent 3 (Scheduler.mkEventKey 0 4 3),
         MtpInterface.InvokeNow (MtpInterface.GetSystemAt 4)
           (Scheduler.mkEvent 3 (Scheduler.mkEventKey 0 4 3)));
        (Scheduler.mkEvent 2 (Scheduler.mkEventKey 0 8 NO_CONTEXT),
         MtpInterface.InvokeNow (MtpInterface.GetSystemAt 0)
           (Scheduler.mkEvent 2 (Scheduler.mkEventKey 0 8 NO_CONTEXT)));
        (Scheduler.mkEvent 1 (Scheduler.mkEventKey (ms 5) 7 2),
         MtpInterface.LpScheduleWithContext MtpInterface.GetSystem (MtpInterface.GetSystemAt 3)
           2 (ms 5) 1);
        (Scheduler.mkEvent 4 (Scheduler.mkEventKey (ms 9) 1 NO_CONTEXT),
         MtpInterface.LpSchedule MtpInterface.GetSystem (ms 9) 4) ].
Proof. vm_compute. reflexivity. Qed.

(** An event to be invoked at once for node 7 of a list of four nodes: the
    node list is accessed out of range and [Partition] does not return;
    on an empty node list it does not return either. *)
Example Partition_unknown_context :
  Partition (H := Scheduler.ListScheduler) 4 (mkMembers 0 8 (ms 5)) (MtpInterface.Enable 1 0)
    chainNodes chainChannels [Scheduler.mkEvent 1 (Scheduler.mkEventKey 0 1 7)] = None
  ∧ Partition (H := Scheduler.ListScheduler) 4 (mkMembers 0 8 (ms 5)) (MtpInterface.Enable 1 0)
      [] [] pendingEvents = None.
Proof. split; vm_compute; reflexivity. Qed.

(** C1, on the code.  For the chain A - B - C - D on one rank with link
    delays 1, 10 and 1 ms and a minimum lookahead of 5 ms, [Partition]
    makes four logical processes, one per node: A and B, joined by the 1 ms
    link, get the LP indices 1 and 2, and C and D get 3 and 4. *)
Theorem Partition_chain_one_LP_per_node :
  (λ r, (localIdOf ∘ GetSystemId <$> partNodes r,
         rankOf ∘ GetSystemId <$> partNodes r,
         MtpInterface.systemCount (partMtp r),
         partMinLookahead r))
    <$> Partition (H := Scheduler.ListScheduler) 4 (mkMembers 0 8 (ms 5))
          (MtpInterface.Enable 1 0) chainNodes chainChannels []
  = Some ([1; 2; 3; 4], [0; 0; 0; 0], 4, ms 5).
Proof. vm_compute. reflexivity. Qed.

(** *** The automatic lookahead *)

Lemma collectDeviceDelay_foldl (channels : list Channel) (devs : list NetDevice) :
  ∀ delays,
    foldl (collectDeviceDelay channels) delays devs
    = delays ++ omap (λ dev, if IsPointToPoint dev then Delay <$> channelOf channels dev
                             else None) devs.
Proof.
  induction devs as [|dev devs IH]; intros delays; cbn [foldl omap list_omap].
  - by rewrite app_nil_r.
  - rewrite IH. unfold collectDeviceDelay.
    destruct (channelOf channels dev) as [channel|], (IsPointToPoint dev); cbn [fmap option_fmap option_map];
      try reflexivity.
    by rewrite <- app_assoc.
Qed.

Lemma collectDelays_devices (myId : Z) (nodes : list Node) (channels : list Channel) :
  collectDelays myId nodes channels = localDeviceDelays myId nodes channels.
Proof.
  unfold collectDelays, localDeviceDelays.
  enough (Hgen : ∀ delays,
            foldl (collectNodeDelays myId channels) delays nodes
            = delays ++ (filter (λ node, GetSystemId node = myId) nodes
                           ≫= p2pDeviceDelays channels)) by apply (Hgen []).
  induction nodes as [|node nodes IH]; intros delays; cbn [foldl].
  - by rewrite app_nil_r.
  - rewrite IH, filter_cons. unfold collectNodeDelays.
    destruct (Z.eqb_spec (GetSystemId node) myId); case_decide; try contradiction.
    + rewrite collectDeviceDelay_foldl, bind_cons, <- app_assoc. reflexivity.
    + reflexivity.
Qed.

Lemma i64_small (z : Z) : - 2 ^ 63 ≤ z < 2 ^ 63 → i64 z = z.
Proof. intros Hz. unfold i64. rewrite Z.mod_small by lia. lia. Qed.

Lemma nth_elem_of (l : list Z) (i : nat) : (i < length l)%nat → nth i l 0 ∈ l.
Proof.
  intros Hi. destruct (lookup_lt_is_Some_2 l i Hi) as [x Hx].
  rewrite (nth_lookup_Some _ _ _ _ Hx). by eapply list_elem_of_lookup_2.
Qed.

(** The sum of the two middle delays does not wrap when the delays lie
    below 2^62 ticks. *)
Lemma middle_sum_fits (l : list Z) (i j : nat) :
  Forall (λ d, 0 ≤ d < 2 ^ 62) l → (i < length l)%nat → (j < length l)%nat →
  i64 (nth i l 0 + nth j l 0) = nth i l 0 + nth j l 0.
Proof.
  intros Hbound Hi Hj. apply i64_small.
  pose proof (proj1 (Forall_forall _ _) Hbound _ (nth_elem_of l i Hi)) as Hx.
  pose proof (proj1 (Forall_forall _ _) Hbound _ (nth_elem_of l j Hj)) as Hy.
  cbn beta in Hx, Hy. lia.
Qed.

Lemma medianOfDelays_sorted (delays sorted : list Time) :
  Forall (λ d, 0 ≤ d < 2 ^ 62) delays →
  sorted ≡ₚ delays → Sorted Z.le sorted →
  medianOfDelays delays = medianOfSorted sorted.
Proof.
  intros Hbound Hperm Hsorted. rewrite <- Hperm in Hbound. unfold medianOfDelays.
  assert (Heq : merge_sort Z.le delays = sorted).
  { apply (Sorted_unique Z.le); [apply Sorted_merge_sort; apply _ | exact Hsorted |].
    by rewrite merge_sort_Permutation. }
  rewrite Heq. unfold medianOfSorted, TimeStep.
  destruct sorted as [|d sorted']; [reflexivity |].
  set (l := d :: sorted') in *. case_decide as Hlen; [discriminate Hlen |]. clearbody l.
  unfold Time in *.
  destruct (Nat.odd (length l)) eqn:Hodd.
  - apply Nat.odd_spec in Hodd as [m Hm]. rewrite decide_True; [reflexivity |].
    rewrite Hm. replace (2 * m + 1)%nat with (1 + m * 2)%nat by lia.
    by rewrite Nat.Div0.mod_add.
  - assert (Hhalf : (length l / 2 < length l)%nat) by (apply Nat.div_lt; lia).
    rewrite decide_False.
    + rewrite middle_sum_fits by (assumption || lia). reflexivity.
    + intros Hmod. assert (Nat.odd (length l) = true); [| congruence].
      apply Nat.odd_spec. exists (length l / 2)%nat.
      pose proof (Nat.div_mod_eq (length l) 2). lia.
Qed.

(** C4, on the code.  With A and B on this rank, C and D on another, a
    link A - B of 1 ms, links B - C and B - D of 3 ms, and [MinLookahead]
    zero, the delays collected are 1, 1, 3, 3 ms: one for each device of A
    and of B, so that the link A - B is counted from both of its ends and
    the links to the other rank once.  [Partition] sets the lookahead to
    their median, 2 ms, while the median of the delays of the links that
    touch this rank (1, 3, 3 ms) is 3 ms and the median of the delays of
    the links inside it (1 ms) is 1 ms. *)
Theorem Partition_lookahead_counts_devices :
  collectDelays 0 borderNodes borderChannels = [ms 1; ms 1; ms 3; ms 3]
  ∧ partMinLookahead
      <$> Partition (H := Scheduler.ListScheduler) 1 (mkMembers 0 8 0)
            (MtpInterface.Enable 1 0) borderNodes borderChannels []
    = Some (ms 2)
  ∧ localLinkDelays 0 borderNodes borderChannels = [ms 1; ms 3; ms 3]
  ∧ medianOfSorted [ms 1; ms 3; ms 3] = ms 3
  ∧ insideLinkDelays 0 borderNodes borderChannels = [ms 1]
  ∧ medianOfSorted [ms 1] = ms 1.
Proof. vm_compute. repeat split. Qed.

(** The scenario of the spec: link delays of 1, 3, 5, 9 and 100 ms give a
    lookahead of 5 ms. *)
Example medianOfDelays_five :
  medianOfDelays [ms 9; ms 1; ms 100; ms 5; ms 3] = ms 5.
Proof. reflexivity. Qed.

(** The sum of the two middle delays is taken in [int64_t]: with two delays
    of 2^62 ticks it wraps around to -2^63, and the lookahead is -2^62. *)
Example medianOfDelays_wraps :
  medianOfDelays [2 ^ 62; 2 ^ 62] = - 2 ^ 62
  ∧ medianOfSorted [2 ^ 62; 2 ^ 62] = 2 ^ 62.
Proof. split; reflexivity. Qed.

(** On a rank below 2^16 the number of logical processes [Partition] makes
    is the number of nodes of the rank: no two nodes share one. *)
Lemma Partition_one_LP_per_local_node {S : Type} `{SO : Scheduler.Ops S} (fuel : nat)
    (this : Members) (mtp : MtpInterface.State) (nodes : list Node)
    (channels : list Channel) (oldEvents : S) (r : Partitioned S) :
  0 ≤ m_myId this < 2 ^ 16 →
  localCount (m_myId this) nodes < 2 ^ 16 →
  Partition (Datatypes.S fuel) this mtp nodes channels oldEvents = Some r →
  MtpInterface.systemCount (partMtp r) = localCount (m_myId this) nodes
  ∧ partNodes r = labelLocalNodes (m_myId this) 0 nodes.
Proof.
  intros Hrank Hcount Hr.
  destruct (Partition_result fuel this mtp nodes channels oldEvents r Hrank Hcount Hr)
    as (Hnodes & _ & Hmtp & _).
  split; [by rewrite Hmtp | exact Hnodes].
Qed.

(** On a rank below 2^16 no two nodes of the rank are put in one logical
    process, whatever the links between them and whatever the lookahead. *)
Lemma Partition_never_groups {S : Type} `{SO : Scheduler.Ops S} (fuel : nat)
    (this : Members) (mtp : MtpInterface.State) (nodes : list Node)
    (channels : list Channel) (oldEvents : S) (r : Partitioned S) :
  0 ≤ m_myId this < 2 ^ 16 →
  localCount (m_myId this) nodes < 2 ^ 16 →
  Partition (Datatypes.S fuel) this mtp nodes channels oldEvents = Some r →
  ∀ i j a b a' b',
    (i < j)%nat →
    nodes !! i = Some a → GetSystemId a = m_myId this →
    nodes !! j = Some b → GetSystemId b = m_myId this →
    partNodes r !! i = Some a' → partNodes r !! j = Some b' →
    localIdOf (GetSystemId a') < localIdOf (GetSystemId b').
Proof.
  intros Hrank Hcount Hr.
  destruct (Partition_result fuel this mtp nodes channels oldEvents r Hrank Hcount Hr)
    as (Hnodes & _).
  intros i j a b a' b' Hij Ha Hla Hb Hlb Ha' Hb'. rewrite Hnodes in Ha', Hb'.
  destruct (labelLocalNodes_exact (m_myId this) Hrank nodes 0 i a
              ltac:(lia) ltac:(lia) Ha Hla) as (a2 & Ha2 & Hida).
  destruct (labelLocalNodes_exact (m_myId this) Hrank nodes 0 j b
              ltac:(lia) ltac:(lia) Hb Hlb) as (b2 & Hb2 & Hidb).
  assert (a2 = a') as -> by congruence. assert (b2 = b') as -> by congruence.
  rewrite Hida, Hidb, (localCount_take_S (m_myId this) nodes j b Hb Hlb).
  pose proof (localCount_take_le (m_myId this) nodes (Datatypes.S i) j ltac:(lia)). lia.
Qed.

(** * Further properties of the code *)

(** ** Destroy events: scheduling, cancelling, removing, draining *)
Section DestroyEvents.

Context {LP : Type} `{LPO : LogicalProcess.Ops LP}.

Lemma foundInQueue_app (id : EventId) (q1 q2 : list EventId) :
  foundInQueue id (q1 ++ q2) = foundInQueue id q1 || foundInQueue id q2.
Proof.
  induction q1 as [|i q1 IH]; cbn [app foundInQueue]; [reflexivity |].
  by case_bool_decide.
Qed.

Lemma foundInQueue_eraseFirst_other (id id' : EventId) (q : list EventId) :
  id' ≠ id → foundInQueue id' (eraseFirst id q) = foundInQueue id' q.
Proof.
  intros Hne. induction q as [|i q IH]; cbn [eraseFirst foundInQueue]; [reflexivity |].
  case_bool_decide as Hi.
  - subst i. by rewrite bool_decide_eq_false_2 by congruence.
  - cbn [foundInQueue]. by rewrite IH.
Qed.

Lemma implAt_cancelled (st : SimulatorState LP) (a b : nat) :
  implAt (set_eventImpls (<[a := {| m_cancel := true |}]> (eventImpls st)) st) b
  = (if decide (a = b) then {| m_cancel := true |} else implAt st b).
Proof.
  unfold implAt. cbn [eventImpls set_eventImpls]. rewrite lookup_insert.
  by case_decide.
Qed.

(** X1.  After [ScheduleDestroy] the new id carries the uid DESTROY, sits at the
    back of the destroy queue, and has not expired unless its event was
    cancelled beforehand; [GetDelayLeft] then asks the logical process. *)
Theorem ScheduleDestroy_pending (event : nat) (st : SimulatorState LP) :
  GetUid (ScheduleDestroy event st).1 = DESTROY
  ∧ PeekEventImpl (ScheduleDestroy event st).1 = Some event
  ∧ m_destroyEvents (ScheduleDestroy event st).2
    = m_destroyEvents st ++ [(ScheduleDestroy event st).1]
  ∧ IsExpired (ScheduleDestroy event st).1 (ScheduleDestroy event st).2
    = IsCancelled (implAt st event)
  ∧ GetDelayLeft (ScheduleDestroy event st).1 (ScheduleDestroy event st).2
    = (if IsCancelled (implAt st event) then TimeStep 0
       else LogicalProcess.GetDelayLeft (ScheduleDestroy event st).1 (currentLP st)).
Proof.
  assert (Hexp : IsExpired (ScheduleDestroy event st).1 (ScheduleDestroy event st).2
                 = IsCancelled (implAt st event)).
  { unfold IsExpired, ScheduleDestroy. cbn [fst snd GetUid PeekEventImpl].
    change (DESTROY =? DESTROY) with true. cbn match.
    change (implAt (set_destroyEvents _ st) event) with (implAt st event).
    destruct (IsCancelled (implAt st event)); [reflexivity |].
    cbn [m_destroyEvents set_destroyEvents].
    rewrite foundInQueue_app. cbn [foundInQueue].
    rewrite bool_decide_eq_true_2 by reflexivity. by rewrite orb_true_r. }
  split; [reflexivity |]. split; [reflexivity |]. split; [reflexivity |].
  split; [exact Hexp |].
  unfold GetDelayLeft. rewrite Hexp. by destruct (IsCancelled (implAt st event)).
Qed.

(** X2.  Removing an id right after scheduling it undoes the scheduling, when
    the same event was not already queued for destruction. *)
Theorem ScheduleDestroy_Remove (event : nat) (st : SimulatorState LP) :
  (ScheduleDestroy event st).1 ∉ m_destroyEvents st →
  Remove (ScheduleDestroy event st).1 (ScheduleDestroy event st).2 = st.
Proof.
  intros Hfresh. unfold Remove, ScheduleDestroy in *. cbn [fst snd GetUid] in *.
  change (DESTROY =? DESTROY) with true. cbn match.
  cbn [m_destroyEvents set_destroyEvents].
  rewrite eraseFirst_first, app_nil_r by assumption. by destruct st.
Qed.

(** [Cancel] on a destroy id: either the id has expired and nothing
    happens, or its event is there and gets its flag set. *)
Lemma Cancel_destroy_cases (id : EventId) (st : SimulatorState LP) :
  GetUid id = DESTROY →
  (IsExpired id st = true ∧ Cancel id st = Returned st)
  ∨ (∃ a, PeekEventImpl id = Some a
          ∧ IsExpired id st = false
          ∧ Cancel id st
            = Returned (set_eventImpls (<[a := {| m_cancel := true |}]> (eventImpls st)) st)).
Proof.
  intros Huid. unfold Cancel.
  destruct (IsExpired id st) eqn:Hexp; cbn [negb]; [by left | right].
  unfold IsExpired in Hexp. rewrite Huid, Z.eqb_refl in Hexp.
  destruct (PeekEventImpl id) as [a|]; [| discriminate].
  by exists a.
Qed.

Lemma Cancel_expires (id : EventId) (st st' : SimulatorState LP) :
  GetUid id = DESTROY → Cancel id st = Returned st' → IsExpired id st' = true.
Proof.
  intros Huid Hcancel.
  destruct (Cancel_destroy_cases id st Huid) as [[Hexp Hsame] | (a & Ha & _ & Hset)];
    rewrite Hcancel in *.
  - by injection Hsame as ->.
  - injection Hset as ->. unfold IsExpired. rewrite Huid, Z.eqb_refl, Ha.
    rewrite implAt_cancelled, decide_True by reflexivity. reflexivity.
Qed.

(** X3.  [Cancel] on a destroy id returns (an id without event counts as
    expired, so that line 208 is not reached with a null pointer) and
    leaves the id expired, with no delay left; a second [Cancel] changes
    nothing; and the call touches neither the destroy queue, nor the
    logical process, nor the flag of any other event. *)
Theorem Cancel_destroy_id (id : EventId) (st : SimulatorState LP) :
  GetUid id = DESTROY →
  ∃ st',
    Cancel id st = Returned st'
    ∧ IsExpired id st' = true
    ∧ GetDelayLeft id st' = TimeStep 0
    ∧ Cancel id st' = Returned st'
    ∧ m_destroyEvents st' = m_destroyEvents st
    ∧ currentLP st' = currentLP st
    ∧ ∀ b, PeekEventImpl id ≠ Some b → implAt st' b = implAt st b.
Proof.
  intros Huid.
  assert (Hret : ∃ st', Cancel id st = Returned st'
                        ∧ m_destroyEvents st' = m_destroyEvents st
                        ∧ currentLP st' = currentLP st
                        ∧ ∀ b, PeekEventImpl id ≠ Some b → implAt st' b = implAt st b).
  { destruct (Cancel_destroy_cases id st Huid) as [[_ Hsame] | (a & Ha & _ & Hset)].
    - exists st. by repeat split.
    - eexists. split; [exact Hset |]. split; [reflexivity |]. split; [reflexivity |].
      intros b Hb. rewrite implAt_cancelled. case_decide; [congruence | reflexivity]. }
  destruct Hret as (st' & Hcancel & Hqueue & Hlp & Hflags).
  pose proof (Cancel_expires id st st' Huid Hcancel) as Hexp.
  exists st'. split; [exact Hcancel |]. split; [exact Hexp |].
  split; [unfold GetDelayLeft; by rewrite Hexp |].
  split; [unfold Cancel; by rewrite Hexp |].
  split; [exact Hqueue |]. split; [exact Hlp | exact Hflags].
Qed.

(** X4.  [Remove] of a destroy id queued at most once leaves it expired; and
    [Remove] of any id, destroy id or not, changes the expiry of no other
    destroy id. *)
Theorem Remove_expiry (id : EventId) (st : SimulatorState LP) :
  (GetUid id = DESTROY → (occurrences id (m_destroyEvents st) ≤ 1)%nat →
   IsExpired id (Remove id st) = true)
  ∧ (∀ id', GetUid id' = DESTROY → id' ≠ id →
       IsExpired id' (Remove id st) = IsExpired id' st).
Proof.
  split.
  - intros Huid Hocc. unfold IsExpired, Remove. rewrite Huid, Z.eqb_refl.
    destruct (PeekEventImpl id) as [a|]; [| reflexivity].
    change (implAt (set_destroyEvents _ st) a) with (implAt st a).
    destruct (IsCancelled (implAt st a)); [reflexivity |].
    cbn [m_destroyEvents set_destroyEvents].
    assert (Hgone : foundInQueue id (eraseFirst id (m_destroyEvents st)) = false).
    { apply foundInQueue_false, occurrences_zero. rewrite occurrences_eraseFirst. lia. }
    by rewrite Hgone.
  - intros id' Huid' Hne. unfold IsExpired. rewrite Huid', Z.eqb_refl.
    unfold Remove. destruct (GetUid id =? DESTROY).
    + change (implAt (set_destroyEvents ?q st)) with (implAt st).
      cbn [m_destroyEvents set_destroyEvents].
      by rewrite foundInQueue_eraseFirst_other.
    + reflexivity.
Qed.

End DestroyEvents.

Section DestroyAfter.

Context {LP : Type} `{LPO : LogicalProcess.Ops LP}.
Variable Invoke : nat → SimulatorState LP → SimulatorState LP.

Lemma Destroy_returned (fuel : nat) (st st' : SimulatorState LP)
    (log : list (DestroyStep LP)) :
  Destroy Invoke fuel st = Returned (st', log) →
  ∃ st1,
    DestroyLoop Invoke fuel st [] = Returned (st1, log)
    ∧ st' = call_external MpiInterface_Destroy (call_external MtpInterface_Disable st1)
    ∧ m_destroyEvents st' = [].
Proof.
  unfold Destroy.
  destruct (DestroyLoop Invoke fuel st []) as [[st1 log1]| |] eqn:Hrun; try discriminate.
  intros [= <- <-]. exists st1. split; [reflexivity |]. split; [reflexivity |].
  by destruct (DestroyLoop_returned _ _ _ _ _ _ Hrun) as [Hempty _].
Qed.

(** X5.  Once [Destroy] has returned, every destroy id has expired, has no delay
    left, and [Remove] on it changes nothing. *)
Theorem Destroy_expires_all (fuel : nat) (st st' : SimulatorState LP)
    (log : list (DestroyStep LP)) :
  Destroy Invoke fuel st = Returned (st', log) →
  ∀ id, GetUid id = DESTROY →
    IsExpired id st' = true ∧ GetDelayLeft id st' = TimeStep 0 ∧ Remove id st' = st'.
Proof.
  intros Hrun id Huid.
  destruct (Destroy_returned _ _ _ _ Hrun) as (st1 & _ & _ & Hempty).
  assert (Hexp : IsExpired id st' = true).
  { unfold IsExpired. rewrite Huid, Z.eqb_refl, Hempty.
    destruct (PeekEventImpl id); [| reflexivity]. by destruct (IsCancelled _). }
  split; [exact Hexp |]. split; [unfold GetDelayLeft; by rewrite Hexp |].
  unfold Remove. rewrite Huid, Z.eqb_refl, Hempty. cbn [eraseFirst].
  rewrite <- Hempty. by destruct st'.
Qed.

(** X6.  A second [Destroy] returns at once, whatever its fuel, invokes nothing
    and only repeats the two teardown calls. *)
Theorem Destroy_twice (fuel : nat) (st st' : SimulatorState LP)
    (log : list (DestroyStep LP)) :
  Destroy Invoke fuel st = Returned (st', log) →
  ∀ fuel',
    Destroy Invoke fuel' st'
    = Returned (call_external MpiInterface_Destroy (call_external MtpInterface_Disable st'), []).
Proof.
  intros Hrun fuel'.
  destruct (Destroy_returned _ _ _ _ Hrun) as (st1 & _ & _ & Hempty).
  unfold Destroy. destruct fuel'; cbn [DestroyLoop]; by rewrite Hempty.
Qed.

Lemma DestroyLoop_cancelled (a : nat) :
  (∀ b s, IsCancelled (implAt s a) = true → IsCancelled (implAt (Invoke b s) a) = true) →
  ∀ (fuel : nat) (st st' : SimulatorState LP) (log log' : list (DestroyStep LP)),
    IsCancelled (implAt st a) = true →
    DestroyLoop Invoke fuel st log = Returned (st', log') →
    ∃ steps,
      log' = log ++ steps
      ∧ Forall (λ s, PeekEventImpl (stepId s) = Some a →
                     stepInvoked s = false ∧ afterStep Invoke s = stepState s) steps.
Proof.
  intros Hkeep. induction fuel as [|fuel IH]; intros st st' log log' Hflag; cbn [DestroyLoop];
    destruct (m_destroyEvents st) as [|front rest] eqn:Hq; try discriminate.
  - intros [= <- <-]. exists []. by rewrite app_nil_r.
  - intros [= <- <-]. exists []. by rewrite app_nil_r.
  - destruct (PeekEventImpl front) as [b|] eqn:Hb; [| discriminate].
    set (st1 := set_destroyEvents rest st).
    assert (Hflag1 : IsCancelled (implAt st1 a) = true) by exact Hflag.
    destruct (IsCancelled (implAt st1 b)) eqn:Hc; intros Hrun.
    + apply IH in Hrun as (steps & -> & Hsteps); [| exact Hflag1].
      eexists (_ :: steps). split; [by rewrite <- app_assoc |].
      constructor; [| exact Hsteps].
      intros _. unfold afterStep. cbn [stepId stepInvoked stepState]. by rewrite Hb.
    + apply IH in Hrun as (steps & -> & Hsteps); [| by apply Hkeep].
      eexists (_ :: steps). split; [by rewrite <- app_assoc |].
      constructor; [| exact Hsteps].
      cbn [stepId stepInvoked]. rewrite Hb. intros [= ->]. congruence.
Qed.

(** The drain does not depend on the payload of an event whose flag is set
    and stays set. *)
Lemma DestroyLoop_skips (Invoke' : nat → SimulatorState LP → SimulatorState LP) (a : nat) :
  (∀ b s, IsCancelled (implAt s a) = true → IsCancelled (implAt (Invoke b s) a) = true) →
  (∀ b s, b ≠ a → Invoke' b s = Invoke b s) →
  ∀ (fuel : nat) (st : SimulatorState LP) (log : list (DestroyStep LP)),
    IsCancelled (implAt st a) = true →
    DestroyLoop Invoke' fuel st log = DestroyLoop Invoke fuel st log.
Proof.
  intros Hkeep Hagree. induction fuel as [|fuel IH]; intros st log Hflag; cbn [DestroyLoop];
    destruct (m_destroyEvents st) as [|front rest] eqn:Hq; try reflexivity.
  destruct (PeekEventImpl front) as [b|] eqn:Hb; [| reflexivity].
  set (st1 := set_destroyEvents rest st).
  assert (Hflag1 : IsCancelled (implAt st1 a) = true) by exact Hflag.
  destruct (IsCancelled (implAt st1 b)) eqn:Hc.
  - by apply IH.
  - assert (Hne : b ≠ a) by (intros ->; congruence).
    rewrite (Hagree b st1 Hne). apply IH. by apply Hkeep.
Qed.

(** X7.  A destroy event cancelled while it is queued is not invoked by a
    later [Destroy], as long as no payload clears its flag: [Cancel]
    returns, and the [Destroy] that follows runs the same, pass by pass and
    to the same state, whatever the payload of that event is; in the passes
    that pop it nothing is run. *)
Theorem Cancel_then_Destroy (Invoke' : nat → SimulatorState LP → SimulatorState LP)
    (id : EventId) (a : nat) (fuel : nat) (st : SimulatorState LP) :
  (∀ b s, IsCancelled (implAt s a) = true → IsCancelled (implAt (Invoke b s) a) = true) →
  (∀ b s, b ≠ a → Invoke' b s = Invoke b s) →
  GetUid id = DESTROY →
  PeekEventImpl id = Some a →
  id ∈ m_destroyEvents st →
  ∃ st1,
    Cancel id st = Returned st1
    ∧ Destroy Invoke' fuel st1 = Destroy Invoke fuel st1
    ∧ ∀ st' log,
        Destroy Invoke fuel st1 = Returned (st', log) →
        Forall (λ s, PeekEventImpl (stepId s) = Some a →
                     stepInvoked s = false ∧ afterStep Invoke s = stepState s) log.
Proof.
  intros Hkeep Hagree Huid Ha Hin.
  assert (Hret : ∃ st1, Cancel id st = Returned st1 ∧ IsCancelled (implAt st1 a) = true).
  { destruct (Cancel_destroy_cases id st Huid) as [[Hexp Hsame] | (a' & Ha' & _ & Hset)].
    - exists st. split; [exact Hsame |].
      unfold IsExpired in Hexp. rewrite Huid, Z.eqb_refl, Ha in Hexp.
      destruct (IsCancelled (implAt st a)); [reflexivity |].
      apply foundInQueue_true in Hin. by rewrite Hin in Hexp.
    - eexists. split; [exact Hset |].
      assert (a' = a) as -> by congruence.
      rewrite implAt_cancelled, decide_True by reflexivity. reflexivity. }
  destruct Hret as (st1 & Hcancel & Hflag).
  exists st1. split; [exact Hcancel |]. split.
  - unfold Destroy. by rewrite (DestroyLoop_skips Invoke' a Hkeep Hagree fuel st1 [] Hflag).
  - intros st' log Hrun.
    destruct (Destroy_returned _ _ _ _ Hrun) as (st2 & Hloop & _).
    destruct (DestroyLoop_cancelled a Hkeep _ _ _ _ _ Hflag Hloop) as (steps & -> & Hsteps).
    exact Hsteps.
Qed.

Lemma scheduleDestroyAll_queue (evs : list nat) :
  ∀ st : SimulatorState LP,
    m_destroyEvents (scheduleDestroyAll evs st) = m_destroyEvents st ++ (destroyId <$> evs)
    ∧ eventImpls (scheduleDestroyAll evs st) = eventImpls st.
Proof.
  induction evs as [|ev evs IH]; intros st; cbn [scheduleDestroyAll foldl].
  - by rewrite app_nil_r.
  - fold (scheduleDestroyAll evs (ScheduleDestroy ev st).2).
    destruct (IH (ScheduleDestroy ev st).2) as [-> ->].
    cbn [ScheduleDestroy snd m_destroyEvents eventImpls set_destroyEvents].
    rewrite fmap_cons, <- app_assoc. split; reflexivity.
Qed.

Lemma runPayloads_live (st0 : SimulatorState LP) (evs : list nat) :
  Forall (λ ev, IsCancelled (implAt st0 ev) = false) evs →
  ∀ st, runPayloads Invoke st0 (destroyId <$> evs) st
        = foldl (λ s ev, Invoke ev (popFront s)) st evs.
Proof.
  induction 1 as [|ev evs Hev _ IH]; intros st; [reflexivity |].
  rewrite fmap_cons. unfold runPayloads. cbn [foldl].
  fold (runPayloads Invoke st0 (destroyId <$> evs)).
  unfold notCancelled. cbn [destroyId PeekEventImpl from_option]. rewrite Hev. cbn [negb].
  apply IH.
Qed.

(** X8.  Events scheduled for destruction on an empty queue and not cancelled
    are all invoked by [Destroy], once each and in the order in which they
    were scheduled, when the payloads leave the queue and the flags alone:
    the state returned is the one their payloads make, each run on the
    state the one before left, just after its pop. *)
Theorem ScheduleDestroy_then_Destroy (evs : list nat) (st : SimulatorState LP) :
  (∀ a s, m_destroyEvents (Invoke a s) = m_destroyEvents s) →
  (∀ a s, eventImpls (Invoke a s) = eventImpls s) →
  m_destroyEvents st = [] →
  Forall (λ ev, IsCancelled (implAt st ev) = false) evs →
  ∃ st' log,
    Destroy Invoke (length evs) (scheduleDestroyAll evs st) = Returned (st', log)
    ∧ st' = teardown (foldl (λ s ev, Invoke ev (popFront s)) (scheduleDestroyAll evs st) evs)
    ∧ m_destroyEvents st' = []
    ∧ (λ s, (PeekEventImpl (stepId s), stepInvoked s)) <$> log
      = (λ ev, (Some ev, true)) <$> evs.
Proof.
  intros Hqueue Himpls Hempty Hlive.
  destruct (scheduleDestroyAll_queue evs st) as [Hq Hh]. rewrite Hempty in Hq. cbn in Hq.
  set (st0 := scheduleDestroyAll evs st) in *.
  assert (Hnn : Forall (λ id, PeekEventImpl id ≠ None) (destroyId <$> evs)).
  { apply Forall_fmap, Forall_true. intros ev. discriminate. }
  assert (Hlive0 : Forall (λ ev, IsCancelled (implAt st0 ev) = false) evs).
  { eapply Forall_impl; [exact Hlive |]. intros ev Hev. unfold implAt in *. by rewrite Hh. }
  destruct (DestroyLoop_quiet Invoke Hqueue st0 (destroyId <$> evs) Himpls st0 []
              Hq eq_refl Hnn) as (steps & Hrun & Hsteps).
  rewrite length_fmap, (runPayloads_live st0 evs Hlive0) in Hrun. cbn [app] in Hrun.
  destruct (DestroyLoop_returned _ _ _ _ _ _ Hrun) as (Hdone & _).
  eexists _, steps. unfold Destroy. rewrite Hrun.
  split; [reflexivity |]. split; [reflexivity |]. split; [exact Hdone |].
  clear Hrun Hdone Hq Hnn Hlive. clearbody st0.
  revert steps Hsteps.
  induction evs as [|ev evs IH]; intros steps Hsteps.
  - rewrite fmap_nil in Hsteps. by apply Forall2_nil_inv_l in Hsteps as ->.
  - rewrite fmap_cons in Hsteps.
    apply Forall2_cons_inv_l in Hsteps as (s & steps' & [Hid Hinv] & Hsteps & ->).
    apply Forall_cons in Hlive0 as [Hev Hlive0].
    rewrite !fmap_cons. f_equal; [| by apply IH].
    rewrite Hid, Hinv. unfold notCancelled. cbn [destroyId PeekEventImpl]. by rewrite Hev.
Qed.

End DestroyAfter.

(** [Cancel] on an id without event, of an ordinary uid, that the logical
    process reports as pending: line 208 calls through the null pointer. *)
Example Cancel_null_event :
  Cancel (LPO := BusyLP) (mkEventId None 5 0 4) threeDestroyEvents = NullPointer
  ∧ Cancel (LPO := IdleLP) (mkEventId None 5 0 4) threeDestroyEvents
    = Returned threeDestroyEvents.
Proof. split; reflexivity. Qed.

Lemma ScheduleDestroy_Remove_witness :
  Remove (LPO := IdleLP) (ScheduleDestroy 4 threeDestroyEvents).1
    (ScheduleDestroy 4 threeDestroyEvents).2
  = threeDestroyEvents.
Proof.
  apply (ScheduleDestroy_Remove (LPO := IdleLP) 4 threeDestroyEvents).
  cbn. absent_from_queue.
Defined.

Lemma Cancel_destroy_id_witness :
  ∃ st',
    Cancel (LPO := BusyLP) (destroyId 1) threeDestroyEvents = Returned st'
    ∧ IsExpired (LPO := BusyLP) (destroyId 1) st' = true
    ∧ Cancel (LPO := BusyLP) (destroyId 1) st' = Returned st'.
Proof.
  destruct (Cancel_destroy_id (LPO := BusyLP) (destroyId 1) threeDestroyEvents eq_refl)
    as (st' & Hcancel & Hexpired & _ & Hagain & _).
  exists st'. split; [exact Hcancel |]. split; [exact Hexpired | exact Hagain].
Defined.

Lemma Remove_expiry_witness :
  IsExpired (LPO := BusyLP) (destroyId 1) (Remove (LPO := BusyLP) (destroyId 1) threeDestroyEvents)
  = true
  ∧ IsExpired (LPO := BusyLP) (destroyId 3) (Remove (LPO := BusyLP) (destroyId 1) threeDestroyEvents)
    = IsExpired (LPO := BusyLP) (destroyId 3) threeDestroyEvents.
Proof.
  destruct (Remove_expiry (LPO := BusyLP) (destroyId 1) threeDestroyEvents) as [Hgone Hother].
  split.
  - apply Hgone; [reflexivity |]. vm_compute. lia.
  - apply Hother; [reflexivity | discriminate].
Defined.

Lemma Destroy_expires_all_witness :
  ∃ st' log,
    Destroy quietPayload 3 threeDestroyEvents = Returned (st', log)
    ∧ IsExpired (LPO := BusyLP) (destroyId 1) st' = true
    ∧ GetDelayLeft (LPO := BusyLP) (destroyId 1) st' = TimeStep 0
    ∧ Remove (LPO := BusyLP) (destroyId 1) st' = st'.
Proof.
  do 2 eexists. split; [reflexivity |].
  eapply (Destroy_expires_all (LPO := BusyLP) quietPayload 3 threeDestroyEvents);
    reflexivity.
Defined.

Lemma Destroy_twice_witness :
  ∃ st' log,
    Destroy quietPayload 3 threeDestroyEvents = Returned (st', log)
    ∧ Destroy quietPayload 0 st'
      = Returned (call_external MpiInterface_Destroy (call_external MtpInterface_Disable st'), []).
Proof.
  do 2 eexists. split; [reflexivity |].
  eapply (Destroy_twice quietPayload 3 threeDestroyEvents). reflexivity.
Defined.

(** The first of three journalled events is cancelled: the drain then notes
    the third alone, also when the payload of the first is replaced by one
    that would have made the teardown calls. *)
Lemma Cancel_then_Destroy_witness :
  ∃ st1 st' log,
    Cancel (LPO := JournalLP) (destroyId 1) threeJournalled = Returned st1
    ∧ Destroy notePayload 3 st1 = Returned (st', log)
    ∧ Destroy (λ b s, if decide (b = 1%nat) then teardown s else notePayload b s) 3 st1
      = Returned (st', log)
    ∧ currentLP st' = [3%nat].
Proof.
  destruct (Cancel_then_Destroy (LPO := JournalLP) notePayload
              (λ b s, if decide (b = 1%nat) then teardown s else notePayload b s)
              (destroyId 1) 1 3 threeJournalled)
    as (st1 & Hcancel & Hsame & _).
  - intros b s Hc. exact Hc.
  - intros b s Hb. by rewrite decide_False.
  - reflexivity.
  - reflexivity.
  - cbn. left.
  - exists st1. rewrite Hsame.
    vm_compute in Hcancel. injection Hcancel as <-.
    do 2 eexists. split; [reflexivity |]. split; [reflexivity |].
    split; reflexivity.
Defined.

(** Three events scheduled for destruction in the order 3, 1, 2: the
    journal after the drain reads 3, 1, 2. *)
Lemma ScheduleDestroy_then_Destroy_witness :
  ∃ st' log,
    Destroy notePayload 3 (scheduleDestroyAll [3; 1; 2]%nat noneJournalled)
      = Returned (st', log)
    ∧ currentLP st' = [3; 1; 2]%nat
    ∧ m_destroyEvents st' = []
    ∧ (λ s, (PeekEventImpl (stepId s), stepInvoked s)) <$> log
      = [(Some 3%nat, true); (Some 1%nat, true); (Some 2%nat, true)].
Proof.
  destruct (ScheduleDestroy_then_Destroy notePayload [3; 1; 2]%nat noneJournalled)
    as (st' & log & Hrun & Hstate & Hempty & Hlog).
  - reflexivity.
  - reflexivity.
  - reflexivity.
  - repeat constructor.
  - exists st', log. split; [exact Hrun |].
    split; [rewrite Hstate; reflexivity |]. split; [exact Hempty | exact Hlog].
Defined.

(** ** The loop of Run: how it ends and what it grants *)
Section RunEnds.

Context {W : Type} `{CW : Collaborators W}.

Lemma RunLoop_snoc (m_myId : Z) (n : nat) :
  ∀ w : W,
    RunLoop m_myId n w = []
    ∨ ∃ its it,
        RunLoop m_myId n w = its ++ [it]
        ∧ Forall (λ i, itGlobalFinished i = false) its
        ∧ ∃ w0, it = RunIteration m_myId w0.
Proof.
  induction n as [|n IH]; intros w; [by left |]. right.
  change (RunLoop m_myId (S n) w)
    with (RunIteration m_myId w
            :: (if itGlobalFinished (RunIteration m_myId w) then []
                else RunLoop m_myId n (itWorld (RunIteration m_myId w)))).
  destruct (itGlobalFinished (RunIteration m_myId w)) eqn:Hfin.
  - exists [], (RunIteration m_myId w). split; [reflexivity |]. split; [constructor | by eexists].
  - destruct (IH (itWorld (RunIteration m_myId w))) as [-> | (its & it & -> & Hits & Hit)].
    + exists [], (RunIteration m_myId w). split; [reflexivity |].
      split; [constructor | by eexists].
    + exists (RunIteration m_myId w :: its), it. split; [reflexivity |].
      split; [by constructor | exact Hit].
Qed.

Lemma RunIteration_globalFinished (m_myId : Z) (w : W) :
  itGlobalFinished (RunIteration m_myId w) = true →
  Forall (λ m, LbtsMessage.IsFinished m = true) (allRanks (itLbts (RunIteration m_myId w)))
  ∧ totRx (itReduction (RunIteration m_myId w)) = totTx (itReduction (RunIteration m_myId w)).
Proof.
  set (it := RunIteration m_myId w).
  assert (Hglobal : itGlobalFinished it
                    = allFinished (reduceLbts (itLbts it))
                      && (totRx (itReduction it) =? totTx (itReduction it))) by reflexivity.
  clearbody it. rewrite Hglobal, andb_true_iff, Z.eqb_eq. intros [Hall Heq].
  split; [| exact Heq].
  destruct (itLbts it) as [m0 rest]. unfold reduceLbts, allRanks in *. cbn [fst snd] in *.
  destruct (reduce_foldl (reduceInit m0) rest) as (_ & _ & _ & _ & _ & _ & Hfin).
  rewrite Hfin in Hall. cbn [reduceInit allFinished] in Hall.
  apply andb_true_iff in Hall as [H0 Hrest].
  constructor; [exact H0 |].
  rewrite forallb_forall in Hrest. apply Forall_forall. intros m Hm.
  apply Hrest, list_elem_of_In, Hm.
Qed.

(** X9.  When [Run] returns, the loop has made at least one pass; the last pass
    is the only one that was globally finished, and in it every rank
    reported finished and the totals [totRx] and [totTx] were equal, so the
    loop never exits with a message in flight; the world returned is the one
    that pass left, after [RunAfter]. *)
Theorem Run_returns_when_finished (partition : W → W) (m_myId : Z) (fuel : nat) (w w' : W) :
  Run partition m_myId fuel w = Some w' →
  ∃ its it,
    RunLoop m_myId fuel (MtpInterface_RunBefore (partition w)) = its ++ [it]
    ∧ Forall (λ i, itGlobalFinished i = false) its
    ∧ itGlobalFinished it = true
    ∧ Forall (λ m, LbtsMessage.IsFinished m = true) (allRanks (itLbts it))
    ∧ totRx (itReduction it) = totTx (itReduction it)
    ∧ w' = MtpInterface_RunAfter (itWorld it).
Proof.
  unfold Run.
  destruct (RunLoop_snoc m_myId fuel (MtpInterface_RunBefore (partition w)))
    as [-> | (its & it & -> & Hits & w0 & Hit)]; [discriminate |].
  rewrite last_snoc. destruct (itGlobalFinished it) eqn:Hfin; [| discriminate].
  intros [= <-]. exists its, it. split; [reflexivity |]. split; [exact Hits |].
  split; [exact Hfin |]. subst it.
  destruct (RunIteration_globalFinished m_myId w0 Hfin) as [Hall Heq].
  split; [exact Hall |]. split; [exact Heq | reflexivity].
Qed.

(** X10.  When the collective puts this rank's own record at index [m_myId] of
    the buffer, the time granted in a pass is never later than the smallest
    time the local dispatcher computed in that pass. *)
Theorem Run_grant_within_local_time (m_myId : Z) (w : W) :
  (∀ lMsg w0, allRanks (MPI_Allgather lMsg w0).1 !! Z.to_nat m_myId = Some lMsg) →
  m_smallestTime (itReduction (RunIteration m_myId w))
  ≤ MtpInterface_GetSmallestTime
      (MtpInterface_CalculateSmallestTime (Mpi_TestSendComplete (Mpi_ReceiveMessages w))).
Proof.
  intros Hown.
  set (w3 := MtpInterface_CalculateSmallestTime (Mpi_TestSendComplete (Mpi_ReceiveMessages w))).
  set (lMsg := LbtsMessage.mk (Mpi_GetRxCount w3) (Mpi_GetTxCount w3) m_myId
                 (MtpInterface_isFinished w3) (MtpInterface_GetSmallestTime w3)).
  change (m_smallestTime (itReduction (RunIteration m_myId w)))
    with (m_smallestTime (reduceLbts (MPI_Allgather lMsg w3).1)).
  specialize (Hown lMsg w3).
  destruct ((MPI_Allgather lMsg w3).1) as [m0 rest].
  unfold reduceLbts, allRanks in *. cbn [fst snd] in *.
  destruct (reduce_foldl (reduceInit m0) rest) as (_ & Hle & Hall & _).
  cbn [reduceInit m_smallestTime] in Hle.
  assert (Hmin : Forall (λ m, m_smallestTime (foldl reduceStep (reduceInit m0) rest)
                              ≤ LbtsMessage.GetSmallestTime m) (m0 :: rest))
    by (constructor; assumption).
  exact (Forall_lookup_1 _ _ _ _ Hmin Hown).
Qed.

(** X11.  When the collective returns this rank's own record and neither the
    collective nor [SetSmallestTime] changes what [isFinished] answers, the
    pass that finds the run globally finished processes no round. *)
Theorem Run_last_pass_is_idle (m_myId : Z) (w : W) :
  (∀ lMsg w0, allRanks (MPI_Allgather lMsg w0).1 !! Z.to_nat m_myId = Some lMsg) →
  (∀ lMsg w0, MtpInterface_isFinished (MPI_Allgather lMsg w0).2 = MtpInterface_isFinished w0) →
  (∀ t w0, MtpInterface_isFinished (MtpInterface_SetSmallestTime t w0)
           = MtpInterface_isFinished w0) →
  itGlobalFinished (RunIteration m_myId w) = true →
  itProcessedRound (RunIteration m_myId w) = false
  ∧ itWorld (RunIteration m_myId w) = itGranted (RunIteration m_myId w).
Proof.
  intros Hown Hgather Hset Hfin.
  destruct (RunIteration_globalFinished m_myId w Hfin) as [Hall _].
  set (w3 := MtpInterface_CalculateSmallestTime (Mpi_TestSendComplete (Mpi_ReceiveMessages w)))
    in *.
  set (lMsg := LbtsMessage.mk (Mpi_GetRxCount w3) (Mpi_GetTxCount w3) m_myId
                 (MtpInterface_isFinished w3) (MtpInterface_GetSmallestTime w3)).
  change (itLbts (RunIteration m_myId w)) with (MPI_Allgather lMsg w3).1 in Hall.
  pose proof (Forall_lookup_1 _ _ _ _ Hall (Hown lMsg w3)) as Hlocal.
  cbn [LbtsMessage.IsFinished lMsg] in Hlocal.
  assert (Hline292 : itLocalFinished (RunIteration m_myId w) = true).
  { change (itLocalFinished (RunIteration m_myId w))
      with (MtpInterface_isFinished
              (MtpInterface_SetSmallestTime
                 (m_smallestTime (reduceLbts (MPI_Allgather lMsg w3).1))
                 (MPI_Allgather lMsg w3).2)).
    by rewrite Hset, Hgather. }
  assert (Hround : itProcessedRound (RunIteration m_myId w) = false).
  { change (itProcessedRound (RunIteration m_myId w))
      with ((totRx (itReduction (RunIteration m_myId w))
             =? totTx (itReduction (RunIteration m_myId w)))
            && negb (itLocalFinished (RunIteration m_myId w))).
    by rewrite Hline292, andb_false_r. }
  split; [exact Hround |].
  change (itWorld (RunIteration m_myId w))
    with (if itProcessedRound (RunIteration m_myId w)
          then MtpInterface_ProcessOneRound (itGranted (RunIteration m_myId w))
          else itGranted (RunIteration m_myId w)).
  by rewrite Hround.
Qed.

End RunEnds.

(** A rank that is alone, with two rounds of work: the run takes three
    passes, two with a round and a last one without. *)
Example Run_lone_rank :
  Run (H := LoneRank) (λ w, w) 0 3 (mkLone 2 0) = Some (mkLone 0 2)
  ∧ itProcessedRound <$> RunLoop (H := LoneRank) 0 3 (mkLone 2 0) = [true; true; false]
  ∧ Run (H := LoneRank) (λ w, w) 0 2 (mkLone 2 0) = None.
Proof. repeat split. Qed.

Lemma Run_returns_when_finished_witness :
  ∃ its it,
    RunLoop (H := LoneRank) 0 3 (mkLone 2 0) = its ++ [it]
    ∧ Forall (λ i, itGlobalFinished i = false) its
    ∧ itGlobalFinished it = true
    ∧ Forall (λ m, LbtsMessage.IsFinished m = true) (allRanks (itLbts it))
    ∧ totRx (itReduction it) = totTx (itReduction it)
    ∧ mkLone 0 2 = @MtpInterface_RunAfter Lone LoneRank (itWorld it).
Proof.
  apply (Run_returns_when_finished (CW := LoneRank) (λ w, w) 0 3 (mkLone 2 0) (mkLone 0 2)).
  reflexivity.
Defined.

Lemma Run_grant_within_local_time_witness :
  m_smallestTime (itReduction (RunIteration (H := LoneRank) 0 (mkLone 2 5))) ≤ 5.
Proof.
  apply (Run_grant_within_local_time (CW := LoneRank) 0 (mkLone 2 5)).
  intros lMsg w0. reflexivity.
Defined.

Lemma Run_last_pass_is_idle_witness :
  itProcessedRound (RunIteration (H := LoneRank) 0 (mkLone 0 2)) = false
  ∧ itWorld (RunIteration (H := LoneRank) 0 (mkLone 0 2))
    = itGranted (RunIteration (H := LoneRank) 0 (mkLone 0 2)).
Proof.
  apply (Run_last_pass_is_idle (CW := LoneRank) 0 (mkLone 0 2)).
  - intros lMsg w0. reflexivity.
  - intros lMsg w0. reflexivity.
  - intros t w0. reflexivity.
  - reflexivity.
Defined.

(** ** The partitioner: edge cases and what it never does *)

(** X12.  On a rank that owns no node, a returning [Partition] has relabelled
    nothing and made no logical process: [EnableNew] is given a system
    count of 0 and a thread count of [min (m_maxThreads, 0)], no scheduler
    is set, [GetSize] stays 1, and [ScheduleWithContext] keeps scheduling
    on the caller's logical process, whatever the context.  It returns,
    whatever the fuel, on a node list that is not empty, when the scheduler
    keeps its contract and the contexts of the pending events name nodes;
    on an empty node list it does not return: the allocation of line 374
    throws. *)
Theorem Partition_no_local_nodes {S : Type} `{SO : Scheduler.Ops S} (fuel : nat)
    (this : Members) (mtp : MtpInterface.State) (nodes : list Node)
    (channels : list Channel) (oldEvents : S) :
  localCount (m_myId this) nodes = 0 →
  (∀ r, Partition fuel this mtp nodes channels oldEvents = Some r →
     partNodes r = nodes
     ∧ MtpInterface.systemCount (partMtp r) = 0
     ∧ MtpInterface.threadCount (partMtp r) = Z.min (m_maxThreads this) 0
     ∧ partSchedulerSet r = []
     ∧ MtpInterface.GetSize (partMtp r) = 1
     ∧ ∀ context delay event,
         ScheduleWithContext (partMtp r) (partNodes r) context delay event
         = Some (MtpInterface.LpScheduleWithContext MtpInterface.GetSystem
                   MtpInterface.GetSystem context delay event))
  ∧ (Scheduler.Lawful S → nodes ≠ [] →
     Forall (contextKnown nodes) (Scheduler.contents oldEvents) →
     ∃ r, Partition fuel this mtp nodes channels oldEvents = Some r)
  ∧ Partition fuel this mtp [] channels oldEvents = None.
Proof.
  intros Hnone. split; [| split].
  - intros r Hr.
    destruct (Partition_without_local_nodes fuel this mtp nodes channels oldEvents r Hnone Hr)
      as (Hnodes & Hmtp & Hset).
    rewrite Hmtp. repeat split; assumption.
  - intros Hlawful Hne Hctx. by apply Partition_returns_without_local_nodes.
  - reflexivity.
Qed.

Lemma labelLocalNodes_localCount (myId : Z) (nodes : list Node) :
  0 ≤ myId < 2 ^ 16 →
  ∀ k, 0 ≤ k → k + localCount myId nodes < 2 ^ 16 →
    localCount myId (labelLocalNodes myId k nodes) = 0.
Proof.
  intros Hrank. induction nodes as [|n nodes IH]; intros k Hk Hcount; [reflexivity |].
  rewrite localCount_cons in Hcount. pose proof (localCount_nonneg myId nodes).
  cbn [labelLocalNodes].
  destruct (Z.eqb_spec (GetSystemId n) myId) as [Hlocal | Hremote]; rewrite localCount_cons.
  - cbn [GetSystemId SetSystemId].
    destruct (Z.eqb_spec (compositeSystemId (k + 1) myId) myId) as [Heq |].
    + exfalso. revert Heq. apply compositeSystemId_not_rank; lia.
    + rewrite IH by lia. reflexivity.
  - destruct (Z.eqb_spec (GetSystemId n) myId); [contradiction |].
    rewrite IH by lia. reflexivity.
Qed.

(** X13.  [Partition] is not made to run twice: after a first run (rank below
    2^16, fewer than 65536 nodes of the rank), a second run on the
    relabelled nodes, as a second [Run] makes it, finds no node of the
    rank; when it returns it has left every system id as it was and given
    [EnableNew] a system count of 0; and it does return, whatever its fuel,
    when the scheduler keeps its contract and no event is pending. *)
Theorem Partition_twice {S : Type} `{SO : Scheduler.Ops S} (fuel : nat)
    (this : Members) (mtp : MtpInterface.State) (nodes : list Node)
    (channels : list Channel) (oldEvents : S) (r : Partitioned S) :
  0 ≤ m_myId this < 2 ^ 16 →
  localCount (m_myId this) nodes < 2 ^ 16 →
  Partition (Datatypes.S fuel) this mtp nodes channels oldEvents = Some r →
  ∀ fuel' this' (oldEvents' : S),
    m_myId this' = m_myId this →
    (∀ r', Partition fuel' this' (partMtp r) (partNodes r) channels oldEvents' = Some r' →
       partNodes r' = partNodes r ∧ MtpInterface.systemCount (partMtp r') = 0)
    ∧ (Scheduler.Lawful S → Scheduler.contents oldEvents' = [] →
       ∃ r', Partition fuel' this' (partMtp r) (partNodes r) channels oldEvents' = Some r').
Proof.
  intros Hrank Hcount Hr fuel' this' old' Hid.
  destruct (Partition_result fuel this mtp nodes channels oldEvents r Hrank Hcount Hr)
    as (Hnodes & _).
  destruct (Partition_inv _ _ _ _ _ _ _ Hr) as (Hne & _).
  assert (Hnone : localCount (m_myId this') (partNodes r) = 0).
  { rewrite Hid, Hnodes. apply labelLocalNodes_localCount; [exact Hrank | lia | lia]. }
  split.
  - intros r' Hr'.
    destruct (Partition_without_local_nodes fuel' this' (partMtp r) (partNodes r) channels
                old' r' Hnone Hr') as (Hnodes' & Hmtp' & _).
    split; [exact Hnodes' | by rewrite Hmtp'].
  - intros Hlawful Hempty.
    apply Partition_returns_without_local_nodes; [exact Hlawful | exact Hnone | |].
    + rewrite Hnodes. intros Heq. apply Hne.
      apply (f_equal length) in Heq. rewrite labelLocalNodes_length in Heq.
      by apply nil_length_inv.
    + rewrite Hempty. constructor.
Qed.

(** X14.  Whenever [Partition] returns, on any rank and for any topology, the
    node list has kept its length and every node its devices, and the
    system id of a node is either the one it had or a composite id
    [(k << 16) | m_myId] of this rank. *)
Theorem Partition_only_relabels {S : Type} `{SO : Scheduler.Ops S} (fuel : nat)
    (this : Members) (mtp : MtpInterface.State) (nodes : list Node)
    (channels : list Channel) (oldEvents : S) (r : Partitioned S) :
  Partition fuel this mtp nodes channels oldEvents = Some r →
  length (partNodes r) = length nodes
  ∧ Forall2 (relabelled (m_myId this)) nodes (partNodes r).
Proof.
  intros Hr.
  destruct (Partition_inv _ _ _ _ _ _ _ Hr) as (_ & count & Hassign & _).
  apply assignLocalSystemIds_relabels in Hassign.
  split; [symmetry; by eapply Forall2_length | exact Hassign].
Qed.

(** ** Routing of the migrated events *)

Lemma owner_in_range (myId : Z) (nodes : list Node) (context : Z) (node' : Node) :
  0 ≤ myId < 2 ^ 16 →
  localCount myId nodes < 2 ^ 16 →
  Forall (λ node, 0 ≤ GetSystemId node < 2 ^ 16) nodes →
  GetNode (labelLocalNodes myId 0 nodes) context = Some node' →
  0 ≤ GetSystemId node' ≫ 16 ≤ localCount myId nodes.
Proof.
  intros Hrank Hcount Hfresh. pose proof (localCount_nonneg myId nodes) as Hnn.
  unfold GetNode. case_decide; [| discriminate]. intros Hnode'.
  assert (Hlt : (Z.to_nat context < length nodes)%nat).
  { rewrite <- (labelLocalNodes_length myId nodes 0). by eapply lookup_lt_Some. }
  destruct (lookup_lt_is_Some_2 _ _ Hlt) as [node Hnode].
  destruct (labelLocalNodes_lookup myId Hrank nodes 0 _ node ltac:(lia) ltac:(lia) Hnode)
    as (node'' & H1 & _ & Hlocal & Hremote).
  rewrite Hnode' in H1. injection H1 as <-.
  destruct (decide (GetSystemId node = myId)) as [Heq | Hne].
  - destruct (Hlocal Heq) as [Hid _]. unfold localIdOf in Hid. lia.
  - rewrite (Hremote Hne).
    pose proof (Forall_lookup_1 _ _ _ _ Hfresh Hnode) as Hsmall. cbn beta in Hsmall.
    rewrite Z.shiftr_div_pow2, Z.div_small by lia. lia.
Qed.

Lemma ScheduleWithContext_target (mtp : MtpInterface.State) (nodes : list Node)
    (context : Z) (delay : Time) (event : nat) (call : MtpInterface.LpCall) (i : Z) :
  (∀ context node, GetNode nodes context = Some node →
     0 ≤ GetSystemId node ≫ 16 < MtpInterface.GetSize mtp) →
  ScheduleWithContext mtp nodes context delay event = Some call →
  targetIndex call = Some i →
  0 ≤ i < MtpInterface.GetSize mtp.
Proof.
  intros Hin. unfold ScheduleWithContext, systemIdOfContext.
  destruct (MtpInterface.GetSize mtp =? 1); [by intros [= <-] |].
  destruct (GetNode nodes context) as [node|] eqn:Hnode; [| discriminate].
  cbn. intros [= <-] [= <-]. by eapply Hin.
Qed.

Lemma transferEvent_target (mtp : MtpInterface.State) (nodes : list Node)
    (ev : Scheduler.Event) (call : MtpInterface.LpCall) (i : Z) :
  0 < MtpInterface.GetSize mtp →
  (∀ context node, GetNode nodes context = Some node →
     0 ≤ GetSystemId node ≫ 16 < MtpInterface.GetSize mtp) →
  transferEvent mtp nodes ev = Some call →
  targetIndex call = Some i →
  0 ≤ i < MtpInterface.GetSize mtp.
Proof.
  intros Hpos Hin. unfold transferEvent, systemIdOfContext, Schedule.
  destruct (_ =? 0).
  - destruct (_ =? NO_CONTEXT).
    + intros [= <-] [= <-]. lia.
    + destruct (GetNode nodes _) as [node|] eqn:Hnode; [| discriminate].
      cbn. intros [= <-] [= <-]. by eapply Hin.
  - destruct (_ =? NO_CONTEXT); [by intros [= <-] |].
    by apply ScheduleWithContext_target.
Qed.

(** X15.  After [Partition] (rank below 2^16, fewer than 65536 nodes of the
    rank, every node entering with a bare rank as system id), no call is
    sent to a logical process that does not exist: every index
    [GetSystem (i)] used for a migrated event, and every index
    [ScheduleWithContext] uses afterwards for a context that names a node,
    satisfies [0 <= i < GetSize ()].  For a context that names no node,
    [ScheduleWithContext] accesses the node list out of range as soon as
    there is more than one logical process. *)
Theorem Partition_routes_in_range {S : Type} `{SO : Scheduler.Ops S} (fuel : nat)
    (this : Members) (mtp : MtpInterface.State) (nodes : list Node)
    (channels : list Channel) (oldEvents : S) (r : Partitioned S) :
  0 ≤ m_myId this < 2 ^ 16 →
  localCount (m_myId this) nodes < 2 ^ 16 →
  Forall (λ node, 0 ≤ GetSystemId node < 2 ^ 16) nodes →
  Partition (Datatypes.S fuel) this mtp nodes channels oldEvents = Some r →
  Forall (λ p, ∀ i, targetIndex p.2 = Some i → 0 ≤ i < MtpInterface.GetSize (partMtp r))
    (partTransferred r)
  ∧ (∀ context delay event,
       0 ≤ context < Z.of_nat (length nodes) →
       ∃ call,
         ScheduleWithContext (partMtp r) (partNodes r) context delay event = Some call
         ∧ ∀ i, targetIndex call = Some i → 0 ≤ i < MtpInterface.GetSize (partMtp r))
  ∧ (∀ context delay event,
       ¬ (0 ≤ context < Z.of_nat (length nodes)) →
       MtpInterface.GetSize (partMtp r) ≠ 1 →
       ScheduleWithContext (partMtp r) (partNodes r) context delay event = None).
Proof.
  intros Hrank Hcount Hfresh Hr.
  destruct (Partition_result fuel this mtp nodes channels oldEvents r Hrank Hcount Hr)
    as (Hnodes & _ & Hmtp & _).
  destruct (Partition_inv _ _ _ _ _ _ _ Hr) as (_ & count & _ & _ & _ & _ & _ & Hcalls).
  pose proof (localCount_nonneg (m_myId this) nodes) as Hnn.
  assert (Hsize : MtpInterface.GetSize (partMtp r) = localCount (m_myId this) nodes + 1).
  { rewrite Hmtp. unfold MtpInterface.GetSize, MtpInterface.EnableNew, u32.
    cbn [MtpInterface.systemCount]. apply Z.mod_small. lia. }
  assert (Hlen : length (partNodes r) = length nodes).
  { rewrite Hnodes. apply labelLocalNodes_length. }
  assert (Hin : ∀ context node, GetNode (partNodes r) context = Some node →
            0 ≤ GetSystemId node ≫ 16 < MtpInterface.GetSize (partMtp r)).
  { intros context node Hnode. rewrite Hsize. rewrite Hnodes in Hnode.
    pose proof (owner_in_range (m_myId this) nodes context node Hrank Hcount Hfresh Hnode).
    lia. }
  split; [| split].
  - clear Hsize.
    assert (Hpos : 0 < MtpInterface.GetSize (partMtp r)).
    { rewrite Hmtp. unfold MtpInterface.GetSize, MtpInterface.EnableNew, u32.
      cbn [MtpInterface.systemCount]. rewrite Z.mod_small by lia. lia. }
    revert Hcalls. generalize (partTransferred r).
    generalize (length (Scheduler.contents
                  (removeOldEvents (length (Scheduler.contents oldEvents)) oldEvents
                     Scheduler.Create).2)).
    generalize ((removeOldEvents (length (Scheduler.contents oldEvents)) oldEvents
                   Scheduler.Create).2).
    intros s n. revert s.
    induction n as [|n IH]; intros s calls; cbn [transferEvents];
      destruct (Scheduler.IsEmpty s); try discriminate;
      try (intros [= <-]; constructor).
    destruct (Scheduler.RemoveNext s) as [[ev s']|]; [| discriminate].
    destruct (transferEvent (partMtp r) (partNodes r) ev) as [call|] eqn:Hcall;
      [| discriminate].
    destruct (transferEvents n (partMtp r) (partNodes r) s') as [rest|] eqn:Hrest;
      [| discriminate].
    cbn. intros [= <-]. constructor; [| by eapply IH].
    intros i. cbn [snd].
    exact (transferEvent_target (partMtp r) (partNodes r) ev call i Hpos Hin Hcall).
  - intros context delay event Hctx. rewrite <- Hlen in Hctx.
    destruct (GetNode_known _ _ Hctx) as [node Hnode].
    assert (Hcall : is_Some (ScheduleWithContext (partMtp r) (partNodes r) context delay
                               event)).
    { unfold ScheduleWithContext, systemIdOfContext. rewrite Hnode.
      destruct (_ =? 1); by eexists. }
    destruct Hcall as [call Hcall]. exists call. split; [exact Hcall |].
    intros i. by apply (ScheduleWithContext_target _ _ _ _ _ _ _ Hin Hcall).
  - intros context delay event Hctx Hmore. rewrite <- Hlen in Hctx.
    unfold ScheduleWithContext, systemIdOfContext.
    apply Z.eqb_neq in Hmore. rewrite Hmore, (GetNode_unknown _ _ Hctx). reflexivity.
Qed.

Lemma isInvokeNow_transferEvent (mtp : MtpInterface.State) (nodes : list Node)
    (ev : Scheduler.Event) (call : MtpInterface.LpCall) :
  transferEvent mtp nodes ev = Some call →
  isInvokeNow call = (Scheduler.m_ts (Scheduler.key ev) =? 0).
Proof.
  unfold transferEvent, Schedule, ScheduleWithContext, systemIdOfContext.
  destruct (_ =? 0); destruct (_ =? NO_CONTEXT); try (by intros [= <-]).
  - destruct (GetNode nodes _); [| discriminate]. by intros [= <-].
  - destruct (_ =? 1); [by intros [= <-] |].
    destruct (GetNode nodes _); [| discriminate]. by intros [= <-].
Qed.

Lemma invoked_first (mtp : MtpInterface.State) (nodes : list Node)
    (l : list (Scheduler.Event * MtpInterface.LpCall)) :
  StronglySorted Scheduler.event_le l.*1 →
  Forall (λ p, transferEvent mtp nodes p.1 = Some p.2) l →
  Forall (λ p, 0 ≤ Scheduler.m_ts (Scheduler.key p.1)) l →
  ∃ now later,
    l = now ++ later
    ∧ Forall (λ p, Scheduler.m_ts (Scheduler.key p.1) = 0 ∧ isInvokeNow p.2 = true) now
    ∧ Forall (λ p, 0 < Scheduler.m_ts (Scheduler.key p.1) ∧ isInvokeNow p.2 = false) later.
Proof.
  induction l as [|p l IH]; intros Hsorted Hcalls Hnonneg.
  - exists [], []. repeat split; constructor.
  - rewrite fmap_cons in Hsorted.
    apply StronglySorted_inv in Hsorted as [Hsorted Hleast].
    apply Forall_cons in Hcalls as [Hcall Hcalls].
    apply Forall_cons in Hnonneg as [Hp Hnonneg].
    destruct (Z.eqb_spec (Scheduler.m_ts (Scheduler.key p.1)) 0) as [Hzero | Hlater].
    + destruct (IH Hsorted Hcalls Hnonneg) as (now & later & -> & Hnow & Hlate).
      exists (p :: now), later. split; [reflexivity |]. split; [| exact Hlate].
      constructor; [| exact Hnow]. split; [exact Hzero |].
      rewrite (isInvokeNow_transferEvent _ _ _ _ Hcall). by apply Z.eqb_eq.
    + exists [], (p :: l). split; [reflexivity |]. split; [constructor |].
      constructor.
      * split; [lia |]. rewrite (isInvokeNow_transferEvent _ _ _ _ Hcall).
        by apply Z.eqb_neq.
      * apply Forall_forall. intros q Hq.
        pose proof (proj1 (Forall_forall _ _) Hleast q.1 (list_elem_of_fmap_2 fst l q Hq))
          as Hle.
        pose proof (proj1 (Forall_forall _ _) Hcalls q Hq) as Hq2.
        cbn in Hle, Hq2. unfold Scheduler.event_le, Scheduler.key_le in Hle.
        assert (Hpos : 0 < Scheduler.m_ts (Scheduler.key q.1)) by lia.
        split; [exact Hpos |].
        rewrite (isInvokeNow_transferEvent _ _ _ _ Hq2). apply Z.eqb_neq. lia.
Qed.

(** X16.  Whenever [Partition] returns, with a scheduler that keeps its contract
    and no pending event before time 0, the migration first runs, by
    [InvokeNow], every event of timestamp 0, and only then schedules the
    others: no event is scheduled on a logical process before the last
    time-0 event has been invoked. *)
Theorem Partition_invokes_before_scheduling {S : Type} `{SO : Scheduler.Ops S} (fuel : nat)
    (this : Members) (mtp : MtpInterface.State) (nodes : list Node)
    (channels : list Channel) (oldEvents : S) (r : Partitioned S) :
  Scheduler.Lawful S →
  Forall (λ ev, 0 ≤ Scheduler.m_ts (Scheduler.key ev)) (Scheduler.contents oldEvents) →
  Partition fuel this mtp nodes channels oldEvents = Some r →
  ∃ now later,
    partTransferred r = now ++ later
    ∧ Forall (λ p, Scheduler.m_ts (Scheduler.key p.1) = 0 ∧ isInvokeNow p.2 = true) now
    ∧ Forall (λ p, 0 < Scheduler.m_ts (Scheduler.key p.1) ∧ isInvokeNow p.2 = false) later.
Proof.
  intros Hlawful Hnonneg Hr.
  destruct (Partition_inv _ _ _ _ _ _ _ Hr) as (_ & count & _ & _ & _ & _ & _ & Hcalls).
  destruct (removeOldEvents_drains Hlawful (length (Scheduler.contents oldEvents))
              oldEvents Scheduler.Create eq_refl) as [_ Hnew].
  rewrite (Scheduler.contents_Create S Hlawful), app_nil_r in Hnew.
  set (moved := (removeOldEvents (length (Scheduler.contents oldEvents)) oldEvents
                   Scheduler.Create).2) in *.
  destruct (transferEvents_ordered Hlawful (partMtp r) (partNodes r)
              (length (Scheduler.contents moved)) moved (partTransferred r) eq_refl Hcalls)
    as (Hperm & Hsorted & Heach).
  apply (invoked_first (partMtp r) (partNodes r)); [exact Hsorted | exact Heach |].
  rewrite <- Hnew, <- Hperm in Hnonneg.
  exact (proj1 (Forall_fmap fst (λ ev, 0 ≤ Scheduler.m_ts (Scheduler.key ev)) _) Hnonneg).
Qed.

(** ** The automatic lookahead *)

Lemma medianOfDelays_Permutation (delays delays' : list Time) :
  delays ≡ₚ delays' → medianOfDelays delays = medianOfDelays delays'.
Proof.
  intros Hperm. unfold medianOfDelays.
  assert (Heq : merge_sort Z.le delays = merge_sort Z.le delays').
  { apply (Sorted_unique Z.le); try (apply Sorted_merge_sort; apply _).
    by rewrite !merge_sort_Permutation. }
  by rewrite Heq.
Qed.

(** X17.  The automatic lookahead does not depend on the order in which the node
    list enumerates the nodes. *)
Theorem autoLookahead_node_order (this : Members) (nodes nodes' : list Node)
    (channels : list Channel) :
  nodes ≡ₚ nodes' →
  autoLookahead this nodes channels = autoLookahead this nodes' channels.
Proof.
  intros Hperm. unfold autoLookahead.
  destruct (m_minLookahead this =? TimeStep 0); [| reflexivity].
  apply medianOfDelays_Permutation.
  rewrite !collectDelays_devices. unfold localDeviceDelays. by rewrite Hperm.
Qed.

(** X18.  When [MinLookahead] is zero at the start and at least one delay
    is collected, the delays being below 2^62 ticks so that the sum of two
    of them fits the 64-bit tick count, the automatic lookahead lies
    between two of the collected delays: it is never below the smallest
    nor above the largest. *)
Theorem autoLookahead_between_delays (this : Members) (nodes : list Node)
    (channels : list Channel) :
  m_minLookahead this = TimeStep 0 →
  Forall (λ d, 0 ≤ d < 2 ^ 62) (collectDelays (m_myId this) nodes channels) →
  collectDelays (m_myId this) nodes channels ≠ [] →
  ∃ low high,
    low ∈ collectDelays (m_myId this) nodes channels
    ∧ high ∈ collectDelays (m_myId this) nodes channels
    ∧ low ≤ autoLookahead this nodes channels ≤ high.
Proof.
  intros Hzero Hbound Hne. unfold autoLookahead. rewrite Hzero, Z.eqb_refl.
  set (delays := collectDelays (m_myId this) nodes channels) in *. clearbody delays.
  unfold medianOfDelays.
  assert (Hperm : merge_sort Z.le delays ≡ₚ delays) by apply merge_sort_Permutation.
  set (sorted := merge_sort Z.le delays) in *. clearbody sorted.
  assert (Hfits : Forall (λ d, 0 ≤ d < 2 ^ 62) sorted) by (by rewrite Hperm).
  assert (Hlen : (0 < length sorted)%nat).
  { rewrite Hperm. destruct delays; [contradiction | cbn; lia]. }
  unfold Time in *.
  case_decide as Hsize; [lia |].
  assert (Hhalf : (length sorted / 2 < length sorted)%nat) by (apply Nat.div_lt; lia).
  case_decide as Hodd.
  - exists (nth (length sorted / 2) sorted 0), (nth (length sorted / 2) sorted 0).
    rewrite <- Hperm.
    split; [by apply nth_elem_of |]. split; [by apply nth_elem_of | lia].
  - rewrite middle_sum_fits by (assumption || lia).
    set (x := nth (length sorted / 2 - 1) sorted 0).
    set (y := nth (length sorted / 2) sorted 0).
    assert (Hx : x ∈ delays) by (rewrite <- Hperm; apply nth_elem_of; lia).
    assert (Hy : y ∈ delays) by (rewrite <- Hperm; by apply nth_elem_of).
    destruct (Z.le_ge_cases x y).
    + exists x, y. split; [exact Hx |]. split; [exact Hy |].
      pose proof (Z.quot_rem' (x + y) 2). pose proof (Z.rem_bound_abs (x + y) 2 ltac:(lia)).
      pose proof (Z.rem_sign_nz (x + y) 2).
      split; Z.to_euclidean_division_equations; lia.
    + exists y, x. split; [exact Hy |]. split; [exact Hx |].
      split; Z.to_euclidean_division_equations; lia.
Qed.

(** A sorted list with every element doubled in place. *)
Lemma doubled_Permutation (s : list Z) : (s ≫= λ x, [x; x]) ≡ₚ s ++ s.
Proof.
  induction s as [|x s IH]; [reflexivity |].
  rewrite bind_cons. cbn [app]. rewrite IH. by rewrite <- Permutation_middle.
Qed.

Lemma doubled_sorted (s : list Z) :
  StronglySorted Z.le s → StronglySorted Z.le (s ≫= λ x, [x; x]).
Proof.
  induction 1 as [|x s Hs IH Hle]; [constructor |].
  rewrite bind_cons. cbn [app].
  assert (Hall : Forall (Z.le x) (s ≫= λ x, [x; x])).
  { apply Forall_bind. eapply Forall_impl; [exact Hle |].
    intros y Hy. by repeat constructor. }
  constructor; [constructor; [exact IH | exact Hall] |].
  constructor; [lia | exact Hall].
Qed.

Lemma doubled_nth (s : list Z) :
  ∀ i, nth (2 * i) (s ≫= λ x, [x; x]) 0 = nth i s 0
       ∧ nth (2 * i + 1) (s ≫= λ x, [x; x]) 0 = nth i s 0.
Proof.
  induction s as [|x s IH]; intros i.
  - cbn. by destruct (2 * i)%nat, (2 * i + 1)%nat, i.
  - rewrite bind_cons. destruct i as [|i]; [by cbn |].
    replace (2 * S i)%nat with (S (S (2 * i))) by lia.
    replace (S (S (2 * i)) + 1)%nat with (S (S (2 * i + 1))) by lia.
    cbn [app nth]. apply IH.
Qed.

Lemma doubled_length (s : list Z) : length (s ≫= λ x, [x; x]) = (2 * length s)%nat.
Proof.
  induction s as [|x s IH]; [reflexivity |].
  rewrite bind_cons, length_app, IH. cbn [length]. lia.
Qed.

Lemma medianOfDelays_doubled (collected links : list Time) :
  Forall (λ d, 0 ≤ d < 2 ^ 62) links →
  collected ≡ₚ links ++ links → medianOfDelays collected = medianOfDelays links.
Proof.
  intros Hbound Hperm. unfold medianOfDelays.
  rewrite <- (merge_sort_Permutation Z.le links) in Hbound.
  assert (Hsorted : StronglySorted Z.le (merge_sort Z.le links)).
  { apply Sorted_StronglySorted; [apply _ | apply Sorted_merge_sort; apply _]. }
  assert (Heq : merge_sort Z.le collected = merge_sort Z.le links ≫= λ x, [x; x]).
  { apply (Sorted_unique Z.le); [apply Sorted_merge_sort; apply _ | |].
    - apply StronglySorted_Sorted. by apply doubled_sorted.
    - rewrite merge_sort_Permutation, Hperm, doubled_Permutation.
      by rewrite !merge_sort_Permutation. }
  rewrite Heq. set (s := merge_sort Z.le links) in *. clearbody s.
  unfold Time in *. rewrite doubled_length.
  destruct (decide (length s = 0%nat)) as [Hnil | Hpos].
  - rewrite !decide_True by lia. reflexivity.
  - rewrite (decide_False (P := (2 * length s)%nat = 0%nat)) by lia.
    rewrite (decide_False (P := ((2 * length s) `mod` 2)%nat = 1%nat)).
    2: { rewrite Nat.mul_comm, Nat.Div0.mod_mul. lia. }
    replace (2 * length s / 2)%nat with (length s) by (rewrite Nat.mul_comm, Nat.div_mul; lia).
    pose proof (Nat.div_mod_eq (length s) 2) as Hdiv.
    pose proof (Nat.mod_upper_bound (length s) 2 ltac:(lia)) as Hmod.
    set (m := (length s / 2)%nat) in *.
    case_decide as Hodd.
    + replace (length s - 1)%nat with (2 * m)%nat by lia.
      replace (length s) with (2 * m + 1)%nat at 1 by lia.
      rewrite (proj1 (doubled_nth s m)), (proj2 (doubled_nth s m)).
      rewrite middle_sum_fits by (assumption || lia).
      replace (nth m s 0 + nth m s 0) with (nth m s 0 * 2) by lia.
      by rewrite Z.quot_mul.
    + replace (length s - 1)%nat with (2 * (m - 1) + 1)%nat by lia.
      replace (length s) with (2 * m)%nat at 1 by lia.
      by rewrite (proj2 (doubled_nth s (m - 1))), (proj1 (doubled_nth s m)).
Qed.

(** X19.  When every collected delay was collected twice, a link with both
    of its devices on the rank being seen once from each end, the automatic
    lookahead is the median of the link delays taken once (delays below
    2^62 ticks, so that the sum of two of them fits the 64-bit tick
    count). *)
Theorem autoLookahead_links_counted_twice (this : Members) (nodes : list Node)
    (channels : list Channel) (links : list Time) :
  m_minLookahead this = TimeStep 0 →
  Forall (λ d, 0 ≤ d < 2 ^ 62) links →
  collectDelays (m_myId this) nodes channels ≡ₚ links ++ links →
  autoLookahead this nodes channels = medianOfDelays links.
Proof.
  intros Hzero Hbound Hperm. unfold autoLookahead. rewrite Hzero, Z.eqb_refl.
  by apply medianOfDelays_doubled.
Qed.

(** ** Calls made on every logical process *)

Lemma forEachSystem_lookup {LP : Type} (f : LP → LP) (count : nat) :
  ∀ (i : nat) (systems : list LP) (j : nat),
    forEachSystem f count i systems !! j
    = if decide (i ≤ j < i + count)%nat then f <$> systems !! j else systems !! j.
Proof.
  induction count as [|count IH]; intros i systems j; cbn [forEachSystem].
  - case_decide; [lia | reflexivity].
  - rewrite IH. destruct (decide (i = j)) as [<- | Hne].
    + rewrite decide_False by lia. rewrite decide_True by lia.
      apply list_lookup_alter_eq.
    + rewrite list_lookup_alter_ne by exact Hne.
      repeat case_decide; (lia || reflexivity).
Qed.

Lemma forEachSystem_all {LP : Type} (f : LP → LP) (systems : list LP) :
  forEachSystem f (length systems) 0 systems = f <$> systems.
Proof.
  apply list_eq. intros j. rewrite forEachSystem_lookup, list_lookup_fmap.
  case_decide as Hj; [reflexivity |].
  rewrite lookup_ge_None_2 by lia. reflexivity.
Qed.

(** X20.  [Stop] and [SetScheduler] reach every logical process of the rank once,
    the public one (index 0) included, and leave their number as it is;
    [SetScheduler] also records the type id of the factory. *)
Theorem Stop_SetScheduler_every_system {LP : Type} `{SY : Systems.Ops LP}
    (schedulerFactory : Z) (systems : list LP) :
  Stop systems = Systems.Stop <$> systems
  ∧ SetScheduler schedulerFactory systems
    = (Systems.SetScheduler schedulerFactory <$> systems, schedulerFactory)
  ∧ length (Stop systems) = length systems
  ∧ length (SetScheduler schedulerFactory systems).1 = length systems.
Proof.
  unfold Stop, SetScheduler. rewrite !forEachSystem_all. cbn [fst].
  rewrite !length_fmap. repeat split.
Qed.

Lemma addEventCounts_sum {LP : Type} `{SY : Systems.Ops LP} (systems : list LP) :
  ∀ (count i : nat) (eventCount : Z),
    (i + count = length systems)%nat →
    addEventCounts count i eventCount systems
    = u64 (eventCount + totalEventCount (drop i systems)) ∨ count = 0%nat.
Proof.
  induction count as [|count IH]; intros i eventCount Hlen; [by right |]. left.
  cbn [addEventCounts].
  destruct (lookup_lt_is_Some_2 systems i ltac:(lia)) as [lp Hlp].
  rewrite Hlp. cbn [from_option].
  rewrite (drop_S _ _ _ Hlp). unfold totalEventCount at 1. cbn [foldr].
  fold (totalEventCount (drop (S i) systems)).
  destruct (IH (S i) (u64 (eventCount + Systems.GetEventCount lp)) ltac:(lia))
    as [-> | ->].
  - unfold u64. rewrite Zplus_mod_idemp_l. f_equal. lia.
  - cbn [addEventCounts]. rewrite drop_ge by lia.
    unfold totalEventCount. cbn [foldr]. f_equal. lia.
Qed.

(** X21.  [GetEventCount] is the sum of the event counts of all the logical
    processes of the rank, reduced modulo 2^64, wherever the running total
    wrapped on the way. *)
Theorem GetEventCount_total {LP : Type} `{SY : Systems.Ops LP} (systems : list LP) :
  GetEventCount systems = u64 (totalEventCount systems).
Proof.
  unfold GetEventCount.
  destruct (addEventCounts_sum systems (length systems) 0 0 eq_refl) as [-> | Hnil].
  - by rewrite drop_0.
  - apply nil_length_inv in Hnil. by rewrite Hnil.
Qed.

(** ** The further properties on concrete topologies *)

Lemma pendingEvents_known :
  Forall (contextKnown chainNodes) (Scheduler.contents (Ops := Scheduler.ListScheduler)
                                      pendingEvents).
Proof.
  cbn. unfold pendingEvents, contextKnown.
  repeat (apply List.Forall_cons; [first [left; reflexivity | right; cbn; lia] |]).
  apply List.Forall_nil.
Qed.

Lemma Partition_no_local_nodes_witness :
  ∃ r,
    Partition (H := Scheduler.ListScheduler) 0 (mkMembers 5 8 (ms 2)) (MtpInterface.Enable 1 0)
      chainNodes chainChannels pendingEvents = Some r
    ∧ partNodes r = chainNodes
    ∧ MtpInterface.systemCount (partMtp r) = 0
    ∧ MtpInterface.threadCount (partMtp r) = 0
    ∧ partSchedulerSet r = []
    ∧ MtpInterface.GetSize (partMtp r) = 1.
Proof.
  destruct (Partition_no_local_nodes (SO := Scheduler.ListScheduler) 0 (mkMembers 5 8 (ms 2))
              (MtpInterface.Enable 1 0) chainNodes chainChannels pendingEvents)
    as (Hnone & Hreturns & _).
  - vm_compute. reflexivity.
  - destruct (Hreturns ListScheduler_lawful ltac:(discriminate) pendingEvents_known)
      as [r Hr].
    destruct (Hnone r Hr) as (Hnodes & Hsystems & Hthreads & Hset & Hsize & _).
    exists r. repeat split; assumption.
Defined.

Lemma Partition_twice_witness :
  ∃ r r',
    Partition (H := Scheduler.ListScheduler) 1 (mkMembers 0 8 (ms 2)) (MtpInterface.Enable 1 0)
      chainNodes chainChannels pendingEvents = Some r
    ∧ Partition (H := Scheduler.ListScheduler) 1 (mkMembers 0 8 (ms 2)) (partMtp r)
        (partNodes r) chainChannels [] = Some r'
    ∧ partNodes r' = partNodes r
    ∧ MtpInterface.systemCount (partMtp r') = 0.
Proof.
  destruct (Partition_returns (SO := Scheduler.ListScheduler) 0 (mkMembers 0 8 (ms 2))
              (MtpInterface.Enable 1 0) chainNodes chainChannels pendingEvents
              ListScheduler_lawful) as [r Hr];
    [cbn; lia | vm_compute; reflexivity | discriminate | exact pendingEvents_known |].
  destruct (Partition_twice (SO := Scheduler.ListScheduler) 0 (mkMembers 0 8 (ms 2))
              (MtpInterface.Enable 1 0) chainNodes chainChannels pendingEvents r
              ltac:(cbn; lia) ltac:(vm_compute; reflexivity) Hr
              1%nat (mkMembers 0 8 (ms 2)) [] eq_refl) as [Hsame Hreturns].
  destruct (Hreturns ListScheduler_lawful eq_refl) as [r' Hr'].
  destruct (Hsame r' Hr') as [Hnodes Hcount].
  exists r, r'. repeat split; assumption.
Defined.

Lemma Partition_only_relabels_witness :
  ∃ r,
    Partition (H := Scheduler.ListScheduler) 1 (mkMembers 0 8 (ms 2)) (MtpInterface.Enable 1 0)
      borderNodes borderChannels pendingEvents = Some r
    ∧ length (partNodes r) = length borderNodes
    ∧ Forall2 (relabelled 0) borderNodes (partNodes r).
Proof.
  eexists. split; [vm_compute; reflexivity |].
  apply (Partition_only_relabels (SO := Scheduler.ListScheduler) 1 (mkMembers 0 8 (ms 2))
           (MtpInterface.Enable 1 0) borderNodes borderChannels pendingEvents).
  vm_compute. reflexivity.
Defined.

Lemma Partition_routes_in_range_witness :
  ∃ r,
    Partition (H := Scheduler.ListScheduler) 1 (mkMembers 0 8 (ms 2)) (MtpInterface.Enable 1 0)
      borderNodes borderChannels pendingEvents = Some r
    ∧ Forall (λ p, ∀ i, targetIndex p.2 = Some i → 0 ≤ i < MtpInterface.GetSize (partMtp r))
        (partTransferred r)
    ∧ ScheduleWithContext (partMtp r) (partNodes r) 7 (ms 1) 9 = None.
Proof.
  destruct (Partition (H := Scheduler.ListScheduler) 1 (mkMembers 0 8 (ms 2))
              (MtpInterface.Enable 1 0) borderNodes borderChannels pendingEvents)
    as [r|] eqn:Hr; [| vm_compute in Hr; discriminate Hr].
  destruct (Partition_routes_in_range (SO := Scheduler.ListScheduler) 0 (mkMembers 0 8 (ms 2))
              (MtpInterface.Enable 1 0) borderNodes borderChannels pendingEvents r)
    as (Hcalls & _ & Hunknown).
  - cbn. lia.
  - vm_compute. reflexivity.
  - repeat constructor; cbn; lia.
  - exact Hr.
  - exists r. split; [reflexivity |]. split; [exact Hcalls |].
    apply Hunknown; [cbn; lia |].
    vm_compute in Hr. injection Hr as <-. vm_compute. discriminate.
Defined.

Lemma Partition_invokes_before_scheduling_witness :
  ∃ r now later,
    Partition (H := Scheduler.ListScheduler) 1 (mkMembers 0 8 (ms 5)) (MtpInterface.Enable 1 0)
      chainNodes chainChannels pendingEvents = Some r
    ∧ partTransferred r = now ++ later
    ∧ Forall (λ p, Scheduler.m_ts (Scheduler.key p.1) = 0 ∧ isInvokeNow p.2 = true) now
    ∧ Forall (λ p, 0 < Scheduler.m_ts (Scheduler.key p.1) ∧ isInvokeNow p.2 = false) later.
Proof.
  destruct (Partition (H := Scheduler.ListScheduler) 1 (mkMembers 0 8 (ms 5))
              (MtpInterface.Enable 1 0) chainNodes chainChannels pendingEvents)
    as [r|] eqn:Hr; [| vm_compute in Hr; discriminate Hr].
  destruct (Partition_invokes_before_scheduling (SO := Scheduler.ListScheduler) 1
              (mkMembers 0 8 (ms 5)) (MtpInterface.Enable 1 0) chainNodes chainChannels
              pendingEvents r ListScheduler_lawful)
    as (now & later & Heq & Hnow & Hlater).
  - cbn. unfold pendingEvents, ms.
    repeat (apply List.Forall_cons; [cbn; lia |]). apply List.Forall_nil.
  - exact Hr.
  - exists r, now, later. repeat split; assumption.
Defined.

Lemma autoLookahead_node_order_witness :
  autoLookahead (mkMembers 0 8 0) chainNodes chainChannels
  = autoLookahead (mkMembers 0 8 0) (reverse chainNodes) chainChannels.
Proof.
  apply (autoLookahead_node_order (mkMembers 0 8 0) chainNodes (reverse chainNodes)
           chainChannels).
  symmetry. apply reverse_Permutation.
Defined.

Lemma autoLookahead_between_delays_witness :
  ∃ low high,
    low ∈ collectDelays 0 borderNodes borderChannels
    ∧ high ∈ collectDelays 0 borderNodes borderChannels
    ∧ low ≤ autoLookahead (mkMembers 0 8 0) borderNodes borderChannels ≤ high.
Proof.
  apply (autoLookahead_between_delays (mkMembers 0 8 0) borderNodes borderChannels).
  - reflexivity.
  - change (collectDelays _ borderNodes borderChannels) with [ms 1; ms 1; ms 3; ms 3].
    unfold ms. repeat (apply List.Forall_cons; [lia |]). apply List.Forall_nil.
  - vm_compute. discriminate.
Defined.

Lemma autoLookahead_links_counted_twice_witness :
  autoLookahead (mkMembers 0 8 0) chainNodes chainChannels
  = medianOfDelays [ms 1; ms 10; ms 1].
Proof.
  apply (autoLookahead_links_counted_twice (mkMembers 0 8 0) chainNodes chainChannels
           [ms 1; ms 10; ms 1]).
  - reflexivity.
  - unfold ms. repeat (apply List.Forall_cons; [lia |]). apply List.Forall_nil.
  - vm_compute. solve_Permutation.
Defined.

(** Three logical processes, one already stopped, are all stopped by
    [Stop]; their event counts 5, 2^64 - 3 and 11 are reported as 13. *)
Example Stop_and_count_three_systems :
  stopped <$> Stop (SY := PlainSystems) threeSystems = [true; true; true]
  ∧ GetEventCount (SY := PlainSystems) threeSystems = 13.
Proof. split; vm_compute; reflexivity. Qed.
